(** * Tech-tree engine of [js/techtree-render.js]

    A shallow embedding of the dependency-graph engine inside the
    [TechtreeRenderer] class: the id index built by the constructor,
    [computeLayers], [isUnlocked], [toggle] with its cascading revocation,
    [reset], [updateProgress], the layout loop of [render], [renderEdges],
    [renderNodes] and the tooltip placement.

    Modelling conventions.
    - Node ids are strings.  The class uses plain objects created by [{}]
      as dictionaries ([nodeMap], [cache], [layers]).  Such an object is a
      finite map over its own keys, and a key it does not own is read
      through its prototype chain: [Object.prototype] and, for [nodeMap],
      the node object that an assignment to the key "__proto__" has made
      its prototype.
    - The nodes of [this.nodes] are shared mutable objects: [nodeMap] holds
      references to them.  A reference is the position of the node in
      [this.nodes]; writing a field is a list update at that position.  A
      node object has the properties of the record [node] and no other.
    - [this.completed] is a [Set] used only through [has], [add], [delete]
      and [clear]: a finite set of ids.
    - Recursive closures ([computeLayer], [cascadeRemove]) take a fuel
      argument that bounds the call depth; running out of fuel stands for a
      recursion that does not return.
    - Numbers: counts and numeric layers are naturals.  The layout is
      computed in binary64, the arithmetic of JavaScript numbers ([float]).
      The progress percentage is kept as an exact quotient in [jsnum], which
      adds the IEEE special values to the rationals; the constants of the
      style tables are exact decimals. *)

From stdpp Require Import gmap strings list numbers sorting.
From Stdlib Require Import QArith Qcanon Floats.

#[local] Set Warnings "-clear-no-such-hyp".

Open Scope Qc_scope.
Open Scope nat_scope.

(** ** Data model *)

Inductive node_type := required | optional | goal.

Global Instance node_type_eq_dec : EqDecision node_type.
Proof. solve_decision. Defined.

(** Results of a JavaScript division of counts: a finite value or a special
    value. *)
Inductive jsnum :=
  | Fin (q : Qc)
  | PInf
  | NInf
  | NaN.

(** What [computeLayer] can return and [computeLayers] can write to a
    [layer] field: a number of layers, NaN, or the value that a plain object
    inherits from [Object.prototype] under the key [key] (a function; for
    "__proto__" the prototype object itself). *)
Inductive jslayer :=
  | LNum (k : nat)
  | LNaN
  | LInherited (key : string).

Global Instance jslayer_eq_dec : EqDecision jslayer.
Proof. solve_decision. Defined.

(** A node object.  [prereqs] may be absent; [layer], [x] and [y] are the
    fields the engine writes ([None] is [undefined]). *)
Record node := Node {
  id : string;
  label : string;
  type : node_type;
  prereqs : option (list string);
  layer : option jslayer;
  x : option float;
  y : option float
}.

(** The list a prereqs field denotes when it is read as [n.prereqs || []]. *)
Definition prereqs_of (n : node) : list string := default [] (prereqs n).

(** ** ProgressionState *)

(** [Array.prototype.includes] on an id list. *)
Definition includes (ps : list string) (i : string) : bool :=
  bool_decide (i ∈ ps).

(** [Set.prototype.has]. *)
Definition has (c : gset string) (i : string) : bool := bool_decide (i ∈ c).

(** [isUnlocked(node)]. *)
Definition isUnlocked (c : gset string) (n : node) : bool :=
  match prereqs n with
  | None => true
  | Some ps =>
      if bool_decide (length ps = 0) then true
      else forallb (has c) ps
  end.

(** [forEach] whose callback can fail to return. *)
Fixpoint forEachM {A S : Type} (f : S → A → option S) (l : list A) (s : S)
  : option S :=
  match l with
  | [] => Some s
  | a :: l' =>
      match f s a with
      | Some s' => forEachM f l' s'
      | None => None
      end
  end.

(** The guard of the cascade:
    [n.prereqs && n.prereqs.includes(id) && this.completed.has(n.id)]. *)
Definition revokes (c : gset string) (i : string) (n : node) : bool :=
  match prereqs n with
  | None => false
  | Some ps => includes ps i && has c (id n)
  end.

(** [cascadeRemove(id)], threading the completion set. *)
Fixpoint cascadeRemove (fuel : nat) (nodes : list node) (i : string)
    (c : gset string) : option (gset string) :=
  match fuel with
  | O => None
  | S fuel' =>
      forEachM
        (λ c n,
           if revokes c i n
           then cascadeRemove fuel' nodes (id n) (c ∖ {[id n]})
           else Some c)
        nodes c
  end.

(** [toggle(node)] on the completion set.  The calls to [updateProgress]
    and [render] that end the method read the set and do not change it. *)
Definition toggle (fuel : nat) (nodes : list node) (c : gset string)
    (n : node) : option (gset string) :=
  let isDone := has c (id n) in
  let unlocked := isUnlocked c n in
  if negb unlocked && negb isDone then Some c
  else if isDone then
    c' ← cascadeRemove fuel nodes (id n) c;
    Some (c' ∖ {[id n]})
  else Some ({[id n]} ∪ c).

(** [reset()]: [this.completed.clear()], then the same two refresh calls. *)
Definition reset (c : gset string) : gset string := ∅.

(** The completion invariant: a completed node has all its prereqs
    completed. *)
Definition completion_inv (nodes : list node) (c : gset string) : Prop :=
  ∀ n, n ∈ nodes → id n ∈ c → ∀ p, p ∈ prereqs_of n → p ∈ c.

(** Reversed prereq edges: [dependent nodes p i] when some node with id [i]
    lists [p] among its prereqs. *)
Definition dependent (nodes : list node) (p i : string) : Prop :=
  ∃ n, n ∈ nodes ∧ id n = i ∧ p ∈ prereqs_of n.

(** Downstream closure of [r]: one or more reversed prereq edges. *)
Inductive downstream (nodes : list node) (r : string) : string → Prop :=
  | downstream_step i : dependent nodes r i → downstream nodes r i
  | downstream_next i j :
      downstream nodes r i → dependent nodes i j → downstream nodes r j.

(** The same closure along completed nodes only: what the cascade can
    reach in the set [c]. *)
Inductive downstream_in (nodes : list node) (c : gset string) (r : string)
  : string → Prop :=
  | downstream_in_step i :
      dependent nodes r i → i ∈ c → downstream_in nodes c r i
  | downstream_in_next i j :
      dependent nodes r i → i ∈ c → downstream_in nodes c i j →
      downstream_in nodes c r j.

(** Well-formedness of the input sequence: ids are unique and every prereq
    names a node of the sequence. *)
Definition unique_ids (nodes : list node) : Prop := NoDup (id <$> nodes).

Definition no_dangling (nodes : list node) : Prop :=
  ∀ n p, n ∈ nodes → p ∈ prereqs_of n → ∃ m, m ∈ nodes ∧ id m = p.

Definition well_formed (nodes : list node) : Prop :=
  unique_ids nodes ∧ no_dangling nodes.

(** The prereqs relation has a cycle through [i] when [i] is downstream of
    itself; a graph is acyclic when no id is. *)
Definition on_cycle (nodes : list node) (i : string) : Prop :=
  downstream nodes i i.

Definition acyclic (nodes : list node) : Prop := ∀ i, ¬ on_cycle nodes i.

(** Completion sets the engine can be in: it starts empty and changes by
    toggling a node of the graph or by a reset. *)
Inductive reachable (nodes : list node) : gset string → Prop :=
  | reachable_init : reachable nodes ∅
  | reachable_toggle c n fuel c' :
      reachable nodes c → n ∈ nodes → toggle fuel nodes c n = Some c' →
      reachable nodes c'
  | reachable_reset c : reachable nodes c → reachable nodes (reset c).

(** The completion invariant as a check on a concrete graph. *)
Definition completion_inv_b (nodes : list node) (c : gset string) : bool :=
  forallb (λ n, implb (has c (id n)) (forallb (has c) (prereqs_of n))) nodes.

(** The chain of the revocation scenario: B requires A, C requires B. *)
Definition mk (i : string) (t : node_type) (ps : option (list string)) : node :=
  Node i i t ps None None None.

Definition chainABC : list node :=
  [ mk "A" required (Some []); mk "B" required (Some ["A"]);
    mk "C" required (Some ["B"]) ].

Definition nodeA : node := mk "A" required (Some []).
Definition nodeB : node := mk "B" required (Some ["A"]).

(** What one cascade call guarantees about the set it returns. *)
Definition cascade_post (nodes : list node) (c : gset string) (r : string) (c' : gset string)
  : Prop :=
  c' ⊆ c
  ∧ (∀ i, i ∈ c → i ∉ c' → downstream_in nodes c r i)
  ∧ (∀ n p, n ∈ nodes → p ∈ prereqs_of n →
       p = r ∨ (p ∈ c ∧ p ∉ c') → id n ∉ c').

(** The state of the [forEach] loop after the nodes of [visited] have been
    visited. *)
Definition cascade_loop_inv (nodes : list node) (c0 : gset string) (r : string)
    (visited : list node) (c : gset string) : Prop :=
  c ⊆ c0
  ∧ (∀ i, i ∈ c0 → i ∉ c → downstream_in nodes c0 r i)
  ∧ (∀ n, n ∈ visited → r ∈ prereqs_of n → id n ∉ c)
  ∧ (∀ n p, n ∈ nodes → p ∈ prereqs_of n → p ∈ c0 → p ∉ c → id n ∉ c).

(** A topological rank of the chain. *)
Definition chain_rank (i : string) : nat :=
  if decide (i = "A") then 0 else if decide (i = "B") then 1 else 2.

(** ** Plain objects as dictionaries *)

(** The property names every object created by [{}] inherits from
    [Object.prototype]. *)
Definition Object_prototype : list string :=
  [ "constructor"; "__defineGetter__"; "__defineSetter__"; "hasOwnProperty";
    "__lookupGetter__"; "__lookupSetter__"; "isPrototypeOf";
    "propertyIsEnumerable"; "toString"; "valueOf"; "__proto__";
    "toLocaleString" ].

Definition inherited (k : string) : bool := bool_decide (k ∈ Object_prototype).

(** Ids that do not collide with an inherited property: no id and no
    prereqs entry names a property of [Object.prototype]. *)
Definition plain_ids (nodes : list node) : Prop :=
  ∀ n, n ∈ nodes →
    inherited (id n) = false ∧ ∀ p, p ∈ prereqs_of n → inherited p = false.

Definition plain_ids_b (nodes : list node) : bool :=
  forallb (λ n, negb (inherited (id n))
                && forallb (λ p, negb (inherited p)) (prereqs_of n)) nodes.

(** ** GraphIndex and LayerAssigner *)

(** Errors the engine code can raise.  [TypeError]: a property read on
    [undefined].  [Diverges]: the recursion exhausted its fuel. *)
Inductive error := TypeError | Diverges.

Inductive result (A : Type) :=
  | Ok (a : A)
  | Err (e : error).
Arguments Ok {A} a.
Arguments Err {A} e.

Global Instance result_ret : MRet result := λ A a, Ok a.

Global Instance result_bind : MBind result := λ A B f r,
  match r with
  | Ok a => f a
  | Err e => Err e
  end.
Global Arguments result_bind _ _ _ !_ / : assert.

(** [this.nodes.forEach(n => this.nodeMap[n.id] = n)], the references
    numbered from [start]: a later node with the same id replaces the
    earlier one.  The assignment to the key "__proto__" creates no own
    property: it makes the node the prototype of [nodeMap]; the entry of
    that key stands for the prototype link. *)
Fixpoint indexNodes (start : nat) (nodes : list node) (m : gmap string nat)
  : gmap string nat :=
  match nodes with
  | [] => m
  | n :: rest => indexNodes (S start) rest (<[id n := start]> m)
  end.

Definition buildNodeMap (nodes : list node) : gmap string nat :=
  indexNodes 0 nodes ∅.

(** What [this.nodeMap[k]] evaluates to: a node object, a value that is
    not a node object (an inherited function, or a string, array, number or
    object read through a prototype), or [undefined].  A value that is not a
    node object has none of the properties [id], [prereqs], [x] and [y];
    [undefined] raises on any property read. *)
Inductive lookup_result :=
  | IsNode (n : node)
  | NotANode
  | IsUndefined.

(** [Object.prototype[k]]. *)
Definition objectProto (k : string) : lookup_result :=
  if inherited k then NotANode else IsUndefined.

(** A property of a node object read as a value: [undefined] when the node
    does not have it, else a string, an array or a number. *)
Definition fieldValue {A : Type} (field : option A) : lookup_result :=
  match field with
  | Some _ => NotANode
  | None => IsUndefined
  end.

(** The key [k] read through the node object [n] as prototype: a property
    of the node when the node has it, else [Object.prototype[k]] (which is
    [undefined] for the names of the optional fields). *)
Definition viaNode (n : node) (k : string) : lookup_result :=
  if bool_decide (k ∈ ["id"; "label"; "type"]) then NotANode
  else if decide (k = "prereqs") then fieldValue (prereqs n)
  else if decide (k = "layer") then fieldValue (layer n)
  else if decide (k = "x") then fieldValue (x n)
  else if decide (k = "y") then fieldValue (y n)
  else objectProto k.

(** [this.nodeMap[k]]: an own entry, else what the prototype chain of
    [nodeMap] gives.  Reading "__proto__" gives the prototype, which is the
    node stored under that key or else [Object.prototype]. *)
Definition nodeAt (nodes : list node) (nodeMap : gmap string nat) (k : string)
  : lookup_result :=
  match nodeMap !! k ≫= (nodes !!.) with
  | Some n => IsNode n
  | None =>
      match nodeMap !! "__proto__" ≫= (nodes !!.) with
      | Some n => viaNode n k
      | None => objectProto k
      end
  end.

(** [cache[k]] when it is not [undefined]: an own entry, else the value
    inherited from [Object.prototype]. *)
Definition cacheGet (cache : gmap string jslayer) (k : string)
  : option jslayer :=
  match cache !! k with
  | Some v => Some v
  | None => if inherited k then Some (LInherited k) else None
  end.

(** [v + 1] as [Math.max] reads it: a number, or [None] for what converts
    to NaN (NaN itself, and the string that a function or an object plus 1
    is). *)
Definition plusOne (v : jslayer) : option nat :=
  match v with
  | LNum k => Some (k + 1)
  | LNaN | LInherited _ => None
  end.

Fixpoint numbers (vs : list (option nat)) : option (list nat) :=
  match vs with
  | [] => Some []
  | v :: vs' =>
      match v, numbers vs' with
      | Some k, Some ks => Some (k :: ks)
      | _, _ => None
      end
  end.

(** [Math.max(...vs)] for one argument or more: NaN as soon as one
    argument converts to NaN.  (Without arguments the result is -Infinity;
    the call is made with one argument per prereq of a non-empty list.) *)
Definition mathMax (vs : list (option nat)) : jslayer :=
  match numbers vs with
  | Some ks => LNum (max_list ks)
  | None => LNaN
  end.

(** [Array.prototype.map] with a callback that threads the cache and can
    raise. *)
Fixpoint mapS {A B S : Type} (f : A → S → result (B * S)) (l : list A) (s : S)
  : result (list B * S) :=
  match l with
  | [] => Ok ([], s)
  | a :: l' =>
      '(b, s1) ← f a s;
      '(bs, s2) ← mapS f l' s1;
      Ok (b :: bs, s2)
  end.

(** The closure [computeLayer] of [computeLayers], threading [cache].  The
    cache is written only under a key for which [cache[id]] was
    [undefined], which is then no inherited name. *)
Fixpoint computeLayer (fuel : nat) (nodes : list node)
    (nodeMap : gmap string nat) (i : string) (cache : gmap string jslayer)
  : result (jslayer * gmap string jslayer) :=
  match fuel with
  | O => Err Diverges
  | S fuel' =>
      match cacheGet cache i with
      | Some v => Ok (v, cache)
      | None =>
          match nodeAt nodes nodeMap i with
          | IsUndefined => Err TypeError
          | NotANode => Ok (LNum 0, <[i := LNum 0]> cache)
          | IsNode n =>
              match prereqs n with
              | None => Ok (LNum 0, <[i := LNum 0]> cache)
              | Some ps =>
                  if bool_decide (length ps = 0)
                  then Ok (LNum 0, <[i := LNum 0]> cache)
                  else
                    '(vs, cache') ←
                      mapS (λ p c,
                              '(v, c') ← computeLayer fuel' nodes nodeMap p c;
                              Ok (plusOne v, c'))
                           ps cache;
                    let v := mathMax vs in
                    Ok (v, <[i := v]> cache')
              end
          end
      end
  end.

Definition set_layer (n : node) (l : jslayer) : node :=
  Node (id n) (label n) (type n) (prereqs n) (Some l) (x n) (y n).

(** [this.nodes.forEach(n => n.layer = computeLayer(n.id))] over the nodes
    [todo] still to visit, the first of them at position [r]: every call
    sees the node objects as the earlier assignments left them. *)
Fixpoint assignLayers (fuel : nat) (nodeMap : gmap string nat) (r : nat)
    (todo : list node) (nodes : list node) (cache : gmap string jslayer)
  : result (list node * gmap string jslayer) :=
  match todo with
  | [] => Ok (nodes, cache)
  | n :: rest =>
      '(v, cache1) ← computeLayer fuel nodes nodeMap (id n) cache;
      assignLayers fuel nodeMap (S r) rest
        (alter (λ m, set_layer m v) r nodes) cache1
  end.

(** [computeLayers()]: the nodes with their [layer] fields written. *)
Definition computeLayers (fuel : nat) (nodes : list node)
    (nodeMap : gmap string nat) : result (list node) :=
  '(nodes', _) ← assignLayers fuel nodeMap 0 nodes nodes ∅;
  Ok nodes'.

(** The layer field of the node with id [p]. *)
Fixpoint findById (p : string) (nodes : list node) : option node :=
  match nodes with
  | [] => None
  | n :: rest => if decide (id n = p) then Some n else findById p rest
  end.

Definition layerOf (nodes : list node) (p : string) : option jslayer :=
  n ← findById p nodes; layer n.

(** The layer equation over a reading [look] of layers by id: 0 without
    prereqs, else the [Math.max] of the prereqs' layers plus one. *)
Definition layer_eqn (look : string → option jslayer) (n : node) (v : jslayer)
  : Prop :=
  (prereqs_of n = [] ∧ v = LNum 0)
  ∨ (prereqs_of n ≠ []
     ∧ ∃ ls, Forall2 (λ p lp, look p = Some lp) (prereqs_of n) ls
             ∧ v = mathMax (plusOne <$> ls)).

(** What the layer equation asks of the value cached under the key [i]:
    the equation of the node the index holds for [i]; 0 for a value that is
    not a node object; nothing is cached for [undefined]. *)
Definition entry_ok (nodes : list node) (nodeMap : gmap string nat)
    (cache : gmap string jslayer) (i : string) (v : jslayer) : Prop :=
  match nodeAt nodes nodeMap i with
  | IsNode n => layer_eqn (cacheGet cache) n v
  | NotANode => v = LNum 0
  | IsUndefined => False
  end.

(** A cache is consistent when no entry is under an inherited name and
    every entry obeys the layer equation of what the index holds for its
    key. *)
Definition cache_consistent (nodes : list node) (nodeMap : gmap string nat)
    (cache : gmap string jslayer) : Prop :=
  ∀ i v, cache !! i = Some v →
    inherited i = false ∧ entry_ok nodes nodeMap cache i v.

(** The callback [p => computeLayer(p) + 1] at one recursion depth. *)
Definition layer_step (fuel : nat) (nodes : list node)
    (nodeMap : gmap string nat) (p : string) (c : gmap string jslayer)
  : result (option nat * gmap string jslayer) :=
  '(v, c') ← computeLayer fuel nodes nodeMap p c; Ok (plusOne v, c').

(** One cache extends another when it keeps its entries and what it reads
    under every key. *)
Definition cache_le (c c' : gmap string jslayer) : Prop :=
  c ⊆ c' ∧ ∀ k v, cacheGet c k = Some v → cacheGet c' k = Some v.

(** What a returning call [computeLayer(i)] guarantees about the cache. *)
Definition layer_post (nodes : list node) (nodeMap : gmap string nat)
    (i : string) (cache : gmap string jslayer) (v : jslayer)
    (cache' : gmap string jslayer) : Prop :=
  cache_le cache cache'
  ∧ cacheGet cache' i = Some v
  ∧ cache_consistent nodes nodeMap cache'
  ∧ ∀ j, cache !! j = None → is_Some (cache' !! j) →
      j = i ∨ downstream nodes j i.

(** A later state of the node objects: the same ids, prereqs and types,
    and no written field undone. *)
Definition later (st st' : list node) : Prop :=
  Forall2 (λ n n', id n' = id n ∧ prereqs n' = prereqs n ∧ type n' = type n
                   ∧ (is_Some (layer n) → is_Some (layer n'))
                   ∧ (is_Some (x n) → is_Some (x n'))
                   ∧ (is_Some (y n) → is_Some (y n')))
    st st'.

(** The index refers to positions of the store that carry the key, and to
    the position of every node. *)
Definition indexed (nodeMap : gmap string nat) (st : list node) : Prop :=
  ∀ i r, nodeMap !! i = Some r → ∃ n, st !! r = Some n ∧ id n = i.

Definition exact_index (nodeMap : gmap string nat) (st : list node) : Prop :=
  ∀ r n, st !! r = Some n → nodeMap !! id n = Some r.

(** The scenario graph of the specification: a, b requires a, c requires a
    and b. *)
Definition scenario : list node :=
  [ mk "a" required (Some []); mk "b" required (Some ["a"]);
    mk "c" goal (Some ["a"; "b"]) ].

(** Checks of well-formedness and of a topological rank on a concrete
    graph. *)
Definition well_formed_b (nodes : list node) : bool :=
  bool_decide (NoDup (id <$> nodes))
  && forallb (λ n, forallb (λ p, bool_decide (p ∈ id <$> nodes)) (prereqs_of n))
       nodes.

Definition ranked_b (rank : string → nat) (nodes : list node) : bool :=
  forallb (λ n, forallb (λ p, bool_decide (rank p < rank (id n))) (prereqs_of n))
    nodes.

(** The rank of the scenario graph and of the chain. *)
Definition scenario_rank (i : string) : nat :=
  if decide (i = "a") then 0 else if decide (i = "b") then 1 else 2.

(** A node that requires itself. *)
Definition selfLoop : list node := [ mk "a" required (Some ["a"]) ].

(** A root whose id names a method of [Object.prototype], alone and next to
    an ordinary root, and a node that requires such a root. *)
Definition protoRoot : list node := [ mk "toString" required (Some []) ].

Definition protoPair : list node :=
  [ mk "a" required (Some []); mk "toString" required (Some []) ].

Definition protoChain : list node :=
  [ mk "toString" required (Some []); mk "b" required (Some ["toString"]) ].

(** ** Numbers *)

Definition Qc_of_nat (n : nat) : Qc := Qc_of_Z (Z.of_nat n).

(** [a / b], [a * b] and [a + b] on JavaScript numbers.  Finite values are
    computed exactly; zero stands for the positive zero. *)
Definition js_div (a b : jsnum) : jsnum :=
  match a, b with
  | NaN, _ | _, NaN => NaN
  | Fin p, Fin q =>
      if decide (q = 0%Qc) then
        if decide (p = 0%Qc) then NaN
        else if decide (0 < p)%Qc then PInf else NInf
      else Fin (p / q)%Qc
  | Fin _, (PInf | NInf) => Fin 0%Qc
  | (PInf | NInf), (PInf | NInf) => NaN
  | PInf, Fin q => if decide (0 ≤ q)%Qc then PInf else NInf
  | NInf, Fin q => if decide (0 ≤ q)%Qc then NInf else PInf
  end.

Definition js_mul (a b : jsnum) : jsnum :=
  match a, b with
  | NaN, _ | _, NaN => NaN
  | Fin p, Fin q => Fin (p * q)%Qc
  | Fin p, PInf | PInf, Fin p =>
      if decide (p = 0%Qc) then NaN
      else if decide (0 < p)%Qc then PInf else NInf
  | Fin p, NInf | NInf, Fin p =>
      if decide (p = 0%Qc) then NaN
      else if decide (0 < p)%Qc then NInf else PInf
  | PInf, PInf | NInf, NInf => PInf
  | PInf, NInf | NInf, PInf => NInf
  end.

Definition js_add (a b : jsnum) : jsnum :=
  match a, b with
  | NaN, _ | _, NaN => NaN
  | Fin p, Fin q => Fin (p + q)%Qc
  | PInf, NInf | NInf, PInf => NaN
  | PInf, _ | _, PInf => PInf
  | NInf, _ | _, NInf => NInf
  end.

(** ** Progress *)

(** [updateProgress()]: [None] when either progress element is missing;
    otherwise the two counts shown in the text and the width percentage. *)
Definition updateProgress (progressText progressFill : bool)
    (nodes : list node) (c : gset string) : option (nat * nat * jsnum) :=
  if negb progressText || negb progressFill then None
  else
    let required_nodes := filter (λ n, type n = required) nodes in
    let completedRequired :=
      length (filter (λ n, id n ∈ c) required_nodes) in
    Some (completedRequired, length required_nodes,
          js_mul (js_div (Fin (Qc_of_nat completedRequired))
                         (Fin (Qc_of_nat (length required_nodes))))
                 (Fin (Qc_of_Z 100))).

(** ** Numbers of the layout *)

(** The number of a count, an index or a numeric layer, and of a pixel
    size the container reports (exact for every integer below 2^53 in
    absolute value). *)
Definition num_of_nat (n : nat) : float :=
  of_uint63 (Uint63.of_Z (Z.of_nat n)).

Definition num_of_Z (z : Z) : float :=
  if decide (z < 0)%Z then (- of_uint63 (Uint63.of_Z (- z)))%float
  else of_uint63 (Uint63.of_Z z).

(** A number is truthy unless it is NaN or a zero. *)
Definition truthy (v : float) : bool := negb (is_nan v || is_zero v).

(** ** LayoutEngine *)

(** The layout options after the constructor has applied its defaults
    ([this.config.nodeWidth || 136] and so on). *)
Record config := Config {
  cfg_nodeWidth : option float;
  cfg_nodeHeight : option float;
  cfg_nodeGap : option float;
  cfg_layerPadding : option float
}.

Record dims := Dims {
  nodeWidth : float;
  nodeHeight : float;
  nodeGap : float;
  layerPadding : float
}.

(** [v || d] on an optional number. *)
Definition orDefault (v : option float) (d : float) : float :=
  match v with
  | Some q => if truthy q then q else d
  | None => d
  end.

Definition dimsOf (cfg : config) : dims :=
  Dims (orDefault (cfg_nodeWidth cfg) 136%float)
       (orDefault (cfg_nodeHeight cfg) 44%float)
       (orDefault (cfg_nodeGap cfg) 30%float)
       (orDefault (cfg_layerPadding cfg) 34%float).

(** [layers[L] || []]: the references of the nodes whose layer is the
    number [L], in input order; references are numbered from [start]. *)
Fixpoint groupFrom (start : nat) (nodes : list node) (L : nat) : list nat :=
  match nodes with
  | [] => []
  | n :: rest =>
      if decide (layer n = Some (LNum L))
      then start :: groupFrom (S start) rest L
      else groupFrom (S start) rest L
  end.

(** [Number(key)] of the key under which a node is filed in [layers]: a
    number for a numeric layer; NaN ([None]) for a layer that is NaN, an
    inherited function or object, or [undefined]. *)
Definition layerNum (n : node) : option nat :=
  match layer n with
  | Some (LNum k) => Some k
  | _ => None
  end.

(** [Math.max(...Object.keys(layers).map(Number))]: [None] when the loop
    bound is not a number the loop can reach (no node: -Infinity; a key that
    is not a number: NaN). *)
Definition maxLayer (nodes : list node) : option nat :=
  match nodes with
  | [] => None
  | _ => ls ← mapM layerNum nodes; Some (max_list ls)
  end.

(** [n.x || 0]. *)
Definition xOrZero (n : node) : float :=
  match x n with
  | Some v => if truthy v then v else 0%float
  | None => 0%float
  end.

(** [ps.reduce((s, p) => s + (this.nodeMap[p].x || 0), s0)]. *)
Fixpoint sumX (nodes : list node) (nodeMap : gmap string nat) (s : float)
    (ps : list string) : result float :=
  match ps with
  | [] => Ok s
  | p :: rest =>
      match nodeAt nodes nodeMap p with
      | IsUndefined => Err TypeError
      | NotANode => sumX nodes nodeMap (s + 0)%float rest
      | IsNode q => sumX nodes nodeMap (s + xOrZero q)%float rest
      end
  end.

(** [ps.length || 1]. *)
Definition lengthOrOne (ps : list string) : float :=
  if decide (length ps = 0) then 1%float else num_of_nat (length ps).

(** The sort key of the comparator: the mean [x] of the prereqs. *)
Definition barycenter (nodes : list node) (nodeMap : gmap string nat)
    (a : node) : result float :=
  match prereqs a with
  | None => Err TypeError
  | Some ps =>
      s ← sumX nodes nodeMap 0%float ps;
      Ok (s / lengthOrOne ps)%float
  end.

(** The keys of a group, each with the reference it belongs to. *)
Fixpoint keysOf (nodes : list node) (nodeMap : gmap string nat)
    (group : list nat) : result (list (float * nat)) :=
  match group with
  | [] => Ok []
  | r :: rest =>
      match nodes !! r with
      | None => Err TypeError
      | Some n =>
          k ← barycenter nodes nodeMap n;
          ks ← keysOf nodes nodeMap rest;
          Ok ((k, r) :: ks)
      end
  end.

(** The comparator [(a, b) => ax - bx] on the keys of two elements: [a]
    goes first when the difference is negative, [b] when it is positive. *)
Definition goesBefore (ka kb : float) : bool := (ka - kb <? 0)%float.

Definition goesAfter (ka kb : float) : bool := (0 <? ka - kb)%float.

(** [Array.prototype.sort] with that comparator.  For a consistent
    comparator the result is the stable sort, whatever the algorithm; it is
    computed here by insertion: an element goes in front of the first later
    element that the comparator does not put before it. *)
Fixpoint insertByKey (a : float * nat) (l : list (float * nat))
  : list (float * nat) :=
  match l with
  | [] => [a]
  | b :: l' =>
      if goesAfter a.1 b.1 then b :: insertByKey a l' else a :: b :: l'
  end.

Definition sortByKey (l : list (float * nat)) : list (float * nat) :=
  foldr insertByKey [] l.

(** [group.sort(...)]: the comparator runs only when there are two elements
    to compare. *)
Definition sortGroup (nodes : list node) (nodeMap : gmap string nat)
    (group : list nat) : result (list nat) :=
  if decide (length group ≤ 1) then Ok group
  else ks ← keysOf nodes nodeMap group; Ok (snd <$> sortByKey ks).

Definition set_xy (vx vy : float) (n : node) : node :=
  Node (id n) (label n) (type n) (prereqs n) (layer n) (Some vx) (Some vy).

(** [group.forEach((n, i) => { n.x = startX + i * step; n.y = vy })], the
    position [i] counted from [k]. *)
Fixpoint placeFrom (k : nat) (startX step vy : float)
    (order : list nat) (nodes : list node) : list node :=
  match order with
  | [] => nodes
  | r :: rest =>
      placeFrom (S k) startX step vy rest
        (alter (set_xy (startX + num_of_nat k * step)%float vy) r nodes)
  end.

(** [startX] of a group of [count] nodes in a viewport of width [W]. *)
Definition startXOf (W : Z) (d : dims) (count : nat) : float :=
  let totalWidth :=
    (num_of_nat count * nodeWidth d
     + (num_of_nat count - 1) * nodeGap d)%float in
  ((num_of_Z W - totalWidth) / 2 + nodeWidth d / 2)%float.

(** The [y] of layer [L]. *)
Definition yOf (H : Z) (d : dims) (maxL L : nat) : float :=
  (layerPadding d
   + (num_of_nat L / num_of_nat maxL)
     * (num_of_Z H - layerPadding d * 2))%float.

(** One iteration of the layout loop. *)
Definition renderLayer (W H : Z) (d : dims) (nodeMap : gmap string nat)
    (maxL : nat) (nodes : list node) (L : nat) : result (list node) :=
  let group := groupFrom 0 nodes L in
  order ← (if decide (0 < L) then sortGroup nodes nodeMap group else Ok group);
  Ok (placeFrom 0 (startXOf W d (length order)) (nodeWidth d + nodeGap d)%float
        (yOf H d maxL L) order nodes).

Fixpoint renderLayers (W H : Z) (d : dims) (nodeMap : gmap string nat)
    (maxL : nat) (Ls : list nat) (nodes : list node) : result (list node) :=
  match Ls with
  | [] => Ok nodes
  | L :: Ls' =>
      nodes' ← renderLayer W H d nodeMap maxL nodes L;
      renderLayers W H d nodeMap maxL Ls' nodes'
  end.

(** The layout pass of [render()] for a container of [W] by [H] pixels:
    the loop over the layers 0 to [maxLayer], which does not run when
    [maxLayer] is NaN or -Infinity. *)
Definition render (W H : Z) (d : dims) (nodeMap : gmap string nat)
    (nodes : list node) : result (list node) :=
  match maxLayer nodes with
  | None => Ok nodes
  | Some maxL => renderLayers W H d nodeMap maxL (seq 0 (S maxL)) nodes
  end.

(** ** Rendering layer: visual state of nodes and edges *)

(** [isLocked] of [renderNodes]: [!isDone && !isUnlocked]. *)
Definition nodeLocked (c : gset string) (n : node) : bool :=
  negb (has c (id n)) && negb (isUnlocked c n).

Inductive cursor := NotAllowed | Pointer.

Inductive status_icon := CheckIcon | LockIcon.

(** The five attribute sets of [renderNodes]: fill, stroke, stroke width,
    dash pattern and text colour. *)
Record node_style := NodeStyle {
  ns_bg : string;
  ns_border : string;
  ns_borderWidth : Qc;
  ns_borderDash : option string;
  ns_textColor : string
}.

Definition nodeStyle (isDone isLocked : bool) (t : node_type) : node_style :=
  if isDone then
    NodeStyle "#e8f8f0" "#27ae60" (Q2Qc (5 # 2)) None "#1e8449"
  else if isLocked then
    NodeStyle "#f5f6f7" "#d0d4d8" (Q2Qc (3 # 2)) None "#95999e"
  else if decide (t = goal) then
    NodeStyle "#fff8e6" "#f39c12" (Q2Qc (5 # 2)) None "#d68910"
  else if decide (t = optional) then
    NodeStyle "#f3e8ff" "#9b59b6" (Qc_of_Z 2) (Some "5,2.5") "#7d3c98"
  else
    NodeStyle "#e8f4fd" "#4a90e2" (Qc_of_Z 2) None "#3a7bc8".

(** What [renderNodes] draws for one node: the translation of its group
    ([node.x - nodeWidth/2], [node.y]), the cursor, the attribute set, the
    glow rectangle of a goal, the badge of a side quest, the status icon and
    the label.  An [undefined] coordinate stays [None]. *)
Record node_view := NodeView {
  nv_left : option float;
  nv_top : option float;
  nv_cursor : cursor;
  nv_style : node_style;
  nv_glow : bool;
  nv_badge : bool;
  nv_icon : option status_icon;
  nv_label : string
}.

Definition drawNode (d : dims) (c : gset string) (n : node) : node_view :=
  let isDone := has c (id n) in
  let unlocked := isUnlocked c n in
  let isLocked := negb isDone && negb unlocked in
  NodeView
    ((λ vx, vx - nodeWidth d / 2)%float <$> x n)
    (y n)
    (if isLocked then NotAllowed else Pointer)
    (nodeStyle isDone isLocked (type n))
    (bool_decide (type n = goal) && unlocked && negb isDone)
    (bool_decide (type n = optional) && negb isDone && negb isLocked)
    (if isDone then Some CheckIcon
     else if isLocked then Some LockIcon else None)
    (label n).

(** [renderNodes(g)]. *)
Definition renderNodes (d : dims) (c : gset string) (nodes : list node)
  : list node_view :=
  drawNode d c <$> nodes.

(** The four attribute sets of [renderEdges]: stroke, arrow marker, dash
    pattern, opacity and stroke width. *)
Record edge_style := EdgeStyle {
  es_color : string;
  es_marker : string;
  es_dash : option string;
  es_opacity : Qc;
  es_strokeWidth : Qc
}.

Definition edgeStyle (bothDone isLocked : bool) (t : node_type) : edge_style :=
  if bothDone then
    EdgeStyle "#27ae60" "arrow-done" None (Q2Qc (7 # 10)) (Q2Qc (11 # 5))
  else if isLocked then
    EdgeStyle "#d0d4d8" "arrow-dim" None (Q2Qc (3 # 10)) (Q2Qc (13 # 10))
  else if decide (t = optional) then
    EdgeStyle "#9b59b6" "arrow-opt" (Some "5,3") (Q2Qc (1 # 2)) (Q2Qc (3 # 2))
  else
    EdgeStyle "#4a90e2" "arrow-req" None (Q2Qc (1 # 2)) (Q2Qc (3 # 2)).

(** A number read from a coordinate field: [undefined] becomes NaN in
    arithmetic. *)
Definition yNum (n : node) : float := default nan (y n).

(** One drawn edge: the value found for the prereq ([None]: a value that
    is not a node object), the dependent node, the attribute set and the
    points of the curve ([x1,y1] the bottom of the prereq's box, [x2,y2]
    the top of the dependent's box, [midY] the height of both control
    points). *)
Record edge_view := EdgeView {
  ev_from : option node;
  ev_to : node;
  ev_style : edge_style;
  ev_x1 : option float;
  ev_y1 : float;
  ev_x2 : option float;
  ev_y2 : option float;
  ev_midY : float
}.

(** The body of the inner [forEach] of [renderEdges] for the value [from]
    found for a prereq of the node [to].  A value that is not a node object
    has no [id], no [prereqs] and no coordinates: it is not completed, it
    counts as unlocked, and its coordinates are [undefined]. *)
Definition drawEdge (d : dims) (c : gset string) (from : option node)
    (to : node) : edge_view :=
  let fromDone := from_option (λ q, has c (id q)) false from in
  let fromUnlocked := from_option (isUnlocked c) true from in
  let bothDone := fromDone && has c (id to) in
  let isLocked :=
    (negb fromDone && negb fromUnlocked)
    || (negb (has c (id to)) && negb (isUnlocked c to)) in
  let y1 := (from_option yNum nan from + nodeHeight d)%float in
  EdgeView from to (edgeStyle bothDone isLocked (type to))
    (from ≫= x) y1 (x to) (y to)
    ((y1 + yNum to) / 2)%float.

(** [node.prereqs.forEach(pid => ...)] for one node: a prereq for which
    [this.nodeMap[pid]] is [undefined] raises on [from.id]. *)
Fixpoint edgesOf (d : dims) (c : gset string) (nodes : list node)
    (nodeMap : gmap string nat) (to : node) (ps : list string)
  : result (list edge_view) :=
  match ps with
  | [] => Ok []
  | pid :: rest =>
      match nodeAt nodes nodeMap pid with
      | IsUndefined => Err TypeError
      | NotANode =>
          evs ← edgesOf d c nodes nodeMap to rest;
          Ok (drawEdge d c None to :: evs)
      | IsNode from =>
          evs ← edgesOf d c nodes nodeMap to rest;
          Ok (drawEdge d c (Some from) to :: evs)
      end
  end.

(** [this.nodes.forEach(node => ...)] of [renderEdges] over the nodes still
    to visit; a node without [prereqs] is skipped. *)
Fixpoint edgesFrom (d : dims) (c : gset string) (nodes : list node)
    (nodeMap : gmap string nat) (todo : list node) : result (list edge_view) :=
  match todo with
  | [] => Ok []
  | n :: rest =>
      evs ← match prereqs n with
            | None => Ok []
            | Some ps => edgesOf d c nodes nodeMap n ps
            end;
      evs' ← edgesFrom d c nodes nodeMap rest;
      Ok (evs ++ evs')
  end.

(** ** Engine facade *)

Record engine := Engine {
  this_nodes : list node;
  this_nodeMap : gmap string nat;
  this_dims : dims;
  this_completed : gset string
}.

(** [renderEdges(g)]. *)
Definition renderEdges (e : engine) : result (list edge_view) :=
  edgesFrom (this_dims e) (this_completed e) (this_nodes e) (this_nodeMap e)
    (this_nodes e).

(** The [mousemove] handler of [bindNodeEvents]: the [left] and [top] it
    gives the tooltip for a pointer at [clientX], [clientY] in a window of
    [innerWidth] by [innerHeight] CSS pixels. *)
Definition tooltipPosition (clientX clientY innerWidth innerHeight : Z)
  : Z * Z :=
  let left := (clientX + 14)%Z in
  let top := (clientY - 20)%Z in
  let left := if decide (innerWidth < left + 210)%Z
              then (clientX - 215)%Z else left in
  let top := if decide (innerHeight < top + 160)%Z
             then (clientY - 170)%Z else top in
  let top := if decide (top < 0)%Z then 5%Z else top in
  (left, top).


(** The constructor, for the node list [data_nodes] (absent: the empty
    list), the layout options [cfg] and a container of [W] by [H] pixels:
    the index, the layers, the empty completion set and the first
    [render()], which lays the nodes out and then draws the edges, which can
    raise, and the nodes. *)
Definition construct (fuel : nat) (W H : Z) (cfg : config)
    (data_nodes : option (list node)) : result engine :=
  let nodes := default [] data_nodes in
  let d := dimsOf cfg in
  let nodeMap := buildNodeMap nodes in
  nodes1 ← computeLayers fuel nodes nodeMap;
  let completed := (∅ : gset string) in
  nodes2 ← render W H d nodeMap nodes1;
  let e := Engine nodes2 nodeMap d completed in
  _ ← renderEdges e;
  let _ := renderNodes d completed nodes2 in
  Ok e.

(** ** The engine with its progress display *)

(** The renderer object together with what its progress elements show:
    whether [progressText] and [progressFill] were found, and the counts and
    width last written to them ([None]: never written). *)
Record view := View {
  v_engine : engine;
  v_progressText : bool;
  v_progressFill : bool;
  v_progress : option (nat * nat * jsnum)
}.

(** [this.updateProgress()] on the view. *)
Definition viewUpdateProgress (v : view) : view :=
  match updateProgress (v_progressText v) (v_progressFill v)
          (this_nodes (v_engine v)) (this_completed (v_engine v)) with
  | Some p => View (v_engine v) (v_progressText v) (v_progressFill v) (Some p)
  | None => v
  end.

(** [this.render()] on the view, for a container of [W] by [H] pixels: the
    layout pass, then the edges (which can raise) and the nodes are drawn. *)
Definition viewRender (W H : Z) (v : view) : result view :=
  let e := v_engine v in
  nodes' ← render W H (this_dims e) (this_nodeMap e) (this_nodes e);
  let e' := Engine nodes' (this_nodeMap e) (this_dims e) (this_completed e) in
  _ ← renderEdges e';
  Ok (View e' (v_progressText v) (v_progressFill v) (v_progress v)).

Definition withCompleted (v : view) (c : gset string) : view :=
  View (Engine (this_nodes (v_engine v)) (this_nodeMap (v_engine v))
          (this_dims (v_engine v)) c)
       (v_progressText v) (v_progressFill v) (v_progress v).

(** The whole of [toggle(node)]: the early return, the change of the
    completion set, then [updateProgress()] and [render()]. *)
Definition viewToggle (fuel : nat) (W H : Z) (v : view) (n : node)
  : result view :=
  let e := v_engine v in
  let c := this_completed e in
  let isDone := has c (id n) in
  let unlocked := isUnlocked c n in
  if negb unlocked && negb isDone then Ok v
  else
    c' ← (if isDone then
            match cascadeRemove fuel (this_nodes e) (id n) c with
            | Some c1 => Ok (c1 ∖ {[id n]})
            | None => Err Diverges
            end
          else Ok ({[id n]} ∪ c));
    viewRender W H (viewUpdateProgress (withCompleted v c')).

(** The whole of [reset()]. *)
Definition viewReset (W H : Z) (v : view) : result view :=
  viewRender W H (viewUpdateProgress (withCompleted v ∅)).


(** ** Predicates of the proofs *)

(** The fields a layout pass never writes. *)
Definition unplaced (n : node) : node :=
  Node (id n) (label n) (type n) (prereqs n) (layer n) None None.

Definition shape (nodes : list node) : list node := unplaced <$> nodes.

(** What the sort of the layout loop reads: a node of a positive layer
    carries a prereqs list, every entry of which is a key of the index that
    refers to a node of the store. *)
Definition sortable (nodeMap : gmap string nat) (nodes : list node) : Prop :=
  ∀ n k, n ∈ nodes → layer n = Some (LNum (S k)) →
    ∃ ps, prereqs n = Some ps
      ∧ ∀ p, p ∈ ps → ∃ r q, nodeMap !! p = Some r ∧ nodes !! r = Some q.

(** What the layout loop relies on: every node has a numeric layer, and a
    node of a positive layer has prereqs, each of which the index resolves
    to a node of a smaller layer. *)
Definition layered (nodeMap : gmap string nat) (nodes : list node) : Prop :=
  ∀ r n, nodes !! r = Some n →
    ∃ ln, layer n = Some (LNum ln)
      ∧ (0 < ln →
         ∃ ps, prereqs n = Some ps ∧ ps ≠ []
           ∧ ∀ p, p ∈ ps →
               ∃ rq q lq, nodeMap !! p = Some rq ∧ nodes !! rq = Some q
                          ∧ layer q = Some (LNum lq) ∧ lq < ln).

(** Two stores of the same graph that hold the same node objects on every
    layer below [L]. *)
Definition agree_below (L : nat) (st st' : list node) : Prop :=
  shape st = shape st'
  ∧ ∀ r n l, st !! r = Some n → layer n = Some (LNum l) → l < L →
      st' !! r = Some n.

(** The mean of a list of numbers, summed from the left. *)
Definition meanX (xs : list float) : float :=
  (foldl PrimFloat.add 0 xs / num_of_nat (length xs))%float.

(** The sort key of the node at [r], as the specification words it: the
    mean [x] of its prereqs, an [x] that is no truthy number counting as
    0. *)
Definition keyOf (nodes : list node) (nodeMap : gmap string nat) (r : nat)
  : option float :=
  n ← nodes !! r;
  xs ← mapM (λ p, match nodeAt nodes nodeMap p with
                  | IsNode q => Some (xOrZero q)
                  | _ => None
                  end) (prereqs_of n);
  Some (meanX xs).

(** Two keys are tied when the comparator puts neither first. *)
Definition tied (ka kb : float) : Prop :=
  goesBefore ka kb = false ∧ goesAfter ka kb = false.

(** The comparator is consistent on a list of keys, as the contract of
    [Array.prototype.sort] wants it: comparing two keys one way or the other
    agrees, and going first and being tied are transitive.  (On keys none of
    which is NaN the difference of binary64 is consistent.) *)
Definition consistent_comparator (ks : list float) : Prop :=
  (∀ a b, a ∈ ks → b ∈ ks → goesAfter a b = goesBefore b a)
  ∧ (∀ a b c, a ∈ ks → b ∈ ks → c ∈ ks →
       goesBefore a b = true → goesBefore b c = true → goesBefore a c = true)
  ∧ (∀ a b c, a ∈ ks → b ∈ ks → c ∈ ks → tied a b → tied b c → tied a c).

Definition consistent_comparator_b (ks : list float) : bool :=
  forallb (λ a, forallb (λ b,
    bool_decide (goesAfter a b = goesBefore b a)
    && forallb (λ c,
         implb (goesBefore a b && goesBefore b c) (goesBefore a c)
         && implb (negb (goesBefore a b) && negb (goesAfter a b)
                   && negb (goesBefore b c) && negb (goesAfter b c))
                  (negb (goesBefore a c) && negb (goesAfter a c))) ks) ks) ks.

(** The order of the comparator on keyed references: by key, ties by
    position in the input. *)
Definition keyOrder (a b : float * nat) : Prop :=
  goesBefore a.1 b.1 = true ∨ (tied a.1 b.1 ∧ a.2 < b.2).

(** A group is ordered by key when, of any two positions, the earlier one
    holds the key that goes first or, on tied keys, the earlier node of the
    input. *)
Definition ordered_by_key (nodes : list node) (nodeMap : gmap string nat)
    (order : list nat) : Prop :=
  ∀ a b ra rb, a < b → order !! a = Some ra → order !! b = Some rb →
    ∃ ka kb,
      keyOf nodes nodeMap ra = Some ka ∧ keyOf nodes nodeMap rb = Some kb
      ∧ keyOrder (ka, ra) (kb, rb).

(** The [x] of position [k] in a group of [count] nodes that is centred in
    a viewport of width [W]: with
    totalWidth = count·nodeWidth + (count−1)·nodeGap, the first node is at
    (W − totalWidth)/2 + nodeWidth/2 and position [k] is k·(nodeWidth +
    nodeGap) further, all in binary64. *)
Definition centredX (W : Z) (d : dims) (count k : nat) : float :=
  (((num_of_Z W
     - (num_of_nat count * nodeWidth d + (num_of_nat count - 1) * nodeGap d))
    / 2
    + nodeWidth d / 2)
   + num_of_nat k * (nodeWidth d + nodeGap d))%float.

(** The layout of a store: on every layer the nodes stand, centred, in an
    order that is the input order on layer 0 and, on the layers below, the
    order by key whenever the comparator is consistent on the keys of the
    layer. *)
Definition laid_out (W : Z) (d : dims) (nodeMap : gmap string nat)
    (out : list node) : Prop :=
  ∀ m L, maxLayer out = Some m → L ≤ m →
    ∃ order,
      order ≡ₚ groupFrom 0 out L
      ∧ (L = 0 → order = groupFrom 0 out L)
      ∧ (0 < L →
         ∃ ks, mapM (keyOf out nodeMap) (groupFrom 0 out L) = Some ks
               ∧ (consistent_comparator ks → ordered_by_key out nodeMap order))
      ∧ ∀ k r, order !! k = Some r →
          ∃ n, out !! r = Some n
               ∧ x n = Some (centredX W d (length order) k).

(** A prereq entry that names no node of the sequence. *)
Definition dangling (nodes : list node) : Prop :=
  ∃ n p, n ∈ nodes ∧ p ∈ prereqs_of n ∧ ∀ m, m ∈ nodes → id m ≠ p.

(** Graphs used in the examples: a single root; two nodes that share an
    id; a node with a prereq that names no node; and three roots with two
    dependents listed against the order of the mean [x] of their
    prereqs. *)
Definition singleRoot : list node := [ mk "g" goal (Some []) ].

Definition twins : list node :=
  [ mk "a" required (Some []); mk "a" optional (Some []) ].

Definition orphan : list node := [ mk "b" required (Some ["nope"]) ].

Definition crossed : list node :=
  [ mk "p" required (Some []); mk "q" required (Some []);
    mk "r" required (Some []);
    mk "v" required (Some ["r"]); mk "u" required (Some ["p"; "q"]) ].

Definition crossed_rank (i : string) : nat :=
  if decide (i = "p") then 0 else if decide (i = "q") then 0
  else if decide (i = "r") then 0 else 1.

Definition noConfig : config := Config None None None None.

(** A chain of [k] prereq edges that ends at the id [i]. *)
Inductive chain_to (nodes : list node) : string → nat → Prop :=
  | chain_start i : chain_to nodes i 0
  | chain_step n p k :
      n ∈ nodes → p ∈ prereqs_of n → chain_to nodes p k →
      chain_to nodes (id n) (S k).

(** A graph in which every node is a side quest or a goal, and a diamond:
    d requires b and c, which both require a. *)
Definition diamond : list node :=
  [ mk "a" required (Some []); mk "b" optional (Some ["a"]);
    mk "c" required (Some ["a"]); mk "d" goal (Some ["b"; "c"]) ].

(** The node b of the scenario graph. *)
Definition nodeB' : node := mk "b" required (Some ["a"]).

Definition diamond_rank (i : string) : nat :=
  if decide (i = "a") then 0 else if decide (i = "d") then 2 else 1.

(** A store holds the graph of the input when its nodes carry, position by
    position, the ids, prereqs and types of the input nodes. *)
Definition same_graph (nodes st : list node) : Prop :=
  Forall2 (λ n n', id n' = id n ∧ prereqs n' = prereqs n ∧ type n' = type n)
    nodes st.


(** * Proofs *)

(** ** Cascading revocation *)

Section cascade.
Variable nodes : list node.

Lemma revokes_spec c i n :
  revokes c i n = true ↔ i ∈ prereqs_of n ∧ id n ∈ c.
Proof.
  unfold revokes, prereqs_of, includes, has.
  destruct (prereqs n) as [ps|]; simpl.
  - rewrite andb_true_iff, !bool_decide_eq_true. tauto.
  - split; [done|]. intros [H _]. by apply elem_of_nil in H.
Qed.

Lemma downstream_in_mono c c' r i :
  c ⊆ c' → downstream_in nodes c r i → downstream_in nodes c' r i.
Proof.
  intros Hsub. induction 1.
  - apply downstream_in_step; set_solver.
  - eapply downstream_in_next; eauto.
Qed.

Lemma downstream_in_elem c r i : downstream_in nodes c r i → i ∈ c.
Proof. induction 1; auto. Qed.

Lemma downstream_in_downstream c r i :
  downstream_in nodes c r i → downstream nodes r i.
Proof.
  intros H. induction H as [r i Hd Hi | r i j Hd Hi Hrest IH].
  - by apply downstream_step.
  - clear Hrest. induction IH as [k Hk | k l Hkl IH' Hl].
    + eapply downstream_next; [by apply downstream_step | done].
    + eapply downstream_next; [apply IH' | done].
Qed.

Lemma cascade_loop fuel c0 r :
  (∀ i c, size c < fuel →
     ∃ c', cascadeRemove fuel nodes i c = Some c' ∧ cascade_post nodes c i c') →
  ∀ todo visited c,
    todo `suffix_of` nodes →
    size c0 ≤ fuel →
    cascade_loop_inv nodes c0 r visited c →
    ∃ c',
      forEachM
        (λ c n,
           if revokes c r n
           then cascadeRemove fuel nodes (id n) (c ∖ {[id n]})
           else Some c) todo c = Some c'
      ∧ cascade_loop_inv nodes c0 r (visited ++ todo) c'.
Proof.
  intros IH todo. induction todo as [|n todo IHl]; intros visited c Hsuf Hsz Hinv.
  - simpl. exists c. by rewrite app_nil_r.
  - simpl.
    assert (Hn : n ∈ nodes).
    { destruct Hsuf as [k ->]. set_solver. }
    assert (Hsuf' : todo `suffix_of` nodes).
    { destruct Hsuf as [k ->]. exists (k ++ [n]). by rewrite <- app_assoc. }
    destruct Hinv as (Hsub & Hsound & Hvis & Hclosed).
    destruct (revokes c r n) eqn:Hrev.
    + apply revokes_spec in Hrev as [Hr Hin].
      assert (Hlt : size (c ∖ {[id n]}) < fuel).
      { assert (size c ≤ size c0) by by apply subseteq_size.
        assert (size c = size ({[id n]} : gset string) + size (c ∖ {[id n]})).
        { rewrite <- size_union by set_solver.
          f_equal. apply set_eq. intros k.
          destruct (decide (k = id n)); set_solver. }
        rewrite size_singleton in *. lia. }
      destruct (IH (id n) _ Hlt) as (c2 & -> & Hsub2 & Hsound2 & Hclosed2).
      assert (Hstep : downstream_in nodes c0 r (id n)).
      { apply downstream_in_step; [by exists n | set_solver]. }
      replace (visited ++ n :: todo) with ((visited ++ [n]) ++ todo)
        by by rewrite <- app_assoc.
      apply IHl; [done | done |].
      split; [set_solver|]. split; [|split].
      * intros i Hi0 Hi2.
        destruct (decide (i ∈ c)) as [Hic|Hic]; [|by apply Hsound].
        destruct (decide (i = id n)) as [->|Hne]; [done|].
        assert (Hd : downstream_in nodes (c ∖ {[id n]}) (id n) i).
        { apply Hsound2; [set_solver | done]. }
        clear -Hd Hstep Hsub Hr Hn Hin.
        assert (Hd0 : downstream_in nodes c0 (id n) i).
        { eapply downstream_in_mono; [|done]. set_solver. }
        eapply downstream_in_next; [by exists n | set_solver | done].
      * intros m Hm Hrm. apply elem_of_app in Hm as [Hm|Hm].
        -- specialize (Hvis m Hm Hrm). set_solver.
        -- apply list_elem_of_singleton in Hm as ->. set_solver.
      * intros m p Hm Hp Hp0 Hp2.
        destruct (decide (p ∈ c)) as [Hpc|Hpc].
        -- apply (Hclosed2 m p Hm Hp).
           destruct (decide (p = id n)) as [->|Hne]; [by left|].
           right. set_solver.
        -- specialize (Hclosed m p Hm Hp Hp0 Hpc). set_solver.
    + replace (visited ++ n :: todo) with ((visited ++ [n]) ++ todo)
        by by rewrite <- app_assoc.
      apply IHl; [done | done |].
      split; [done|]. split; [done|]. split; [|done].
      intros m Hm Hrm. apply elem_of_app in Hm as [Hm|Hm]; [by apply Hvis|].
      apply list_elem_of_singleton in Hm as ->.
      intros Hin. assert (revokes c r n = true) by by apply revokes_spec.
      congruence.
Qed.

(** More fuel does not change the result of a cascade that returned. *)
Lemma forEachM_ext {A S : Type} (f g : S → A → option S) l s s' :
  (∀ t a t', f t a = Some t' → g t a = Some t') →
  forEachM f l s = Some s' → forEachM g l s = Some s'.
Proof.
  intros Hfg. revert s. induction l as [|a l IH]; intros s; simpl; [done|].
  destruct (f s a) as [t|] eqn:Hf; [|done].
  rewrite (Hfg _ _ _ Hf). apply IH.
Qed.

Lemma cascadeRemove_fuel_mono fuel fuel' i c c' :
  cascadeRemove fuel nodes i c = Some c' → fuel ≤ fuel' →
  cascadeRemove fuel' nodes i c = Some c'.
Proof.
  revert fuel' i c c'. induction fuel as [|fuel IH]; intros fuel' i c c'; [done|].
  intros Hrun Hle. destruct fuel' as [|fuel']; [lia|].
  simpl in *. eapply forEachM_ext; [|exact Hrun].
  intros t a t' Hstep. simpl in Hstep.
  destruct (revokes t i a); [|done]. apply IH; [done | lia].
Qed.

(** With more fuel than completed ids, a cascade returns. *)
Lemma cascadeRemove_post fuel :
  ∀ i c, size c < fuel →
    ∃ c', cascadeRemove fuel nodes i c = Some c' ∧ cascade_post nodes c i c'.
Proof.
  induction fuel as [|fuel IH]; intros i c Hsz; [lia|].
  simpl.
  destruct (cascade_loop fuel c i) with (todo := nodes) (visited := @nil node) (c := c)
    as (c' & Hrun & Hsub & Hsound & Hvis & Hclosed).
  - intros j d Hd. by apply IH.
  - done.
  - lia.
  - split; [done|]. split; [by intros ? ? ?|]. split; [|by intros ? ? ? ? ? ?].
    intros n Hn. by apply elem_of_nil in Hn.
  - exists c'. split; [done|]. split; [done|]. split; [done|].
    intros n p Hn Hp [->|[Hp0 Hp']].
    + by apply Hvis.
    + by eapply Hclosed.
Qed.

(** A cascade removes exactly what is downstream along completed nodes. *)
Lemma cascadeRemove_spec fuel i c :
  size c < fuel →
  ∃ c', cascadeRemove fuel nodes i c = Some c'
        ∧ ∀ j, j ∈ c' ↔ j ∈ c ∧ ¬ downstream_in nodes c i j.
Proof.
  intros Hsz.
  destruct (cascadeRemove_post fuel i c Hsz) as (c' & Hrun & Hsub & Hsound & Hclosed).
  exists c'. split; [done|]. intros j. split.
  - intros Hj. split; [set_solver|].
    intros Hd. revert Hj.
    assert (Hgen : ∀ r, (r = i ∨ (r ∈ c ∧ r ∉ c')) →
              downstream_in nodes c r j → j ∉ c').
    { clear Hd. intros r Hr Hd. induction Hd as [r k (n & Hn & <- & Hp) Hk
                                   | r k l (n & Hn & <- & Hp) Hk Hrest IHd].
      - by eapply Hclosed.
      - apply IHd. right. split; [done|]. by eapply Hclosed. }
    apply (Hgen i); [by left | done].
  - intros [Hj Hnd]. destruct (decide (j ∈ c')) as [|Hn]; [done|].
    destruct Hnd. by apply Hsound.
Qed.

(** Under the completion invariant, a completed id that is downstream of
    [r] is reached along completed ids. *)
Lemma downstream_completed c r i :
  completion_inv nodes c →
  downstream nodes r i → i ∈ c → downstream_in nodes c r i.
Proof.
  intros Hinv Hd. induction Hd as [i Hd | i j Hri IH (n & Hn & <- & Hp)]; intros Hi.
  - by apply downstream_in_step.
  - assert (Hic : i ∈ c) by by eapply Hinv.
    specialize (IH Hic). clear Hri.
    induction IH as [r k Hrk Hk | r k l Hrk Hk Hrest IH'].
    + eapply downstream_in_next; [done | done |].
      apply downstream_in_step; [by exists n | done].
    + eapply downstream_in_next; [done | done |]. by apply IH'.
Qed.

(** Whatever the fuel, a cascade that returns, followed by the removal of
    its root, leaves the invariant in place. *)
Lemma cascadeRemove_any_post fuel :
  ∀ i c c', cascadeRemove fuel nodes i c = Some c' → cascade_post nodes c i c'.
Proof.
  intros i c c' Hrun.
  destruct (cascadeRemove_post (fuel + S (size c)) i c) as (c2 & Hrun2 & Hpost);
    [lia|].
  by rewrite (cascadeRemove_fuel_mono _ _ _ _ _ Hrun) in Hrun2; [injection Hrun2 as <-|lia].
Qed.

Lemma cascade_result_inv fuel c r c' :
  completion_inv nodes c → r ∈ c →
  cascadeRemove fuel nodes r c = Some c' →
  completion_inv nodes (c' ∖ {[r]}).
Proof.
  intros Hinv Hr Hrun n Hn Hid p Hp.
  destruct (cascadeRemove_any_post _ _ _ _ Hrun) as (Hsub & Hsound & Hclosed).
  apply elem_of_difference in Hid as [Hid Hne].
  assert (Hpc : p ∈ c) by (eapply Hinv; [done | set_solver | done]).
  apply elem_of_difference. split.
  - destruct (decide (p ∈ c')) as [|Hp']; [done|].
    destruct (Hclosed n p Hn Hp); [by right | done].
  - intros Hpr%elem_of_singleton. subst p.
    destruct (Hclosed n r Hn Hp); [by left | done].
Qed.

End cascade.

(** A toggle of a completed node, read along completed ids. *)
Lemma toggle_done nodes c n fuel :
  id n ∈ c → size c < fuel →
  ∃ c', toggle fuel nodes c n = Some c'
        ∧ ∀ j, j ∈ c' ↔ j ∈ c ∧ j ≠ id n ∧ ¬ downstream_in nodes c (id n) j.
Proof.
  intros Hdone Hsz. unfold toggle, has.
  rewrite (bool_decide_eq_true_2 _ Hdone), andb_false_r.
  destruct (cascadeRemove_spec nodes fuel (id n) c Hsz) as (c1 & -> & Hc1).
  simpl. eexists. split; [done|].
  intros j. rewrite elem_of_difference, Hc1, not_elem_of_singleton. tauto.
Qed.


Lemma completion_inv_b_true nodes c :
  completion_inv_b nodes c = true → completion_inv nodes c.
Proof.
  unfold completion_inv_b, completion_inv, has.
  rewrite forallb_forall. intros H n Hn Hid p Hp.
  apply list_elem_of_In in Hn. specialize (H n Hn).
  rewrite (bool_decide_eq_true_2 _ Hid) in H. simpl in H.
  rewrite forallb_forall in H. apply list_elem_of_In in Hp.
  specialize (H p Hp). by apply bool_decide_eq_true in H.
Qed.

Lemma isUnlocked_spec c n :
  isUnlocked c n = true ↔ ∀ p, p ∈ prereqs_of n → p ∈ c.
Proof.
  unfold isUnlocked, prereqs_of, has. destruct (prereqs n) as [ps|]; simpl.
  - case_bool_decide as Hlen.
    + destruct ps; [|done]. split; [|done]. intros _ p Hp.
      by apply elem_of_nil in Hp.
    + rewrite forallb_forall. split.
      * intros H p Hp. apply list_elem_of_In in Hp.
        specialize (H p Hp). by apply bool_decide_eq_true in H.
      * intros H p Hp. apply bool_decide_eq_true, H. by apply list_elem_of_In.
  - split; [|done]. intros _ p Hp. by apply elem_of_nil in Hp.
Qed.

(** A rank that grows along every prereq edge rules out cycles. *)
Lemma ranked_acyclic nodes (rank : string → nat) :
  (∀ n p, n ∈ nodes → p ∈ prereqs_of n → rank p < rank (id n)) →
  acyclic nodes.
Proof.
  intros Hrank.
  assert (Hlt : ∀ i j, downstream nodes i j → rank i < rank j).
  { intros i j Hd. induction Hd as [j (n & Hn & <- & Hp) | j k _ IH (n & Hn & <- & Hp)].
    - by apply Hrank.
    - specialize (Hrank n j Hn Hp). lia. }
  intros i Hi. specialize (Hlt i i Hi). lia.
Qed.

(** A toggle always returns when the fuel exceeds the number of completed
    ids. *)
Lemma toggle_total nodes c n fuel :
  size c < fuel → is_Some (toggle fuel nodes c n).
Proof.
  intros Hsz. unfold toggle.
  destruct (negb (isUnlocked c n) && negb (has c (id n))); [done|].
  destruct (has c (id n)); [|done].
  destruct (cascadeRemove_spec nodes fuel (id n) c Hsz) as (c1 & -> & _).
  done.
Qed.

(** Toggling a node of a graph with unique ids keeps the invariant. *)
Lemma toggle_preserves_inv nodes c n fuel c' :
  unique_ids nodes → n ∈ nodes → completion_inv nodes c →
  toggle fuel nodes c n = Some c' → completion_inv nodes c'.
Proof.
  intros Huniq Hn Hinv Htog. unfold toggle in Htog.
  destruct (isUnlocked c n) eqn:Hunl; destruct (has c (id n)) eqn:Hdone;
    simpl in Htog; unfold has in Hdone.
  - apply bool_decide_eq_true in Hdone.
    destruct (cascadeRemove fuel nodes (id n) c) as [c1|] eqn:Hrun; [|done].
    simpl in Htog. injection Htog as <-.
    by eapply (cascade_result_inv nodes).
  - injection Htog as <-. apply bool_decide_eq_false in Hdone.
    intros m Hm Hid p Hp.
    apply elem_of_union in Hid as [Hid|Hid].
    + apply elem_of_singleton in Hid.
      assert (m = n) as ->.
      { apply list_elem_of_lookup in Hm as [a Ha], Hn as [b Hb].
        assert (a = b) as ->; [|congruence].
        eapply NoDup_lookup; [exact Huniq| |];
          rewrite list_lookup_fmap; [by rewrite Ha | by rewrite Hb, Hid]. }
      apply elem_of_union. right.
      by apply (proj1 (isUnlocked_spec c n) Hunl).
    + apply elem_of_union. right. by eapply Hinv.
  - apply bool_decide_eq_true in Hdone.
    destruct (cascadeRemove fuel nodes (id n) c) as [c1|] eqn:Hrun; [|done].
    simpl in Htog. injection Htog as <-.
    by eapply (cascade_result_inv nodes).
  - by injection Htog as <-.
Qed.

Lemma reachable_inv nodes c :
  unique_ids nodes → reachable nodes c → completion_inv nodes c.
Proof.
  intros Huniq Hreach. induction Hreach as [|c n fuel c' _ IH Hn Htog|c _ _].
  - intros n _ Hid. by apply not_elem_of_empty in Hid.
  - by eapply toggle_preserves_inv.
  - intros n _ Hid. by apply not_elem_of_empty in Hid.
Qed.

Lemma chainABC_well_formed : well_formed chainABC.
Proof.
  split.
  - unfold unique_ids. simpl. repeat constructor; set_solver.
  - intros n p Hn Hp. unfold chainABC in *.
    repeat (apply elem_of_cons in Hn as [->|Hn]); simpl in Hp;
      try (by apply elem_of_nil in Hn); try (by apply elem_of_nil in Hp);
      apply list_elem_of_singleton in Hp as ->.
    + exists (mk "A" required (Some [])). split; [set_solver | done].
    + exists (mk "B" required (Some ["A"])). split; [set_solver | done].
Qed.

Lemma chainABC_acyclic : acyclic chainABC.
Proof.
  apply (ranked_acyclic _ chain_rank).
  intros n p Hn Hp. unfold chainABC in *.
  repeat (apply elem_of_cons in Hn as [->|Hn]); simpl in Hp;
    try (by apply elem_of_nil in Hn); try (by apply elem_of_nil in Hp);
    apply list_elem_of_singleton in Hp as ->; vm_compute; lia.
Qed.

(** ** Claims on the completion state *)

(** C1. For every graph and every completion set satisfying the completion
    invariant, toggling a completed node returns (given more fuel than
    completed ids) and removes that node's id together with exactly the
    completed ids of its downstream closure along reversed prereq edges.  In
    the chain A→B→C with all three completed, toggling A leaves the set
    empty and toggling B leaves exactly A. *)
Theorem toggle_revokes_downstream_closure :
  (∀ nodes c n fuel,
     completion_inv nodes c → id n ∈ c → size c < fuel →
     ∃ c', toggle fuel nodes c n = Some c'
           ∧ ∀ j, j ∈ c' ↔ j ∈ c ∧ j ≠ id n ∧ ¬ downstream nodes (id n) j)
  ∧ toggle 4 chainABC {["A"; "B"; "C"]} nodeA = Some ∅
  ∧ toggle 4 chainABC {["A"; "B"; "C"]} nodeB = Some {["A"]}.
Proof.
  split; [|split; vm_compute; reflexivity].
  intros nodes c n fuel Hinv Hdone Hsz.
  destruct (toggle_done nodes c n fuel Hdone Hsz) as (c' & Hrun & Hc').
  exists c'. split; [done|]. intros j. rewrite Hc'. split.
  - intros (Hj & Hne & Hnd). split; [done|]. split; [done|].
    intros Hd. apply Hnd. by apply downstream_completed.
  - intros (Hj & Hne & Hnd). split; [done|]. split; [done|].
    intros Hd. apply Hnd. by eapply downstream_in_downstream.
Qed.

Lemma toggle_revokes_downstream_closure_witness :
  ∃ c', toggle 4 chainABC {["A"; "B"; "C"]} nodeB = Some c'
        ∧ ∀ j, j ∈ c' ↔ j ∈ ({["A"; "B"; "C"]} : gset string) ∧ j ≠ id nodeB
                         ∧ ¬ downstream chainABC (id nodeB) j.
Proof.
  apply (proj1 toggle_revokes_downstream_closure).
  - apply completion_inv_b_true. vm_compute. reflexivity.
  - vm_compute. reflexivity.
  - vm_compute. lia.
Defined.

(** C2. In a well-formed acyclic graph the completion invariant holds of the
    empty initial set, every toggle of a node of the graph returns a set that
    satisfies it again, a toggle adds an id only when the node is unlocked
    (all its prereqs completed), a reset re-establishes it, and so every
    completion set the engine can reach satisfies it. *)
Theorem completion_invariant_preserved nodes :
  well_formed nodes → acyclic nodes →
  completion_inv nodes ∅
  ∧ (∀ c n fuel, n ∈ nodes → completion_inv nodes c → size c < fuel →
       ∃ c', toggle fuel nodes c n = Some c' ∧ completion_inv nodes c')
  ∧ (∀ c n fuel c', toggle fuel nodes c n = Some c' →
       ∀ i, i ∈ c' → i ∉ c →
         i = id n ∧ isUnlocked c n = true ∧ ∀ p, p ∈ prereqs_of n → p ∈ c)
  ∧ (∀ c, completion_inv nodes (reset c))
  ∧ (∀ c, reachable nodes c → completion_inv nodes c).
Proof.
  intros [Huniq _] _.
  assert (Hempty : completion_inv nodes ∅).
  { intros n _ Hid. by apply not_elem_of_empty in Hid. }
  split; [done|]. split; [|split; [|split]].
  - intros c n fuel Hn Hinv Hsz.
    destruct (toggle_total nodes c n fuel Hsz) as [c' Hrun].
    exists c'. split; [done|]. by eapply toggle_preserves_inv.
  - intros c n fuel c' Htog i Hi' Hi. unfold toggle in Htog.
    destruct (isUnlocked c n) eqn:Hunl; destruct (has c (id n)) eqn:Hdone;
      simpl in Htog.
    + destruct (cascadeRemove fuel nodes (id n) c) as [c1|] eqn:Hrun; [|done].
      simpl in Htog. injection Htog as <-.
      destruct (cascadeRemove_any_post _ _ _ _ _ Hrun) as (Hsub & _). set_solver.
    + injection Htog as <-.
      apply elem_of_union in Hi' as [->%elem_of_singleton|]; [|done].
      split; [done|]. split; [done|]. by apply isUnlocked_spec.
    + destruct (cascadeRemove fuel nodes (id n) c) as [c1|] eqn:Hrun; [|done].
      simpl in Htog. injection Htog as <-.
      destruct (cascadeRemove_any_post _ _ _ _ _ Hrun) as (Hsub & _). set_solver.
    + by injection Htog as <-.
  - done.
  - intros c. by apply reachable_inv.
Qed.

Lemma completion_invariant_preserved_witness :
  completion_inv chainABC ∅
  ∧ (∀ c n fuel, n ∈ chainABC → completion_inv chainABC c → size c < fuel →
       ∃ c', toggle fuel chainABC c n = Some c' ∧ completion_inv chainABC c')
  ∧ (∀ c n fuel c', toggle fuel chainABC c n = Some c' →
       ∀ i, i ∈ c' → i ∉ c →
         i = id n ∧ isUnlocked c n = true ∧ ∀ p, p ∈ prereqs_of n → p ∈ c)
  ∧ (∀ c, completion_inv chainABC (reset c))
  ∧ (∀ c, reachable chainABC c → completion_inv chainABC c).
Proof.
  apply (completion_invariant_preserved chainABC).
  - exact chainABC_well_formed.
  - exact chainABC_acyclic.
Defined.

(** C10. For every graph and every completion set satisfying the completion
    invariant, toggling a node that is unlocked and not completed and then
    toggling it again gives back the completion set the first toggle
    started from. *)
Theorem toggle_twice_restores nodes c n fuel1 fuel2 :
  completion_inv nodes c → isUnlocked c n = true → id n ∉ c →
  S (size c) < fuel2 →
  ∃ c1, toggle fuel1 nodes c n = Some c1
        ∧ id n ∈ c1
        ∧ toggle fuel2 nodes c1 n = Some c.
Proof.
  intros Hinv Hunl Hnot Hsz.
  assert (Hfirst : toggle fuel1 nodes c n = Some ({[id n]} ∪ c)).
  { unfold toggle, has. rewrite Hunl, (bool_decide_eq_false_2 _ Hnot). done. }
  exists ({[id n]} ∪ c). split; [done|]. split; [set_solver|].
  destruct (toggle_done nodes ({[id n]} ∪ c) n fuel2) as (c2 & -> & Hc2).
  { set_solver. }
  { rewrite size_union, size_singleton by set_solver. lia. }
  f_equal. apply set_eq. intros j. rewrite Hc2. split.
  - intros (Hj & Hne & _). set_solver.
  - intros Hj. split; [set_solver|]. split; [set_solver|].
    intros Hd.
    assert (Hall : ∀ r k, downstream_in nodes ({[id n]} ∪ c) r k →
                     r = id n → k = id n).
    { clear -Hinv Hnot. intros r k Hd.
      induction Hd as [r k (m & Hm & <- & Hp) Hk | r k l (m & Hm & <- & Hp) Hk _ IH];
        intros ->.
      - apply elem_of_union in Hk as [Hk|Hk]; [set_solver|].
        destruct Hnot. by eapply Hinv.
      - apply IH. apply elem_of_union in Hk as [Hk|Hk]; [set_solver|].
        destruct Hnot. by eapply Hinv. }
    specialize (Hall _ _ Hd eq_refl). set_solver.
Qed.

Lemma toggle_twice_restores_witness :
  ∃ c1, toggle 0 chainABC {["A"]} nodeB = Some c1
        ∧ id nodeB ∈ c1
        ∧ toggle 3 chainABC c1 nodeB = Some {["A"]}.
Proof.
  apply (toggle_twice_restores chainABC {["A"]} nodeB 0 3).
  - apply completion_inv_b_true. vm_compute. reflexivity.
  - vm_compute. reflexivity.
  - vm_compute. intros H. discriminate H.
  - vm_compute. lia.
Defined.

(** ** The id index *)

Lemma indexNodes_lookup start l m i r :
  indexNodes start l m !! i = Some r ↔
    (∃ k n, l !! k = Some n ∧ id n = i ∧ r = start + k
            ∧ ∀ k' n', k < k' → l !! k' = Some n' → id n' ≠ i)
    ∨ (m !! i = Some r ∧ ∀ n, n ∈ l → id n ≠ i).
Proof.
  revert start m. induction l as [|a l IH]; intros start m; simpl.
  - split.
    + intros H. right. split; [done|]. intros n Hn. by apply elem_of_nil in Hn.
    + intros [(k & n & Hk & _)|[H _]]; [done | done].
  - rewrite IH. split.
    + intros [(k & n & Hk & Hid & -> & Hlast)|[Hm Hnot]].
      * left. exists (S k), n. split; [done|]. split; [done|]. split; [lia|].
        intros [|k'] n' Hlt Hk'; [lia|]. simpl in Hk'. eapply Hlast; [|done]. lia.
      * destruct (decide (id a = i)) as [Ha|Ha].
        -- rewrite Ha, lookup_insert_eq in Hm. injection Hm as <-.
           left. exists 0, a. split; [done|]. split; [done|]. split; [lia|].
           intros [|k'] n' Hlt Hk'; [lia|]. simpl in Hk'.
           apply Hnot. eapply list_elem_of_lookup_2. done.
        -- rewrite lookup_insert_ne in Hm by done. right. split; [done|].
           intros n [->|Hn]%elem_of_cons; [done | by apply Hnot].
    + intros [(k & n & Hk & Hid & -> & Hlast)|[Hm Hnot]].
      * destruct k as [|k]; simpl in Hk.
        -- injection Hk as ->. right. split.
           ++ rewrite Hid, lookup_insert_eq. f_equal. lia.
           ++ intros n' Hn'. apply list_elem_of_lookup in Hn' as [k' Hk'].
              apply (Hlast (S k') n'); [lia | done].
        -- left. exists k, n. split; [done|]. split; [done|]. split; [lia|].
           intros k' n' Hlt Hk'. apply (Hlast (S k') n'); [lia | done].
      * right. split.
        -- rewrite lookup_insert_ne; [done|]. apply Hnot. by left.
        -- intros n Hn. apply Hnot. by right.
Qed.

(** A node is found exactly under a key the index owns. *)
Lemma nodeAt_IsNode st nodeMap k n :
  nodeAt st nodeMap k = IsNode n ↔
    ∃ r, nodeMap !! k = Some r ∧ st !! r = Some n.
Proof.
  unfold nodeAt. split.
  - destruct (nodeMap !! k) as [r|] eqn:Hr; simpl.
    + destruct (st !! r) as [m|] eqn:Hm.
      * intros [= ->]. by exists r.
      * intros H. exfalso.
        destruct (nodeMap !! "__proto__" ≫= (st !!.)) as [q|];
          [|unfold objectProto in H; by destruct (inherited k)].
        unfold viaNode, fieldValue, objectProto in H.
        repeat (case_bool_decide || case_decide || case_match); done.
    + intros H. exfalso.
      destruct (nodeMap !! "__proto__" ≫= (st !!.)) as [q|];
        [|unfold objectProto in H; by destruct (inherited k)].
      unfold viaNode, fieldValue, objectProto in H.
      repeat (case_bool_decide || case_decide || case_match); done.
  - intros (r & -> & Hr). simpl. by rewrite Hr.
Qed.

(** A key the index does not own, in an index without prototype node, is
    read from [Object.prototype]. *)
Lemma nodeAt_unindexed st nodeMap k :
  nodeMap !! k = None → nodeMap !! "__proto__" = None →
  nodeAt st nodeMap k = objectProto k.
Proof. unfold nodeAt. by intros -> ->. Qed.

Lemma buildNodeMap_indexed nodes : indexed (buildNodeMap nodes) nodes.
Proof.
  intros i r Hr. unfold buildNodeMap in Hr.
  apply indexNodes_lookup in Hr as [(k & m & Hk & Hid & -> & _)|[Hm _]]; [|done].
  by exists m.
Qed.

Lemma buildNodeMap_None nodes k :
  buildNodeMap nodes !! k = None ↔ ∀ n, n ∈ nodes → id n ≠ k.
Proof.
  unfold buildNodeMap. split.
  - intros Hnone n Hn Hid.
    assert (Hex : ∃ j m, nodes !! j = Some m ∧ id m = k).
    { apply list_elem_of_lookup in Hn as [j Hj]. by exists j, n. }
    clear n Hn Hid.
    assert (Hlast : ∃ j m, nodes !! j = Some m ∧ id m = k
              ∧ ∀ j' n', j < j' → nodes !! j' = Some n' → id n' ≠ k).
    { induction nodes as [|a l IH] using rev_ind.
      - destruct Hex as (j & m & Hj & _). done.
      - destruct (decide (id a = k)) as [Ha|Ha].
        + exists (length l), a. split; [by apply list_lookup_middle|].
          split; [done|]. intros j' n' Hlt Hj'.
          apply lookup_lt_Some in Hj'. rewrite length_app in Hj'. simpl in Hj'. lia.
        + destruct IH as (j & m & Hj & Hid & Hl).
          { destruct (indexNodes 0 l ∅ !! k) as [r|] eqn:Hr; [|done].
            exfalso. apply indexNodes_lookup in Hr as [(j & m & Hj & Hid & -> & Hl)|[? _]];
              [|done].
            assert (Hsome : indexNodes 0 (l ++ [a]) ∅ !! k = Some (0 + j));
              [|congruence].
            apply indexNodes_lookup. left. exists j, m.
            split; [by apply lookup_app_l_Some|]. split; [done|]. split; [done|].
            intros j' n' Hlt Hj'.
            apply lookup_app_Some in Hj' as [Hj'|[Hge Hj']]; [by eapply Hl|].
            apply list_lookup_singleton_Some in Hj' as [_ ->]. done. }
          { destruct Hex as (j & m & Hj & Hid).
            apply lookup_app_Some in Hj as [Hj|[Hge Hj]]; [by exists j, m|].
            apply list_lookup_singleton_Some in Hj as [_ ->]. done. }
          exists j, m. split; [by apply lookup_app_l_Some|]. split; [done|].
          intros j' n' Hlt Hj'.
          apply lookup_app_Some in Hj' as [Hj'|[Hge Hj']]; [by eapply Hl|].
          apply list_lookup_singleton_Some in Hj' as [_ ->]. done. }
    destruct Hlast as (j & m & Hj & Hid & Hl).
    assert (Hsome : indexNodes 0 nodes ∅ !! k = Some (0 + j)); [|congruence].
    apply indexNodes_lookup. left. by exists j, m.
  - intros Hnot. destruct (indexNodes 0 nodes ∅ !! k) as [r|] eqn:Hr; [|done].
    apply indexNodes_lookup in Hr as [(j & m & Hj & Hid & _)|[? _]]; [|done].
    destruct (Hnot m); [by eapply list_elem_of_lookup_2 | done].
Qed.

(** The index refers to a node of the store that carries the id asked
    for. *)
Lemma nodeAt_sound st nodeMap i n :
  indexed nodeMap st → nodeAt st nodeMap i = IsNode n → n ∈ st ∧ id n = i.
Proof.
  intros Hidx (r & Hr & Hn)%nodeAt_IsNode.
  destruct (Hidx i r Hr) as (m & Hm & Hid).
  assert (m = n) as -> by congruence.
  split; [by eapply list_elem_of_lookup_2 | done].
Qed.

(** Every id of the list is indexed. *)
Lemma nodeAt_complete nodes n :
  n ∈ nodes → ∃ m, nodeAt nodes (buildNodeMap nodes) (id n) = IsNode m.
Proof.
  intros Hn.
  destruct (buildNodeMap nodes !! id n) as [r|] eqn:Hr.
  - destruct (buildNodeMap_indexed nodes _ _ Hr) as (m & Hm & _).
    exists m. apply nodeAt_IsNode. by exists r.
  - exfalso. by eapply (proj1 (buildNodeMap_None nodes (id n))).
Qed.

Lemma buildNodeMap_exact nodes :
  unique_ids nodes → exact_index (buildNodeMap nodes) nodes.
Proof.
  intros Huniq r n Hn.
  destruct (buildNodeMap nodes !! id n) as [r'|] eqn:Hr.
  - destruct (buildNodeMap_indexed nodes _ _ Hr) as (m & Hm & Hid).
    f_equal. eapply NoDup_lookup; [exact Huniq| |];
      rewrite list_lookup_fmap; [by rewrite Hm | rewrite Hn; simpl; by rewrite Hid].
  - exfalso. eapply (proj1 (buildNodeMap_None nodes (id n))); [done| |done].
    by eapply list_elem_of_lookup_2.
Qed.

(** With an exact index the lookup of a node's id returns the node
    itself. *)
Lemma nodeAt_exact st nodeMap n :
  exact_index nodeMap st → n ∈ st → nodeAt st nodeMap (id n) = IsNode n.
Proof.
  intros Hex [r Hr]%list_elem_of_lookup. apply nodeAt_IsNode.
  exists r. split; [by apply Hex | done].
Qed.

(** *** Later states of the node objects *)

Lemma later_refl st : later st st.
Proof.
  apply Forall2_same_length_lookup. split; [done|]. intros r n n' ? ?.
  assert (n' = n) as -> by congruence. done.
Qed.

Lemma later_trans st1 st2 st3 : later st1 st2 → later st2 st3 → later st1 st3.
Proof.
  unfold later. intros H12 H23.
  apply Forall2_same_length_lookup. split.
  { apply Forall2_length in H12, H23. lia. }
  intros r n1 n3 Hn1 Hn3.
  destruct (Forall2_lookup_l _ _ _ _ _ H12 Hn1) as (n2 & Hn2 & ? & ? & ? & ? & ? & ?).
  destruct (Forall2_lookup_l _ _ _ _ _ H23 Hn2) as (n3' & Hn3' & ? & ? & ? & ? & ? & ?).
  assert (n3' = n3) as -> by congruence.
  repeat split; try congruence; naive_solver.
Qed.

Lemma later_lookup st st' r n :
  later st st' → st !! r = Some n →
  ∃ n', st' !! r = Some n' ∧ id n' = id n ∧ prereqs n' = prereqs n.
Proof.
  intros Hl Hn.
  destruct (Forall2_lookup_l _ _ _ _ _ Hl Hn) as (n' & Hn' & ? & ? & _).
  by exists n'.
Qed.

Lemma later_lookup_r st st' r n' :
  later st st' → st' !! r = Some n' →
  ∃ n, st !! r = Some n ∧ id n' = id n ∧ prereqs n' = prereqs n.
Proof.
  intros Hl Hn.
  destruct (Forall2_lookup_r _ _ _ _ _ Hl Hn) as (n & Hn' & ? & ? & _).
  by exists n.
Qed.

Lemma later_set_layer st r v : later st (alter (λ m, set_layer m v) r st).
Proof.
  apply Forall2_same_length_lookup. split; [by rewrite length_alter|].
  intros k n n' Hn Hn'. destruct (decide (k = r)) as [->|Hne].
  - rewrite list_lookup_alter_eq, Hn in Hn'. injection Hn' as <-. simpl.
    repeat split; try done. all: by eexists.
  - rewrite list_lookup_alter_ne, Hn in Hn' by done. injection Hn' as <-. done.
Qed.

Lemma indexed_later nodeMap st st' :
  later st st' → indexed nodeMap st → indexed nodeMap st'.
Proof.
  intros Hl Hidx i r Hr. destruct (Hidx i r Hr) as (n & Hn & Hid).
  destruct (later_lookup st st' r n Hl Hn) as (n' & Hn' & Hid' & _).
  exists n'. split; [done | congruence].
Qed.

Lemma exact_later nodeMap st st' :
  later st st' → exact_index nodeMap st → exact_index nodeMap st'.
Proof.
  intros Hl Hex r n' Hn'.
  destruct (later_lookup_r st st' r n' Hl Hn') as (n & Hn & Hid & _).
  rewrite Hid. by apply Hex.
Qed.

(** What the index holds for a key stays what it is: a node keeps its id
    and prereqs, and a value stays a value. *)
Lemma nodeAt_later nodeMap st st' k :
  later st st' →
  match nodeAt st nodeMap k with
  | IsNode n =>
      ∃ n', nodeAt st' nodeMap k = IsNode n' ∧ id n' = id n
            ∧ prereqs n' = prereqs n
  | NotANode => nodeAt st' nodeMap k = NotANode
  | IsUndefined => True
  end.
Proof.
  intros Hl.
  destruct (nodeAt st nodeMap k) as [n| |] eqn:Hk; [| |done].
  - apply nodeAt_IsNode in Hk as (r & Hr & Hn).
    destruct (later_lookup st st' r n Hl Hn) as (n' & Hn' & Hid & Hpre).
    exists n'. split; [|done]. apply nodeAt_IsNode. by exists r.
  - unfold nodeAt in *.
    assert (Hnone : nodeMap !! k ≫= (st' !!.) = None).
    { destruct (nodeMap !! k) as [r|]; [|done]. simpl in *.
      destruct (st !! r) as [m|] eqn:Hm; [done|].
      destruct (st' !! r) as [m'|] eqn:Hm'; [|done].
      destruct (later_lookup_r st st' r m' Hl Hm') as (m & Hm2 & _). congruence. }
    rewrite Hnone.
    destruct (nodeMap !! k ≫= (st !!.)) as [m|]; [done|].
    destruct (nodeMap !! "__proto__") as [r|]; [|done]. simpl in *.
    destruct (st !! r) as [q|] eqn:Hq.
    + destruct (Forall2_lookup_l _ _ _ _ _ Hl Hq)
        as (q' & Hq' & _ & Hpre & _ & Hlay & Hx & Hy).
      rewrite Hq'. unfold viaNode, fieldValue in *.
      repeat case_bool_decide; try done; repeat case_decide; try done.
      * rewrite Hpre. done.
      * destruct (layer q); [|done]. by destruct Hlay as [? ->].
      * destruct (x q); [|done]. by destruct Hx as [? ->].
      * destruct (y q); [|done]. by destruct Hy as [? ->].
    + destruct (st' !! r) as [q'|] eqn:Hq'; [|done].
      destruct (later_lookup_r st st' r q' Hl Hq') as (q & Hq2 & _). congruence.
Qed.

Lemma dependent_later st st' p i :
  later st st' → dependent st p i ↔ dependent st' p i.
Proof.
  intros Hl. unfold dependent, prereqs_of. split.
  - intros (n & [r Hr]%list_elem_of_lookup & Hid & Hp).
    destruct (later_lookup st st' r n Hl Hr) as (n' & Hn' & Hid' & Hpre).
    exists n'. split; [by eapply list_elem_of_lookup_2|].
    split; [congruence | by rewrite Hpre].
  - intros (n' & [r Hr]%list_elem_of_lookup & Hid & Hp).
    destruct (later_lookup_r st st' r n' Hl Hr) as (n & Hn & Hid' & Hpre).
    exists n. split; [by eapply list_elem_of_lookup_2|].
    split; [congruence | by rewrite <- Hpre].
Qed.

Lemma downstream_later st st' i j :
  later st st' → downstream st i j ↔ downstream st' i j.
Proof.
  intros Hl. split; induction 1 as [j Hd|k j _ IH Hd].
  - apply downstream_step. by apply (dependent_later st st').
  - eapply downstream_next; [exact IH|]. by apply (dependent_later st st').
  - apply downstream_step. by apply (dependent_later st st').
  - eapply downstream_next; [exact IH|]. by apply (dependent_later st st').
Qed.

Lemma acyclic_later st st' : later st st' → acyclic st → acyclic st'.
Proof.
  intros Hl Hacyc i Hi. apply (Hacyc i). unfold on_cycle in *.
  by apply (downstream_later st st').
Qed.

Lemma result_bind_Ok {A B : Type} (f : A → result B) (r : result A) b :
  r ≫= f = Ok b → ∃ a, r = Ok a ∧ f a = Ok b.
Proof. destruct r as [a|e]; simpl; [by exists a | done]. Qed.

Lemma result_bind_Err {A B : Type} (f : A → result B) (r : result A) e :
  r ≫= f = Err e → r = Err e ∨ ∃ a, r = Ok a ∧ f a = Err e.
Proof.
  destruct r as [a|e']; intros H; [right; by exists a|].
  left. injection H as ->. done.
Qed.

Lemma downstream_trans nodes i j k :
  downstream nodes i j → downstream nodes j k → downstream nodes i k.
Proof.
  intros Hij Hjk. induction Hjk as [k Hk | k l _ IH Hl].
  - by eapply downstream_next.
  - by eapply downstream_next.
Qed.

Lemma max_list_succ (ls : list nat) :
  ls ≠ [] → max_list ((λ v, v + 1) <$> ls) = S (max_list ls).
Proof.
  induction ls as [|a [|b ls] IH]; [done | simpl; lia |].
  intros _. specialize (IH ltac:(done)).
  change (max_list ((λ v, v + 1) <$> a :: b :: ls))
    with ((a + 1) `max` max_list ((λ v, v + 1) <$> b :: ls)).
  rewrite IH. change (max_list (a :: b :: ls)) with (a `max` max_list (b :: ls)).
  lia.
Qed.

Lemma result_bind_not_Err {A B : Type} (k : A → result B) (r : result A) e :
  r ≠ Err e → (∀ a, r = Ok a → k a ≠ Err e) → r ≫= k ≠ Err e.
Proof.
  destruct r as [a|e']; simpl; intros Hr Hk; [by apply Hk|].
  intros [= ->]. done.
Qed.

(** [mapS] raises only what its callback raises. *)
Lemma mapS_not_Err {A B S : Type} (f : A → S → result (B * S)) e l s :
  (∀ a t, a ∈ l → f a t ≠ Err e) → mapS f l s ≠ Err e.
Proof.
  revert s. induction l as [|a l IH]; intros s Hf; [done|].
  simpl. apply result_bind_not_Err; [apply Hf; by left|].
  intros [b s1] _. apply result_bind_not_Err.
  - apply IH. intros a' t Ha'. apply Hf. by right.
  - by intros [bs s2] _.
Qed.

(** [mapS] keeps an invariant [I] of the threaded state and collects a
    property [Q] of every element, when [Q] survives the later steps [R]. *)
Lemma mapS_Ok {A B S : Type} (f : A → S → result (B * S))
    (I : S → Prop) (R : S → S → Prop) (Q : A → B → S → Prop) l :
  (∀ s, R s s) →
  (∀ s1 s2 s3, R s1 s2 → R s2 s3 → R s1 s3) →
  (∀ a b s1 s2, Q a b s1 → R s1 s2 → Q a b s2) →
  (∀ a s b s1, a ∈ l → I s → f a s = Ok (b, s1) → I s1 ∧ R s s1 ∧ Q a b s1) →
  ∀ s bs s', I s → mapS f l s = Ok (bs, s') →
    I s' ∧ R s s' ∧ Forall2 (λ a b, Q a b s') l bs.
Proof.
  intros Hrefl Htrans Hstable. induction l as [|a l IH]; intros Hf s bs s' HI Hrun.
  - simpl in Hrun. injection Hrun as <- <-. split; [done|]. split; [done|].
    constructor.
  - simpl in Hrun.
    apply result_bind_Ok in Hrun as ([b s1] & Hfa & Hrun).
    apply result_bind_Ok in Hrun as ([bs' s2] & Hrest & Hrun).
    injection Hrun as <- <-.
    destruct (Hf a s b s1) as (HI1 & HR1 & HQ1); [by left | done | done |].
    destruct (IH (λ a' t b' t' Ha', Hf a' t b' t' (list_elem_of_further _ _ _ Ha'))
                 s1 bs' s2 HI1 Hrest) as (HI2 & HR2 & HQ2).
    split; [done|]. split; [by eapply Htrans|].
    constructor; [by eapply Hstable | done].
Qed.

(** *** Reading the cache *)

Lemma cacheGet_own (c : gmap string jslayer) k v :
  c !! k = Some v → cacheGet c k = Some v.
Proof. unfold cacheGet. by intros ->. Qed.

Lemma cacheGet_None (c : gmap string jslayer) k :
  cacheGet c k = None ↔ c !! k = None ∧ inherited k = false.
Proof.
  unfold cacheGet. destruct (c !! k); [naive_solver|].
  destruct (inherited k); naive_solver.
Qed.

Lemma cacheGet_plain (c : gmap string jslayer) k :
  inherited k = false → cacheGet c k = c !! k.
Proof. unfold cacheGet. intros ->. by destruct (c !! k). Qed.

Lemma cache_le_refl c : cache_le c c.
Proof. done. Qed.

Lemma cache_le_trans c1 c2 c3 : cache_le c1 c2 → cache_le c2 c3 → cache_le c1 c3.
Proof. intros [? ?] [? ?]. split; [by etrans | naive_solver]. Qed.

Lemma cache_le_insert (c : gmap string jslayer) i v :
  cacheGet c i = None → cache_le c (<[i := v]> c).
Proof.
  intros [Hi Hinh]%cacheGet_None. split; [by apply insert_subseteq|].
  intros k w Hk. destruct (decide (k = i)) as [->|Hne].
  - unfold cacheGet in Hk. by rewrite Hi, Hinh in Hk.
  - unfold cacheGet in *. by rewrite lookup_insert_ne.
Qed.

Lemma layer_eqn_mono (look look' : string → option jslayer) n v :
  (∀ p lp, look p = Some lp → look' p = Some lp) →
  layer_eqn look n v → layer_eqn look' n v.
Proof.
  intros Hsub [H|(Hne & ls & Hls & ->)]; [by left|]. right. split; [done|].
  exists ls. split; [|done].
  eapply Forall2_impl; [exact Hls|]. simpl. intros p lp Hp. by apply Hsub.
Qed.

Lemma entry_ok_mono nodes nodeMap c c' i v :
  cache_le c c' → entry_ok nodes nodeMap c i v → entry_ok nodes nodeMap c' i v.
Proof.
  unfold entry_ok. intros [_ Hle]. destruct (nodeAt nodes nodeMap i); [|done|done].
  by apply layer_eqn_mono.
Qed.

Lemma cache_consistent_insert nodes nodeMap cache i v :
  cacheGet cache i = None → cache_consistent nodes nodeMap cache →
  entry_ok nodes nodeMap cache i v →
  cache_consistent nodes nodeMap (<[i := v]> cache).
Proof.
  intros Hi Hcons Hv j w Hj.
  pose proof (cache_le_insert cache i v Hi) as Hle.
  destruct (decide (j = i)) as [->|Hne].
  - rewrite lookup_insert_eq in Hj. injection Hj as <-.
    split; [by apply cacheGet_None in Hi as [_ ?]|].
    by apply (entry_ok_mono nodes nodeMap cache).
  - rewrite lookup_insert_ne in Hj by done.
    destruct (Hcons j w Hj) as [Hinh Hok]. split; [done|].
    by apply (entry_ok_mono nodes nodeMap cache).
Qed.

Lemma cache_consistent_empty nodes nodeMap :
  cache_consistent nodes nodeMap ∅.
Proof. intros i v Hi. done. Qed.

(** A consistent cache stays consistent when the node objects move on. *)
Lemma cache_consistent_later nodeMap st st' cache :
  later st st' → cache_consistent st nodeMap cache →
  cache_consistent st' nodeMap cache.
Proof.
  intros Hl Hcons i v Hi. destruct (Hcons i v Hi) as [Hinh Hok].
  split; [done|]. pose proof (nodeAt_later nodeMap st st' i Hl) as Hlat.
  unfold entry_ok in *.
  destruct (nodeAt st nodeMap i) as [n| |]; [| |done].
  - destruct Hlat as (n' & -> & _ & Hpre).
    unfold layer_eqn, prereqs_of in *. by rewrite Hpre.
  - by rewrite Hlat.
Qed.

Lemma numbers_Some vs ks :
  numbers vs = Some ks ↔ vs = Some <$> ks.
Proof.
  revert ks. induction vs as [|v vs IH]; intros ks; simpl.
  - split; [by intros [= <-] | by destruct ks].
  - destruct v as [k|]; [|split; [done | by destruct ks]].
    destruct (numbers vs) as [ks'|] eqn:Hks.
    + split.
      * intros [= <-]. simpl. f_equal. by apply IH.
      * destruct ks as [|k0 ks0]; [done|]. intros [= -> H]. f_equal. f_equal.
        apply IH in H. congruence.
    + split; [done|]. destruct ks as [|k0 ks0]; [done|]. intros [= -> H].
      apply IH in H. done.
Qed.

Lemma numbers_is_Some {A} (ps : list A) vs :
  Forall2 (λ _ b, is_Some b) ps vs → ∃ ks, numbers vs = Some ks.
Proof.
  induction 1 as [|p b ps' vs' [k ->] _ [ks Hks]]; [by exists []|].
  exists (k :: ks). simpl. by rewrite Hks.
Qed.

(** [Math.max] gives a number only on numbers. *)
Lemma mathMax_LNum (ls : list jslayer) m :
  mathMax (plusOne <$> ls) = LNum m →
  ∃ ks, ls = LNum <$> ks ∧ m = max_list ((λ v, v + 1) <$> ks).
Proof.
  unfold mathMax. destruct (numbers (plusOne <$> ls)) as [ks'|] eqn:Hks; [|done].
  intros [= <-]. apply numbers_Some in Hks.
  assert (Hex : ∃ ks, ls = LNum <$> ks ∧ ks' = (λ v, v + 1) <$> ks).
  { revert ks' Hks. induction ls as [|l ls IH]; intros ks' Hks.
    - exists []. by destruct ks'.
    - destruct ks' as [|k' ks']; [done|]. simpl in Hks. injection Hks as Hl Hks.
      destruct (IH ks' Hks) as (ks & -> & ->).
      destruct l as [k| |key]; simpl in Hl; [|done|done].
      injection Hl as <-. by exists (k :: ks). }
  destruct Hex as (ks & -> & ->). by exists ks.
Qed.

Section layering.
Variable nodes : list node.
Variable nodeMap : gmap string nat.
Hypothesis index_sound : indexed nodeMap nodes.

Lemma computeLayer_unfold fuel i cache :
  computeLayer (S fuel) nodes nodeMap i cache =
    match cacheGet cache i with
    | Some v => Ok (v, cache)
    | None =>
        match nodeAt nodes nodeMap i with
        | IsUndefined => Err TypeError
        | NotANode => Ok (LNum 0, <[i := LNum 0]> cache)
        | IsNode n =>
            match prereqs n with
            | None => Ok (LNum 0, <[i := LNum 0]> cache)
            | Some ps =>
                if bool_decide (length ps = 0)
                then Ok (LNum 0, <[i := LNum 0]> cache)
                else
                  '(vs, cache') ← mapS (layer_step fuel nodes nodeMap) ps cache;
                  Ok (mathMax vs, <[i := mathMax vs]> cache')
            end
        end
    end.
Proof. reflexivity. Qed.

(** In an acyclic graph the recursion depth is bounded by the number of
    nodes: a call with the ancestors [anc] on the stack never runs out of
    fuel. *)
Lemma computeLayer_no_diverge fuel :
  ∀ i anc cache,
    acyclic nodes → NoDup anc →
    (∀ a, a ∈ anc → a ∈ id <$> nodes ∧ downstream nodes i a) →
    length nodes < fuel + length anc →
    computeLayer fuel nodes nodeMap i cache ≠ Err Diverges.
Proof.
  induction fuel as [|fuel IH]; intros i anc cache Hacyc Hnd Hanc Hlen.
  - exfalso.
    assert (anc ⊆+ id <$> nodes) as Hsub%submseteq_length.
    { apply NoDup_submseteq; [done|]. intros a Ha. by apply Hanc. }
    rewrite length_fmap in Hsub. lia.
  - rewrite computeLayer_unfold.
    destruct (cacheGet cache i); [done|].
    destruct (nodeAt nodes nodeMap i) as [n| |] eqn:Hn; [|done|done].
    destruct (nodeAt_sound _ _ _ _ index_sound Hn) as [Hin Hid].
    destruct (prereqs n) as [ps|] eqn:Hps; [|done].
    case_bool_decide; [done|].
    apply result_bind_not_Err; [|by intros [vs c'] _].
    apply mapS_not_Err. intros p c Hp. unfold layer_step.
    apply result_bind_not_Err; [|by intros [v c'] _].
    assert (Hpi : downstream nodes p i).
    { apply downstream_step. exists n. split; [done|]. split; [done|].
      unfold prereqs_of. by rewrite Hps. }
    apply (IH p (i :: anc)); [done | | | simpl; lia].
    + constructor; [|done]. intros Hi. destruct (Hanc i Hi) as [_ Hcyc].
      by apply (Hacyc i).
    + intros a [->|Ha]%elem_of_cons.
      * split; [|done]. apply list_elem_of_fmap. by exists n.
      * destruct (Hanc a Ha) as [? ?]. split; [done|].
        by eapply downstream_trans.
Qed.

(** A call raises [TypeError] only through a key for which the index gives
    [undefined]. *)
Lemma computeLayer_no_type_error fuel :
  ∀ i cache,
    (∀ n p, n ∈ nodes → p ∈ prereqs_of n →
       nodeAt nodes nodeMap p ≠ IsUndefined) →
    nodeAt nodes nodeMap i ≠ IsUndefined →
    computeLayer fuel nodes nodeMap i cache ≠ Err TypeError.
Proof.
  induction fuel as [|fuel IH]; intros i cache Hres Hi; [done|].
  rewrite computeLayer_unfold.
  destruct (cacheGet cache i); [done|].
  destruct (nodeAt nodes nodeMap i) as [n| |] eqn:Hn; [|done|done].
  destruct (nodeAt_sound _ _ _ _ index_sound Hn) as [Hin Hid].
  destruct (prereqs n) as [ps|] eqn:Hps; [|done].
  case_bool_decide; [done|].
  apply result_bind_not_Err; [|by intros [vs c'] _].
  apply mapS_not_Err. intros p c Hp. unfold layer_step.
  apply result_bind_not_Err; [|by intros [v c'] _].
  apply IH; [done|]. eapply Hres; [done|].
  unfold prereqs_of. by rewrite Hps.
Qed.

Lemma Forall2_plusOne (c : gmap string jslayer) ps vs :
  Forall2 (λ p v, ∃ lp, cacheGet c p = Some lp ∧ v = plusOne lp) ps vs →
  ∃ ls, Forall2 (λ p lp, cacheGet c p = Some lp) ps ls ∧ vs = plusOne <$> ls.
Proof.
  induction 1 as [|p v ps vs (lp & Hp & ->) _ (ls & Hls & ->)].
  - exists []. split; [constructor | done].
  - exists (lp :: ls). split; [by constructor | done].
Qed.

(** A call that returns leaves a consistent cache that extends the one it
    started from, reads the returned value under the key asked for, and
    gained only ids upstream of it. *)
Lemma computeLayer_Ok fuel :
  ∀ i cache v cache',
    acyclic nodes → cache_consistent nodes nodeMap cache →
    computeLayer fuel nodes nodeMap i cache = Ok (v, cache') →
    layer_post nodes nodeMap i cache v cache'.
Proof.
  induction fuel as [|fuel IH]; intros i cache v cache' Hacyc Hcons Hrun; [done|].
  rewrite computeLayer_unfold in Hrun.
  destruct (cacheGet cache i) as [w|] eqn:Hi.
  { injection Hrun as <- <-. split; [done|]. split; [done|]. split; [done|].
    intros j Hj [u Hu]. congruence. }
  assert (Hroot : entry_ok nodes nodeMap cache i (LNum 0) →
            layer_post nodes nodeMap i cache (LNum 0) (<[i := LNum 0]> cache)).
  { intros Hok. split; [by apply cache_le_insert|].
    split; [apply cacheGet_own; by rewrite lookup_insert_eq|]. split.
    - by apply cache_consistent_insert.
    - intros j Hj [u Hu]. destruct (decide (j = i)) as [|Hne]; [by left|].
      rewrite lookup_insert_ne in Hu by done. congruence. }
  unfold entry_ok in Hroot.
  destruct (nodeAt nodes nodeMap i) as [n| |] eqn:Hn; [| |done].
  2:{ injection Hrun as <- <-. by apply Hroot. }
  destruct (nodeAt_sound _ _ _ _ index_sound Hn) as [Hin Hid].
  destruct (prereqs n) as [ps|] eqn:Hps.
  2:{ injection Hrun as <- <-. apply Hroot. left. unfold prereqs_of.
      by rewrite Hps. }
  case_bool_decide as Hlen.
  { injection Hrun as <- <-. apply Hroot. left. unfold prereqs_of. rewrite Hps.
    by destruct ps. }
  assert (Hpre : prereqs_of n = ps) by (unfold prereqs_of; by rewrite Hps).
  apply result_bind_Ok in Hrun as ([vs c1] & Hmap & Hrun).
  injection Hrun as <- <-.
  destruct (mapS_Ok (layer_step fuel nodes nodeMap)
              (cache_consistent nodes nodeMap)
              (λ c c', cache_le c c' ∧ ∀ j, c !! j = None → is_Some (c' !! j) →
                                  downstream nodes j i)
              (λ p b c, ∃ lp, cacheGet c p = Some lp ∧ b = plusOne lp) ps)
    with (s := cache) (bs := vs) (s' := c1)
    as (Hcons1 & [Hle1 Hnew1] & Hvals); [| | | |done|done|].
  - intros c. split; [done|]. intros j Hj [u Hu]. congruence.
  - intros c2 c3 c4 [Hs23 Hn23] [Hs34 Hn34].
    split; [by eapply cache_le_trans|].
    intros j Hj Hj4. destruct (c3 !! j) as [u|] eqn:Hj3.
    + apply Hn23; [done | by eexists].
    + by apply Hn34.
  - intros p b c2 c3 (lp & Hp & ->) [[_ Hs23] _]. exists lp. split; [|done].
    by apply Hs23.
  - intros p c b c2 Hp Hc Hstep. unfold layer_step in Hstep.
    apply result_bind_Ok in Hstep as ([w c2'] & Hcall & Hstep).
    injection Hstep as <- <-.
    destruct (IH p c w c2' Hacyc Hc Hcall) as (Hs & Hw & Hc2 & Hnew).
    assert (Hpi : downstream nodes p i).
    { apply downstream_step. exists n. split; [done|]. split; [done|].
      by rewrite Hpre. }
    split; [done|]. split; [|by exists w]. split; [done|].
    intros j Hj Hj2. destruct (Hnew j Hj Hj2) as [->|Hd]; [done|].
    by eapply downstream_trans.
  - apply cacheGet_None in Hi as [Hi Hinh].
    assert (Hi1 : cacheGet c1 i = None).
    { apply cacheGet_None. split; [|done].
      destruct (c1 !! i) as [u|] eqn:Hu; [|done].
      destruct (Hacyc i). apply Hnew1; [done | by eexists]. }
    apply Forall2_plusOne in Hvals as (ls & Hls & ->).
    split; [eapply cache_le_trans; [done | by apply cache_le_insert]|].
    split; [apply cacheGet_own; by rewrite lookup_insert_eq|]. split.
    + apply cache_consistent_insert; [done | done |].
      unfold entry_ok. rewrite Hn. right. split; [rewrite Hpre; by destruct ps|].
      exists ls. by rewrite Hpre.
    + intros j Hj [u Hu]. destruct (decide (j = i)) as [|Hji]; [by left|].
      rewrite lookup_insert_ne in Hu by done. right.
      apply Hnew1; [done | by eexists].
Qed.

(** An id on a cycle has a prereq on a cycle. *)
Lemma on_cycle_prereq i :
  on_cycle nodes i →
  ∃ n p, n ∈ nodes ∧ id n = i ∧ p ∈ prereqs_of n ∧ on_cycle nodes p.
Proof.
  unfold on_cycle. intros Hcyc.
  assert (Hlast : ∃ p, dependent nodes p i ∧ (p = i ∨ downstream nodes i p)).
  { inversion Hcyc as [? Hd|k ? Hk Hd]; subst.
    - exists i. split; [done | by left].
    - exists k. split; [done | by right]. }
  destruct Hlast as (p & Hdep & Hp).
  destruct (Hdep) as (n & Hn & Hid & Hpn).
  exists n, p. split; [done|]. split; [done|]. split; [done|].
  destruct Hp as [->|Hip]; [done|].
  eapply downstream_trans; [by apply downstream_step | done].
Qed.

(** With an exact index and no id under an inherited name, a call on an id
    that lies on a cycle never returns, and no such id ever enters the
    cache. *)
Lemma computeLayer_Ok_off_cycle fuel :
  ∀ i cache v cache',
    (∀ n, n ∈ nodes → nodeAt nodes nodeMap (id n) = IsNode n) →
    (∀ n, n ∈ nodes → inherited (id n) = false) →
    (∀ j, is_Some (cache !! j) → ¬ on_cycle nodes j) →
    computeLayer fuel nodes nodeMap i cache = Ok (v, cache') →
    ¬ on_cycle nodes i ∧ ∀ j, is_Some (cache' !! j) → ¬ on_cycle nodes j.
Proof.
  induction fuel as [|fuel IH]; intros i cache v cache' Hexact Hplain Hcache Hrun;
    [done|].
  rewrite computeLayer_unfold in Hrun.
  destruct (cacheGet cache i) as [w|] eqn:Hi.
  { injection Hrun as <- <-. split; [|done].
    unfold cacheGet in Hi. destruct (cache !! i) as [u|] eqn:Hu.
    - apply Hcache. by eexists.
    - destruct (inherited i) eqn:Hinh; [|done].
      intros (n & _ & Hn & Hid & _)%on_cycle_prereq.
      specialize (Hplain n Hn). congruence. }
  assert (Hins : ∀ w (c : gmap string jslayer), ¬ on_cycle nodes i →
            (∀ j, is_Some (c !! j) → ¬ on_cycle nodes j) →
            ∀ j, is_Some (<[i := w]> c !! j) → ¬ on_cycle nodes j).
  { intros w c Hoff Hc j Hj. destruct (decide (j = i)) as [->|Hne]; [done|].
    rewrite lookup_insert_ne in Hj by done. by apply Hc. }
  destruct (nodeAt nodes nodeMap i) as [n| |] eqn:Hn; [| |done].
  2:{ injection Hrun as <- <-.
      assert (Hoff : ¬ on_cycle nodes i).
      { intros (m & _ & Hm & Hid & _)%on_cycle_prereq.
        specialize (Hexact m Hm). rewrite Hid in Hexact. congruence. }
      split; [done | by apply Hins]. }
  destruct (nodeAt_sound _ _ _ _ index_sound Hn) as [Hin Hid].
  assert (Hroot : prereqs_of n = [] → ¬ on_cycle nodes i).
  { intros Hnil (m & p & Hm & Hmid & Hp & _)%on_cycle_prereq.
    assert (m = n) as ->.
    { specialize (Hexact m Hm). rewrite Hmid, Hn in Hexact. congruence. }
    rewrite Hnil in Hp. by apply elem_of_nil in Hp. }
  destruct (prereqs n) as [ps|] eqn:Hps.
  2:{ injection Hrun as <- <-.
      assert (¬ on_cycle nodes i).
      { apply Hroot. unfold prereqs_of. by rewrite Hps. }
      split; [done | by apply Hins]. }
  case_bool_decide as Hlen.
  { injection Hrun as <- <-.
    assert (¬ on_cycle nodes i).
    { apply Hroot. unfold prereqs_of. rewrite Hps. by destruct ps. }
    split; [done | by apply Hins]. }
  assert (Hpre : prereqs_of n = ps) by (unfold prereqs_of; by rewrite Hps).
  apply result_bind_Ok in Hrun as ([vs c1] & Hmap & Hrun).
  injection Hrun as <- <-.
  destruct (mapS_Ok (layer_step fuel nodes nodeMap)
              (λ c, ∀ j, is_Some (c !! j) → ¬ on_cycle nodes j)
              (λ _ _, True)
              (λ p _ _, ¬ on_cycle nodes p) ps)
    with (s := cache) (bs := vs) (s' := c1)
    as (Hc1 & _ & Hoff); [done | done | done | | done | done |].
  - intros p c b c2 Hp Hc Hstep. unfold layer_step in Hstep.
    apply result_bind_Ok in Hstep as ([w c2'] & Hcall & Hstep).
    injection Hstep as <- <-.
    destruct (IH p c w c2' Hexact Hplain Hc Hcall) as [Hp' Hc2]. done.
  - assert (Hi' : ¬ on_cycle nodes i).
    { intros (m & p & Hm & Hmid & Hp & Hcyc)%on_cycle_prereq.
      assert (m = n) as ->.
      { specialize (Hexact m Hm). rewrite Hmid, Hn in Hexact. congruence. }
      rewrite Hpre in Hp.
      apply list_elem_of_lookup in Hp as [k Hk].
      destruct (Forall2_lookup_l _ _ _ _ _ Hoff Hk) as (b & _ & Hb). done. }
    split; [done | by apply Hins].
Qed.

(** When no prereqs entry is an inherited name, a call on a key that is
    not one returns a number and keeps a cache of numbers. *)
Lemma computeLayer_numeric fuel :
  ∀ i cache v cache',
    (∀ n p, n ∈ nodes → p ∈ prereqs_of n → inherited p = false) →
    inherited i = false →
    (∀ j w, cache !! j = Some w → ∃ k, w = LNum k) →
    computeLayer fuel nodes nodeMap i cache = Ok (v, cache') →
    (∀ j w, cache' !! j = Some w → ∃ k, w = LNum k) ∧ ∃ k, v = LNum k.
Proof.
  induction fuel as [|fuel IH]; intros i cache v cache' Hplain Hi Hnum Hrun;
    [done|].
  rewrite computeLayer_unfold in Hrun.
  rewrite (cacheGet_plain cache i Hi) in Hrun.
  destruct (cache !! i) as [w|] eqn:Hw.
  { injection Hrun as <- <-. split; [done | by eapply Hnum]. }
  assert (Hins : ∀ k (c : gmap string jslayer),
            (∀ j w, c !! j = Some w → ∃ k, w = LNum k) →
            ∀ j w, <[i := LNum k]> c !! j = Some w → ∃ k, w = LNum k).
  { intros k c Hc j w Hj. destruct (decide (j = i)) as [->|Hne].
    - rewrite lookup_insert_eq in Hj. injection Hj as <-. by exists k.
    - rewrite lookup_insert_ne in Hj by done. by eapply Hc. }
  destruct (nodeAt nodes nodeMap i) as [n| |] eqn:Hn; [| |done].
  2:{ injection Hrun as <- <-. split; [by apply Hins | by exists 0]. }
  destruct (nodeAt_sound _ _ _ _ index_sound Hn) as [Hin Hid].
  destruct (prereqs n) as [ps|] eqn:Hps.
  2:{ injection Hrun as <- <-. split; [by apply Hins | by exists 0]. }
  case_bool_decide as Hlen.
  { injection Hrun as <- <-. split; [by apply Hins | by exists 0]. }
  assert (Hpre : prereqs_of n = ps) by (unfold prereqs_of; by rewrite Hps).
  apply result_bind_Ok in Hrun as ([vs c1] & Hmap & Hrun).
  injection Hrun as <- <-.
  destruct (mapS_Ok (layer_step fuel nodes nodeMap)
              (λ c, ∀ j w, c !! j = Some w → ∃ k, w = LNum k)
              (λ _ _, True)
              (λ _ b _, is_Some b) ps)
    with (s := cache) (bs := vs) (s' := c1)
    as (Hc1 & _ & Hvals); [done | done | done | | done | done |].
  - intros p c b c2 Hp Hc Hstep. unfold layer_step in Hstep.
    apply result_bind_Ok in Hstep as ([w c2'] & Hcall & Hstep).
    injection Hstep as <- <-.
    destruct (IH p c w c2' Hplain) as [Hc2 [k ->]]; [|done|done|].
    { eapply Hplain; [done|]. by rewrite Hpre. }
    split; [done|]. split; [done | by eexists].
  - destruct (numbers_is_Some _ _ Hvals) as [ks Hks]. unfold mathMax. rewrite Hks.
    split; [by apply Hins | by eexists].
Qed.

End layering.

(** *** The loop over the nodes *)

(** The [forEach] of [computeLayers] raises only what a call raises. *)
Lemma assignLayers_not_Err fuel e nodeMap todo :
  ∀ r st cache,
    (∀ st' c n, later st st' → n ∈ todo →
       computeLayer fuel st' nodeMap (id n) c ≠ Err e) →
    assignLayers fuel nodeMap r todo st cache ≠ Err e.
Proof.
  induction todo as [|n todo IH]; intros r st cache Hcall; [done|].
  simpl. apply result_bind_not_Err; [apply Hcall; [apply later_refl | by left]|].
  intros [v c1] _. apply IH. intros st' c m Hl Hm. apply Hcall; [|by right].
  eapply later_trans; [apply later_set_layer | done].
Qed.

(** When the [forEach] returns, the cache is consistent and every visited
    node carries the value the final cache reads under its id. *)
Lemma assignLayers_Ok fuel nodeMap todo :
  ∀ r st cache out cacheF,
    acyclic st → indexed nodeMap st → cache_consistent st nodeMap cache →
    (∀ k n, todo !! k = Some n → ∃ m, st !! (r + k) = Some m ∧ id m = id n) →
    assignLayers fuel nodeMap r todo st cache = Ok (out, cacheF) →
    cache_le cache cacheF
    ∧ cache_consistent out nodeMap cacheF
    ∧ later st out
    ∧ ∀ k m, st !! k = Some m →
        (k < r ∨ r + length todo ≤ k → out !! k = Some m)
        ∧ (r ≤ k < r + length todo →
           ∃ v, out !! k = Some (set_layer m v)
                ∧ cacheGet cacheF (id m) = Some v).
Proof.
  induction todo as [|n todo IH]; intros r st cache out cacheF Hacyc Hidx Hcons Htodo Hrun.
  - simpl in Hrun. injection Hrun as <- <-. split; [done|]. split; [done|].
    split; [apply later_refl|]. intros k m Hm. split; [done|]. simpl. lia.
  - simpl in Hrun.
    apply result_bind_Ok in Hrun as ([v c1] & Hcall & Hrun).
    destruct (computeLayer_Ok st nodeMap Hidx _ _ _ _ _ Hacyc Hcons Hcall)
      as (Hle1 & Hv & Hc1 & _).
    set (st1 := alter (λ m, set_layer m v) r st) in *.
    assert (Hl1 : later st st1) by apply later_set_layer.
    destruct (IH (S r) st1 c1 out cacheF) as (Hle2 & Hc2 & Hl2 & Hpos).
    + by eapply acyclic_later.
    + by eapply indexed_later.
    + by eapply cache_consistent_later.
    + intros k n' Hk. destruct (Htodo (S k) n' Hk) as (m & Hm & Hid).
      exists m. split; [|done]. unfold st1.
      rewrite list_lookup_alter_ne by lia.
      by replace (S r + k) with (r + S k) by lia.
    + done.
    + split; [by eapply cache_le_trans|]. split; [done|].
      split; [by eapply later_trans|].
      intros k m Hm. simpl. split.
      * intros Hk. assert (Hm1 : st1 !! k = Some m).
        { unfold st1. rewrite list_lookup_alter_ne by lia. done. }
        apply (Hpos k m Hm1). lia.
      * intros Hk. destruct (decide (k = r)) as [->|Hne].
        -- exists v. split.
           ++ apply (Hpos r (set_layer m v)); [|lia].
              unfold st1. by rewrite list_lookup_alter_eq, Hm.
           ++ destruct (Htodo 0 n) as (m' & Hm' & Hid); [done|].
              rewrite Nat.add_0_r, Hm in Hm'. injection Hm' as <-.
              rewrite Hid. by apply Hle2.
        -- assert (Hm1 : st1 !! k = Some m).
           { unfold st1. rewrite list_lookup_alter_ne by lia. done. }
           apply (Hpos k m Hm1). lia.
Qed.

(** When the [forEach] returns, no visited id lies on a cycle. *)
Lemma assignLayers_Ok_off_cycle fuel nodeMap todo :
  ∀ r st cache out cacheF,
    indexed nodeMap st → exact_index nodeMap st →
    (∀ n, n ∈ st → inherited (id n) = false) →
    (∀ j, is_Some (cache !! j) → ¬ on_cycle st j) →
    assignLayers fuel nodeMap r todo st cache = Ok (out, cacheF) →
    ∀ n, n ∈ todo → ¬ on_cycle st (id n).
Proof.
  induction todo as [|n todo IH];
    intros r st cache out cacheF Hidx Hexact Hplain Hcache Hrun m Hm.
  - by apply elem_of_nil in Hm.
  - simpl in Hrun.
    apply result_bind_Ok in Hrun as ([v c1] & Hcall & Hrun).
    destruct (computeLayer_Ok_off_cycle st nodeMap Hidx _ _ _ _ _
                (λ q Hq, nodeAt_exact st nodeMap q Hexact Hq) Hplain Hcache Hcall)
      as [Hn Hc1].
    apply elem_of_cons in Hm as [->|Hm]; [done|].
    set (st1 := alter (λ m, set_layer m v) r st) in *.
    assert (Hl1 : later st st1) by apply later_set_layer.
    intros Hcyc.
    apply (IH (S r) st1 c1 out cacheF) with (n := m); try done.
    + by eapply indexed_later.
    + by eapply exact_later.
    + intros q [k Hk]%list_elem_of_lookup.
      destruct (later_lookup_r st st1 k q Hl1 Hk) as (q0 & Hq0 & -> & _).
      apply Hplain. by eapply list_elem_of_lookup_2.
    + intros j Hj Hcj. apply (Hc1 j Hj). unfold on_cycle in *.
      by apply (downstream_later st st1).
    + unfold on_cycle in *. by apply (downstream_later st st1).
Qed.

(** In a later state of the input every id of the input is still found. *)
Lemma nodeAt_later_complete nodes st n :
  later nodes st → n ∈ nodes →
  ∃ m, nodeAt st (buildNodeMap nodes) (id n) = IsNode m.
Proof.
  intros Hl Hn. destruct (nodeAt_complete nodes n Hn) as [m Hm].
  pose proof (nodeAt_later (buildNodeMap nodes) nodes st (id n) Hl) as Hlat.
  rewrite Hm in Hlat. destruct Hlat as (m' & Hm' & _). by exists m'.
Qed.

Lemma later_elem_of_r st st' n' :
  later st st' → n' ∈ st' →
  ∃ n, n ∈ st ∧ id n' = id n ∧ prereqs n' = prereqs n.
Proof.
  intros Hl [r Hr]%list_elem_of_lookup.
  destruct (later_lookup_r st st' r n' Hl Hr) as (n & Hn & ? & ?).
  exists n. split; [by eapply list_elem_of_lookup_2 | done].
Qed.

(** Layer assignment returns on an acyclic graph without dangling prereqs
    once the fuel exceeds the number of nodes, and the fields it writes are
    what a consistent cache reads. *)
Lemma computeLayers_returns nodes fuel :
  no_dangling nodes → acyclic nodes → length nodes < fuel →
  ∃ out cacheF,
    assignLayers fuel (buildNodeMap nodes) 0 nodes nodes ∅ = Ok (out, cacheF)
    ∧ computeLayers fuel nodes (buildNodeMap nodes) = Ok out
    ∧ cache_consistent out (buildNodeMap nodes) cacheF
    ∧ later nodes out
    ∧ Forall2 (λ n n', ∃ v, n' = set_layer n v
                          ∧ cacheGet cacheF (id n) = Some v)
        nodes out.
Proof.
  intros Hdang Hacyc Hfuel. unfold computeLayers.
  destruct (assignLayers fuel (buildNodeMap nodes) 0 nodes nodes ∅)
    as [[out cacheF]|[]] eqn:Hrun.
  - exists out, cacheF. split; [done|]. split; [done|].
    destruct (assignLayers_Ok fuel (buildNodeMap nodes) nodes 0 nodes ∅ out cacheF)
      as (_ & Hcons & Hl & Hpos);
      [done | apply buildNodeMap_indexed | apply cache_consistent_empty
      | by intros k n Hk; exists n | done |].
    split; [done|]. split; [done|].
    apply Forall2_same_length_lookup. split; [by eapply Forall2_length|].
    intros k n n' Hn Hn'. destruct (Hpos k n Hn) as [_ Hin].
    destruct Hin as (v & Hv & Hc); [apply lookup_lt_Some in Hn; lia|].
    exists v. split; [congruence | done].
  - exfalso. revert Hrun. apply assignLayers_not_Err.
    intros st' c n Hl Hn. apply computeLayer_no_type_error.
    + eapply indexed_later; [done | apply buildNodeMap_indexed].
    + intros m p Hm Hp.
      destruct (later_elem_of_r nodes st' m Hl Hm) as (m0 & Hm0 & _ & Hpre).
      destruct (Hdang m0 p Hm0) as (q & Hq & <-).
      { unfold prereqs_of in *. by rewrite <- Hpre. }
      destruct (nodeAt_later_complete nodes st' q Hl Hq) as [q' ->]. done.
    + destruct (nodeAt_later_complete nodes st' n Hl Hn) as [q' ->]. done.
  - exfalso. revert Hrun. apply assignLayers_not_Err.
    intros st' c n Hl Hn.
    apply (computeLayer_no_diverge st' (buildNodeMap nodes)) with (anc := []).
    + eapply indexed_later; [done | apply buildNodeMap_indexed].
    + by eapply acyclic_later.
    + constructor.
    + intros a Ha. by apply elem_of_nil in Ha.
    + apply Forall2_length in Hl. simpl. lia.
Qed.

(** On a graph with unique ids, none of them an inherited name, and a
    cycle, layer assignment returns no layers whatever the fuel; without
    dangling prereqs the only outcome is an exhausted recursion. *)
Lemma computeLayers_cycle nodes fuel i :
  unique_ids nodes → (∀ n, n ∈ nodes → inherited (id n) = false) →
  on_cycle nodes i →
  (∀ out, computeLayers fuel nodes (buildNodeMap nodes) ≠ Ok out)
  ∧ (no_dangling nodes →
     computeLayers fuel nodes (buildNodeMap nodes) = Err Diverges).
Proof.
  intros Huniq Hplain Hcyc.
  assert (Hnot : ∀ out cacheF,
            assignLayers fuel (buildNodeMap nodes) 0 nodes nodes ∅
            ≠ Ok (out, cacheF)).
  { intros out cacheF Hrun.
    destruct (on_cycle_prereq nodes i Hcyc) as (n & _ & Hn & <- & _).
    eapply (assignLayers_Ok_off_cycle fuel (buildNodeMap nodes) nodes 0 nodes ∅
              out cacheF); [| | | | exact Hrun | exact Hn | exact Hcyc].
    - apply buildNodeMap_indexed.
    - by apply buildNodeMap_exact.
    - done.
    - intros j [v Hj]. done. }
  unfold computeLayers.
  destruct (assignLayers fuel (buildNodeMap nodes) 0 nodes nodes ∅)
    as [[out cacheF]|[]] eqn:Hrun.
  - by destruct (Hnot out cacheF).
  - split; [done|]. intros Hdang. exfalso. revert Hrun.
    apply assignLayers_not_Err.
    intros st' c n Hl Hn. apply computeLayer_no_type_error.
    + eapply indexed_later; [done | apply buildNodeMap_indexed].
    + intros m p Hm Hp.
      destruct (later_elem_of_r nodes st' m Hl Hm) as (m0 & Hm0 & _ & Hpre).
      destruct (Hdang m0 p Hm0) as (q & Hq & <-).
      { unfold prereqs_of in *. by rewrite <- Hpre. }
      destruct (nodeAt_later_complete nodes st' q Hl Hq) as [q' ->]. done.
    + destruct (nodeAt_later_complete nodes st' n Hl Hn) as [q' ->]. done.
  - split; done.
Qed.

Lemma well_formed_b_true nodes : well_formed_b nodes = true → well_formed nodes.
Proof.
  unfold well_formed_b. rewrite andb_true_iff, bool_decide_eq_true.
  intros [Huniq Hdang]. split; [done|]. intros n p Hn Hp.
  rewrite forallb_forall in Hdang. apply list_elem_of_In in Hn.
  specialize (Hdang n Hn). rewrite forallb_forall in Hdang.
  apply list_elem_of_In in Hp. specialize (Hdang p Hp).
  apply bool_decide_eq_true in Hdang.
  apply list_elem_of_fmap in Hdang as (m & -> & Hm). by exists m.
Qed.

Lemma ranked_b_acyclic rank nodes : ranked_b rank nodes = true → acyclic nodes.
Proof.
  unfold ranked_b. intros H. apply (ranked_acyclic nodes rank).
  intros n p Hn Hp. rewrite forallb_forall in H. apply list_elem_of_In in Hn.
  specialize (H n Hn). rewrite forallb_forall in H.
  apply list_elem_of_In in Hp. specialize (H p Hp).
  by apply bool_decide_eq_true in H.
Qed.

Lemma plain_ids_b_true nodes : plain_ids_b nodes = true → plain_ids nodes.
Proof.
  unfold plain_ids_b. intros H n Hn. rewrite forallb_forall in H.
  apply list_elem_of_In in Hn. specialize (H n Hn).
  apply andb_true_iff in H as [Hid Hps]. apply negb_true_iff in Hid.
  split; [done|]. intros p Hp. rewrite forallb_forall in Hps.
  apply list_elem_of_In in Hp. specialize (Hps p Hp).
  by apply negb_true_iff in Hps.
Qed.

(** With plain ids the index has no prototype node. *)
Lemma plain_no_proto nodes :
  plain_ids nodes → buildNodeMap nodes !! "__proto__" = None.
Proof.
  intros Hplain. apply buildNodeMap_None. intros n Hn Hid.
  destruct (Hplain n Hn) as [Hinh _]. rewrite Hid in Hinh. done.
Qed.

(** The final cache of a run over plain ids holds numbers only. *)
Lemma assignLayers_numeric fuel nodeMap todo :
  ∀ r st cache out cacheF,
    indexed nodeMap st →
    (∀ n p, n ∈ st → p ∈ prereqs_of n → inherited p = false) →
    (∀ n, n ∈ todo → inherited (id n) = false) →
    (∀ j w, cache !! j = Some w → ∃ k, w = LNum k) →
    assignLayers fuel nodeMap r todo st cache = Ok (out, cacheF) →
    ∀ j w, cacheF !! j = Some w → ∃ k, w = LNum k.
Proof.
  induction todo as [|n todo IH];
    intros r st cache out cacheF Hidx Hplain Htodo Hnum Hrun.
  - simpl in Hrun. by injection Hrun as <- <-.
  - simpl in Hrun.
    apply result_bind_Ok in Hrun as ([v c1] & Hcall & Hrun).
    destruct (computeLayer_numeric st nodeMap Hidx _ _ _ _ _ Hplain
                (Htodo n ltac:(by left)) Hnum Hcall) as [Hc1 _].
    set (st1 := alter (λ m, set_layer m v) r st) in *.
    assert (Hl1 : later st st1) by apply later_set_layer.
    apply (IH (S r) st1 c1 out cacheF); try done.
    + by eapply indexed_later.
    + intros q p Hq Hp.
      destruct (later_elem_of_r st st1 q Hl1 Hq) as (q0 & Hq0 & _ & Hpre).
      apply (Hplain q0 p Hq0). unfold prereqs_of in *. by rewrite <- Hpre.
    + intros q Hq. apply Htodo. by right.
Qed.

(** *** Layers of a graph with plain ids *)

Lemma later_unique st st' : later st st' → unique_ids st → unique_ids st'.
Proof.
  intros Hl Huniq. unfold unique_ids in *.
  assert (Heq : id <$> st' = id <$> st); [|by rewrite Heq].
  apply list_eq. intros r. rewrite !list_lookup_fmap.
  destruct (st !! r) as [n|] eqn:Hn.
  - destruct (later_lookup st st' r n Hl Hn) as (n' & -> & Hid & _). simpl.
    by rewrite Hid.
  - destruct (st' !! r) as [n'|] eqn:Hn'; [|done].
    destruct (later_lookup_r st st' r n' Hl Hn') as (n & Hn2 & _). congruence.
Qed.

Lemma unique_id_eq (st : list node) a b :
  unique_ids st → a ∈ st → b ∈ st → id a = id b → a = b.
Proof.
  intros Hnd Ha Hb Hid.
  apply list_elem_of_lookup in Ha as [i Hi], Hb as [j Hj].
  assert (i = j) as ->; [|congruence].
  eapply NoDup_lookup; [exact Hnd| |];
    rewrite list_lookup_fmap; [by rewrite Hi | by rewrite Hj, Hid].
Qed.

(** What layer assignment writes on a well-formed acyclic graph, read on
    the nodes: the value the cache reads under the id of the node, which
    obeys the layer equation of the node over the layers of the nodes its
    prereqs name. *)
Lemma computeLayers_entries nodes fuel :
  well_formed nodes → acyclic nodes → length nodes < fuel →
  ∃ out (look : string → option jslayer),
    computeLayers fuel nodes (buildNodeMap nodes) = Ok out
    ∧ later nodes out
    ∧ Forall2 (λ n n', ∃ v, n' = set_layer n v ∧ look (id n) = Some v) nodes out
    ∧ (∀ q, q ∈ out → look (id q) = layer q)
    ∧ (∀ i, inherited i = true → look i = Some (LInherited i))
    ∧ ∀ n' v, n' ∈ out → layer n' = Some v → inherited (id n') = false →
        layer_eqn look n' v.
Proof.
  intros [Huniq Hdang] Hacyc Hfuel.
  destruct (computeLayers_returns nodes fuel Hdang Hacyc Hfuel)
    as (out & cacheF & _ & Hrun & Hcons & Hl & Hall).
  assert (Hlook : ∀ q, q ∈ out → cacheGet cacheF (id q) = layer q).
  { intros q [r Hr]%list_elem_of_lookup.
    destruct (Forall2_lookup_r _ _ _ _ _ Hall Hr) as (n & _ & v & -> & Hv). done. }
  exists out, (cacheGet cacheF). split; [done|]. split; [done|]. split; [done|].
  split; [done|]. split.
  { intros i Hi. unfold cacheGet. destruct (cacheF !! i) as [w|] eqn:Hw.
    - destruct (Hcons i w Hw) as [Hinh _]. congruence.
    - by rewrite Hi. }
  intros n' v Hn' Hv Hinh.
  assert (Hc : cacheF !! id n' = Some v).
  { pose proof (Hlook n' Hn') as Hget.
    rewrite (cacheGet_plain cacheF (id n') Hinh) in Hget. congruence. }
  destruct (Hcons _ _ Hc) as [_ Hok]. unfold entry_ok in Hok.
  rewrite (nodeAt_exact out (buildNodeMap nodes) n') in Hok; [done| |done].
  eapply exact_later; [done | by apply buildNodeMap_exact].
Qed.

(** With plain ids every layer is a number, 0 on a node without prereqs
    and otherwise one more than the greatest layer among the nodes the
    prereqs name. *)
Lemma computeLayers_plain nodes fuel :
  well_formed nodes → acyclic nodes → plain_ids nodes → length nodes < fuel →
  ∃ out,
    computeLayers fuel nodes (buildNodeMap nodes) = Ok out
    ∧ later nodes out
    ∧ Forall2 (λ n n', ∃ v, n' = set_layer n (LNum v)) nodes out
    ∧ ∀ n', n' ∈ out →
        ∃ v, layer n' = Some (LNum v)
          ∧ ((prereqs_of n' = [] ∧ v = 0)
             ∨ (prereqs_of n' ≠ []
                ∧ ∃ ls, Forall2 (λ p lp, ∃ q, q ∈ out ∧ id q = p
                                           ∧ layer q = Some (LNum lp))
                          (prereqs_of n') ls
                        ∧ v = S (max_list ls))).
Proof.
  intros Hwf Hacyc Hplain Hfuel. pose proof Hwf as [Huniq Hdang].
  destruct (computeLayers_returns nodes fuel Hdang Hacyc Hfuel)
    as (out & cacheF & Hassign & Hrun & Hcons & Hl & Hall).
  assert (Hnum : ∀ j w, cacheF !! j = Some w → ∃ k, w = LNum k).
  { eapply (assignLayers_numeric fuel (buildNodeMap nodes) nodes 0 nodes ∅);
      [apply buildNodeMap_indexed | | | done | exact Hassign].
    - intros n p Hn Hp. by apply (proj2 (Hplain n Hn)).
    - intros n Hn. by apply (proj1 (Hplain n Hn)). }
  assert (Hplain' : ∀ q, q ∈ out →
            inherited (id q) = false
            ∧ ∀ p, p ∈ prereqs_of q → inherited p = false).
  { intros q Hq. destruct (later_elem_of_r nodes out q Hl Hq) as (q0 & Hq0 & -> & Hpre).
    unfold prereqs_of. rewrite Hpre. by apply Hplain. }
  assert (Hlayer : ∀ q, q ∈ out → ∃ k, layer q = Some (LNum k)
                                   ∧ cacheF !! id q = Some (LNum k)).
  { intros q Hq. pose proof Hq as [r Hr]%list_elem_of_lookup.
    destruct (Forall2_lookup_r _ _ _ _ _ Hall Hr) as (n & _ & v & -> & Hv).
    destruct (Hplain' _ Hq) as [Hinh _]. simpl in Hinh.
    rewrite (cacheGet_plain cacheF _ Hinh) in Hv.
    destruct (Hnum _ _ Hv) as [k ->]. by exists k. }
  exists out. split; [done|]. split; [done|]. split.
  { apply Forall2_same_length_lookup. split; [by eapply Forall2_length|].
    intros r n n' Hn Hn'.
    destruct (Forall2_lookup_l _ _ _ _ _ Hall Hn) as (n2 & Hn2 & v & -> & Hv).
    assert (n' = set_layer n v) as -> by congruence.
    destruct (Hlayer (set_layer n v)) as (k & Hk & _);
      [by eapply list_elem_of_lookup_2|].
    simpl in Hk. injection Hk as ->. by exists k. }
  intros n' Hn'. destruct (Hlayer n' Hn') as (v & Hv & Hc).
  exists v. split; [done|].
  destruct (Hcons _ _ Hc) as [_ Hok]. unfold entry_ok in Hok.
  rewrite (nodeAt_exact out (buildNodeMap nodes) n') in Hok; [| |done].
  2:{ eapply exact_later; [done | by apply buildNodeMap_exact]. }
  destruct Hok as [[Hnil [= ->]]|(Hne & ls & Hls & Hmax)]; [by left|].
  right. split; [done|].
  symmetry in Hmax. apply mathMax_LNum in Hmax as (ks & -> & ->).
  assert (Hlen : length (prereqs_of n') = length ks).
  { apply Forall2_length in Hls. by rewrite length_fmap in Hls. }
  exists ks. split.
  - apply Forall2_same_length_lookup. split; [done|].
    intros j p k Hp Hk.
    destruct (Forall2_lookup_l _ _ _ _ _ Hls Hp) as (lp & Hlp & Hget).
    rewrite list_lookup_fmap, Hk in Hlp. injection Hlp as <-.
    assert (Hin : p ∈ prereqs_of n') by by eapply list_elem_of_lookup_2.
    destruct (Hplain' n' Hn') as [_ Hps].
    rewrite (cacheGet_plain cacheF p (Hps p Hin)) in Hget.
    destruct (later_elem_of_r nodes out n' Hl Hn') as (n0 & Hn0 & _ & Hpre).
    destruct (Hdang n0 p Hn0) as (m & [r Hm]%list_elem_of_lookup & Hid).
    { unfold prereqs_of in *. by rewrite <- Hpre. }
    destruct (later_lookup nodes out r m Hl Hm) as (q & Hq & Hidq & _).
    assert (Hqin : q ∈ out) by by eapply list_elem_of_lookup_2.
    exists q. split; [done|]. split; [congruence|].
    destruct (Hlayer q Hqin) as (k' & Hk' & Hc').
    rewrite Hidq, Hid in Hc'. congruence.
  - apply max_list_succ. intros ->. by destruct (prereqs_of n').
Qed.

Lemma findById_unique st q :
  unique_ids st → q ∈ st → findById (id q) st = Some q.
Proof.
  unfold unique_ids. induction st as [|a st IH]; intros Huniq Hq.
  - by apply elem_of_nil in Hq.
  - simpl in Huniq. apply NoDup_cons in Huniq as [Ha Huniq]. simpl.
    apply elem_of_cons in Hq as [->|Hq]; [by rewrite decide_True|].
    rewrite decide_False; [by apply IH|].
    intros Heq. apply Ha. rewrite Heq. apply list_elem_of_fmap. by exists q.
Qed.

(** ** Claims on layer assignment *)

(** C3, on the code.  The cache of [computeLayers] is a plain object, so
    for an id that names a property of [Object.prototype] the test
    [cache[id] !== undefined] succeeds on the empty cache: the root
    "toString" gets the inherited function as its layer, not 0, and a node
    that requires it gets NaN.  On a well-formed acyclic graph in which no id
    and no prereq is such a name the pass returns (given more fuel than
    nodes), changes nothing but the layer fields, sets the layer field of
    every node to a number, and the layers satisfy: layer 0 when the node
    has no prereqs, and otherwise one more than the greatest layer among the
    nodes its prereqs name. *)
Theorem computeLayers_layer_equation :
  (λ r, match r with Ok ns => Some (layer <$> ns) | Err _ => None end)
    (computeLayers 2 protoRoot (buildNodeMap protoRoot))
  = Some [Some (LInherited "toString")]
  ∧ (λ r, match r with Ok ns => Some (layer <$> ns) | Err _ => None end)
      (computeLayers 3 protoChain (buildNodeMap protoChain))
    = Some [Some (LInherited "toString"); Some LNaN]
  ∧ ∀ nodes fuel,
      well_formed nodes → acyclic nodes → plain_ids nodes →
      length nodes < fuel →
      ∃ out,
        computeLayers fuel nodes (buildNodeMap nodes) = Ok out
        ∧ Forall2 (λ n n', ∃ v, n' = set_layer n (LNum v)) nodes out
        ∧ ∀ n', n' ∈ out →
            ∃ v, layer n' = Some (LNum v)
                 ∧ (prereqs_of n' = [] → v = 0)
                 ∧ (prereqs_of n' ≠ [] →
                    ∃ ls, Forall2 (λ p lp, layerOf out p = Some (LNum lp))
                            (prereqs_of n') ls
                          ∧ v = 1 + max_list ls).
Proof.
  split; [vm_compute; reflexivity|]. split; [vm_compute; reflexivity|].
  intros nodes fuel Hwf Hacyc Hplain Hfuel.
  destruct (computeLayers_plain nodes fuel Hwf Hacyc Hplain Hfuel)
    as (out & Hrun & Hl & Hall & Heqn).
  exists out. split; [done|]. split; [done|].
  intros n' Hn'. destruct (Heqn n' Hn') as (v & Hv & Hcase).
  exists v. split; [done|].
  destruct Hcase as [[Hnil ->]|(Hne & ls & Hls & ->)].
  - split; [done|]. intros Hne. done.
  - split; [done|]. intros _. exists ls. split; [|done].
    eapply Forall2_impl; [exact Hls|]. simpl. intros p lp (q & Hq & <- & Hlq).
    unfold layerOf. rewrite (findById_unique out q); [done| |done].
    eapply later_unique; [done | apply Hwf].
Qed.

(** The scenario of the specification: layers a:0, b:1, c:2. *)
Example scenario_layers :
  (λ r, match r with Ok ns => Some (layer <$> ns) | Err _ => None end)
    (computeLayers 4 scenario (buildNodeMap scenario))
  = Some [Some (LNum 0); Some (LNum 1); Some (LNum 2)].
Proof. vm_compute. reflexivity. Qed.

(** C5, as the code has it: on a well-formed graph with a cycle in the
    prereqs relation, no id of which names a property of
    [Object.prototype], layer assignment never returns layers.  There is no
    cycle check: whatever the recursion depth allowed, the recursion exhausts
    it, so the call neither reports a cycle error nor yields incorrect
    layers. *)
Theorem computeLayers_cycle_diverges nodes fuel i :
  well_formed nodes → plain_ids nodes → on_cycle nodes i →
  computeLayers fuel nodes (buildNodeMap nodes) = Err Diverges.
Proof.
  intros [Huniq Hdang] Hplain Hcyc.
  apply (computeLayers_cycle nodes fuel i Huniq); [|done|done].
  intros n Hn. by apply (proj1 (Hplain n Hn)).
Qed.

Lemma selfLoop_on_cycle : on_cycle selfLoop "a".
Proof.
  apply downstream_step. exists (mk "a" required (Some ["a"])).
  split; [by left|]. split; [done|]. by left.
Qed.

Lemma computeLayers_cycle_diverges_witness :
  computeLayers 10 selfLoop (buildNodeMap selfLoop) = Err Diverges.
Proof.
  apply (computeLayers_cycle_diverges selfLoop 10 "a").
  - apply well_formed_b_true. vm_compute. reflexivity.
  - apply plain_ids_b_true. vm_compute. reflexivity.
  - exact selfLoop_on_cycle.
Defined.

(** C5 as stated fails on the node that requires itself: the graph is
    well-formed and cyclic, and for every fuel the outcome is the exhausted
    recursion, never a cycle error. *)
Lemma computeLayers_selfLoop_no_cycle_error :
  well_formed selfLoop ∧ on_cycle selfLoop "a"
  ∧ ∀ fuel, computeLayers fuel selfLoop (buildNodeMap selfLoop) = Err Diverges.
Proof.
  assert (Hwf : well_formed selfLoop).
  { apply well_formed_b_true. vm_compute. reflexivity. }
  split; [done|]. split; [exact selfLoop_on_cycle|].
  intros fuel. destruct Hwf as [Huniq Hdang].
  apply (computeLayers_cycle selfLoop fuel "a" Huniq); [|exact selfLoop_on_cycle|done].
  intros n [->|Hn]%elem_of_cons; [done | by apply elem_of_nil in Hn].
Qed.

(** ** Layout: groups, shapes and placement *)

Lemma elem_of_groupFrom start st L r :
  r ∈ groupFrom start st L ↔
    ∃ n, start ≤ r ∧ st !! (r - start) = Some n ∧ layer n = Some (LNum L).
Proof.
  revert start. induction st as [|a st IH]; intros start; simpl.
  - split; [by intros ?%elem_of_nil | by intros (n & _ & ? & _)].
  - assert (Hrest : r ∈ groupFrom (S start) st L ↔
              ∃ n, S start ≤ r ∧ (a :: st) !! (r - start) = Some n
                   ∧ layer n = Some (LNum L)).
    { rewrite IH. split; intros (n & Hle & Hn & Hl); exists n;
        (split; [done|]); (split; [|done]).
      - replace (r - start) with (S (r - S start)) by lia. done.
      - replace (r - start) with (S (r - S start)) in Hn by lia. done. }
    destruct (decide (layer a = Some (LNum L))) as [Ha|Ha].
    + rewrite elem_of_cons, Hrest. split.
      * intros [->|(n & Hle & Hn & Hl)].
        -- exists a. rewrite Nat.sub_diag. done.
        -- exists n. split; [lia | done].
      * intros (n & Hle & Hn & Hl).
        destruct (decide (r = start)) as [|Hne]; [by left|].
        right. exists n. split; [lia | done].
    + rewrite Hrest. split.
      * intros (n & Hle & Hn & Hl). exists n. split; [lia | done].
      * intros (n & Hle & Hn & Hl).
        destruct (decide (r = start)) as [->|Hne].
        -- rewrite Nat.sub_diag in Hn. simpl in Hn. congruence.
        -- exists n. split; [lia | done].
Qed.

Lemma elem_of_group st L r :
  r ∈ groupFrom 0 st L ↔ ∃ n, st !! r = Some n ∧ layer n = Some (LNum L).
Proof.
  rewrite elem_of_groupFrom. rewrite Nat.sub_0_r. split.
  - intros (n & _ & ? & ?). by exists n.
  - intros (n & ? & ?). exists n. split; [lia | done].
Qed.

(** A group lists its references in input order. *)
Lemma groupFrom_increasing start st L :
  StronglySorted lt (groupFrom start st L).
Proof.
  revert start. induction st as [|a st IH]; intros start; simpl; [constructor|].
  destruct (decide (layer a = Some (LNum L))); [|apply IH].
  constructor; [apply IH|]. apply Forall_forall. intros r Hr.
  apply elem_of_groupFrom in Hr as (n & Hle & _). lia.
Qed.

Lemma StronglySorted_lt_NoDup (l : list nat) : StronglySorted lt l → NoDup l.
Proof.
  induction 1 as [|a l _ IH Hall]; constructor; [|done].
  intros Ha. rewrite Forall_forall in Hall. specialize (Hall a Ha). lia.
Qed.

Lemma groupFrom_NoDup start st L : NoDup (groupFrom start st L).
Proof. apply StronglySorted_lt_NoDup, groupFrom_increasing. Qed.

Lemma groupFrom_shape start st L :
  groupFrom start (shape st) L = groupFrom start st L.
Proof.
  revert start. induction st as [|a st IH]; intros start; simpl; [done|].
  change (layer (unplaced a)) with (layer a). by rewrite IH.
Qed.

Lemma layerNum_Some n l : layerNum n = Some l ↔ layer n = Some (LNum l).
Proof.
  unfold layerNum. destruct (layer n) as [[k| |key]|]; split; congruence.
Qed.

Lemma mapM_layer_shape st : mapM layerNum (shape st) = mapM layerNum st.
Proof.
  apply option_eq. intros ls. unfold shape.
  rewrite !mapM_Some, Forall2_fmap_l. split; intros H; exact H.
Qed.

Lemma maxLayer_shape st : maxLayer (shape st) = maxLayer st.
Proof.
  destruct st as [|a st]; [done|].
  change (maxLayer (shape (a :: st)))
    with (mapM layerNum (shape (a :: st)) ≫= λ ls, Some (max_list ls)).
  by rewrite mapM_layer_shape.
Qed.

(** Under a defined loop bound every layer is a number within the bound. *)
Lemma maxLayer_bound st m n :
  maxLayer st = Some m → n ∈ st → ∃ l, layer n = Some (LNum l) ∧ l ≤ m.
Proof.
  intros Hm Hn. destruct st as [|a st]; [done|].
  unfold maxLayer in Hm.
  destruct (mapM layerNum (a :: st)) as [ls|] eqn:Hls; [|done].
  simpl in Hm. injection Hm as <-.
  apply mapM_Some in Hls.
  apply list_elem_of_lookup in Hn as [k Hk].
  destruct (Forall2_lookup_l _ _ _ _ _ Hls Hk) as (l & Hl & Hln).
  exists l. split; [by apply layerNum_Some|]. apply max_list_elem_of_le.
  by eapply list_elem_of_lookup_2.
Qed.

Lemma lookup_shape st st' r n :
  shape st = shape st' → st !! r = Some n →
  ∃ n', st' !! r = Some n' ∧ unplaced n' = unplaced n.
Proof.
  intros Hsh Hn.
  assert (H : shape st' !! r = Some (unplaced n)).
  { rewrite <- Hsh. unfold shape. by rewrite list_lookup_fmap, Hn. }
  unfold shape in H. rewrite list_lookup_fmap in H.
  destruct (st' !! r) as [n'|]; [|done]. simpl in H.
  exists n'. split; [done|]. congruence.
Qed.

Lemma unplaced_fields n n' :
  unplaced n' = unplaced n →
  id n' = id n ∧ prereqs n' = prereqs n ∧ layer n' = layer n.
Proof. intros H. by injection H. Qed.

Lemma set_xy_unplaced vx vy n n' :
  unplaced n' = unplaced n → set_xy vx vy n' = set_xy vx vy n.
Proof. unfold set_xy. intros H. injection H as -> -> -> -> ->. done. Qed.

Lemma placeFrom_shape k sx step vy order st :
  shape (placeFrom k sx step vy order st) = shape st.
Proof.
  revert k st. induction order as [|r order IH]; intros k st; simpl; [done|].
  rewrite IH. unfold shape.
  rewrite (list_fmap_alter unplaced _ (λ n, n)); [by apply list_alter_id|].
  by apply Forall_forall.
Qed.

Lemma placeFrom_lookup_notin k sx step vy order st r :
  r ∉ order → placeFrom k sx step vy order st !! r = st !! r.
Proof.
  revert k st. induction order as [|a order IH]; intros k st Hr; simpl; [done|].
  apply not_elem_of_cons in Hr as [Hne Hr].
  rewrite IH by done. by apply list_lookup_alter_ne.
Qed.

Lemma placeFrom_lookup_in k sx step vy order st j r n :
  NoDup order → order !! j = Some r → st !! r = Some n →
  placeFrom k sx step vy order st !! r
  = Some (set_xy (sx + num_of_nat (k + j) * step)%float vy n).
Proof.
  revert k st j. induction order as [|a order IH]; intros k st j Hnd Hj Hn; [done|].
  apply NoDup_cons in Hnd as [Ha Hnd]. simpl. destruct j as [|j]; simpl in Hj.
  - injection Hj as ->. rewrite placeFrom_lookup_notin by done.
    rewrite list_lookup_alter_eq, Hn. simpl. by rewrite Nat.add_0_r.
  - assert (Hne : a ≠ r).
    { intros ->. apply Ha. by eapply list_elem_of_lookup_2. }
    rewrite (IH (S k) _ j); [|done|done|].
    + by replace (S k + j) with (k + S j) by lia.
    + by rewrite list_lookup_alter_ne.
Qed.

(** ** Layout: keys and the stable sort *)

Lemma insertByKey_Permutation a l : insertByKey a l ≡ₚ a :: l.
Proof.
  induction l as [|b l IH]; simpl; [done|].
  destruct (goesAfter a.1 b.1); [|done].
  rewrite IH. apply Permutation_swap.
Qed.

Lemma sortByKey_Permutation l : sortByKey l ≡ₚ l.
Proof.
  induction l as [|a l IH]; simpl; [done|].
  by rewrite insertByKey_Permutation, IH.
Qed.

(** An element that the comparator does not put after [b] comes before
    everything [b] comes before. *)
Lemma keyOrder_trans_head ks (a b c : float * nat) :
  consistent_comparator ks → a.1 ∈ ks → b.1 ∈ ks → c.1 ∈ ks →
  goesAfter a.1 b.1 = false → keyOrder b c → a.2 < c.2 → keyOrder a c.
Proof.
  intros Hcons Ha Hb Hc Hab Hbc Hac.
  pose proof Hcons as (Hanti & Htrans & Htied).
  unfold keyOrder.
  destruct (goesBefore a.1 c.1) eqn:Hbef; [by left|].
  destruct (goesAfter a.1 c.1) eqn:Haft; [|by right].
  exfalso. rewrite (Hanti a.1 c.1) in Haft by done.
  destruct (goesBefore a.1 b.1) eqn:Hbab.
  - destruct Hbc as [Hbc|[Hbc _]].
    + pose proof (Htrans _ _ _ Ha Hb Hc Hbab Hbc). congruence.
    + pose proof (Htrans _ _ _ Hc Ha Hb Haft Hbab) as Hcb.
      destruct Hbc as [_ Hbc]. rewrite (Hanti b.1 c.1) in Hbc by done. congruence.
  - destruct Hbc as [Hbc|[Hbc _]].
    + pose proof (Htrans _ _ _ Hb Hc Ha Hbc Haft) as Hba.
      rewrite (Hanti a.1 b.1) in Hab by done. congruence.
    + assert (Htab : tied a.1 b.1) by done.
      destruct (Htied _ _ _ Ha Hb Hc Htab Hbc) as [_ Hca].
      rewrite (Hanti a.1 c.1) in Hca by done. congruence.
Qed.

Lemma insertByKey_sorted ks a l :
  consistent_comparator ks → a.1 ∈ ks → Forall (λ b, b.1 ∈ ks) l →
  StronglySorted keyOrder l → Forall (λ b, a.2 < b.2) l →
  StronglySorted keyOrder (insertByKey a l).
Proof.
  intros Hcons Ha Hks Hl. revert Hks.
  induction Hl as [|b l Hl IH Hb]; intros Hks Hlt; simpl.
  - repeat constructor.
  - apply Forall_cons in Hlt as [Hab Hlt]. apply Forall_cons in Hks as [Hbk Hks].
    destruct (goesAfter a.1 b.1) eqn:Haft.
    + constructor; [by apply IH|].
      rewrite insertByKey_Permutation. constructor; [|done].
      left. destruct Hcons as (Hanti & _). by rewrite <- (Hanti a.1 b.1).
    + constructor; [by constructor|]. constructor.
      * unfold keyOrder. destruct (goesBefore a.1 b.1) eqn:Hbef; [by left|].
        by right.
      * rewrite Forall_forall in Hb, Hlt, Hks. apply Forall_forall. intros c Hc.
        eapply (keyOrder_trans_head ks a b c); try done; [by apply Hks | by apply Hb | by apply Hlt].
Qed.

(** The sort is stable: under a consistent comparator, keyed references
    that come in input order leave ordered by key, ties by input
    position. *)
Lemma sortByKey_sorted_in ks l :
  consistent_comparator ks → Forall (λ b, b.1 ∈ ks) l →
  StronglySorted lt (snd <$> l) → StronglySorted keyOrder (sortByKey l).
Proof.
  intros Hcons. induction l as [|a l IH]; simpl; intros Hin Hl; [constructor|].
  apply Forall_cons in Hin as [Ha Hin].
  apply StronglySorted_inv in Hl as [Hl Hlt].
  apply (insertByKey_sorted ks); [done | done | | by apply IH |].
  - by rewrite sortByKey_Permutation.
  - rewrite sortByKey_Permutation. apply Forall_forall. intros b Hb.
    rewrite Forall_forall in Hlt. apply Hlt. apply list_elem_of_fmap. by exists b.
Qed.

Lemma sortByKey_sorted l :
  consistent_comparator (fst <$> l) → StronglySorted lt (snd <$> l) →
  StronglySorted keyOrder (sortByKey l).
Proof.
  intros Hcons. apply (sortByKey_sorted_in (fst <$> l)); [done|].
  apply Forall_forall. intros b Hb. apply list_elem_of_fmap. by exists b.
Qed.

Lemma StronglySorted_lookup {A} (R : relation A) l i j a b :
  StronglySorted R l → i < j → l !! i = Some a → l !! j = Some b → R a b.
Proof.
  intros Hl. revert i j. induction Hl as [|c l _ IH Hc]; intros i j Hij Hi Hj; [done|].
  destruct j as [|j]; [lia|]. simpl in Hj. destruct i as [|i]; simpl in Hi.
  - injection Hi as ->. rewrite Forall_forall in Hc. apply Hc.
    by eapply list_elem_of_lookup_2.
  - eapply (IH i j); [lia | done | done].
Qed.

Lemma consistent_comparator_b_true ks :
  consistent_comparator_b ks = true → consistent_comparator ks.
Proof.
  unfold consistent_comparator_b. intros H.
  assert (Hall : ∀ a b c, a ∈ ks → b ∈ ks → c ∈ ks →
            goesAfter a b = goesBefore b a
            ∧ (goesBefore a b = true → goesBefore b c = true →
               goesBefore a c = true)
            ∧ (tied a b → tied b c → tied a c)).
  { intros a b c Ha Hb Hc. rewrite forallb_forall in H.
    apply list_elem_of_In in Ha. specialize (H a Ha). rewrite forallb_forall in H.
    apply list_elem_of_In in Hb. specialize (H b Hb).
    apply andb_true_iff in H as [Hanti H]. apply bool_decide_eq_true in Hanti.
    rewrite forallb_forall in H. apply list_elem_of_In in Hc. specialize (H c Hc).
    apply andb_true_iff in H as [Htr Hti]. split; [done|]. split.
    - intros Hab Hbc. rewrite Hab, Hbc in Htr. done.
    - intros [Hab1 Hab2] [Hbc1 Hbc2]. rewrite Hab1, Hab2, Hbc1, Hbc2 in Hti.
      simpl in Hti. apply andb_true_iff in Hti as [H1 H2].
      apply negb_true_iff in H1, H2. done. }
  split; [|split].
  - intros a b Ha Hb. by apply (Hall a b a).
  - intros a b c Ha Hb Hc. by apply (Hall a b c).
  - intros a b c Ha Hb Hc. by apply (Hall a b c).
Qed.

Lemma sumX_ext st st' nodeMap s ps :
  (∀ p, p ∈ ps → nodeAt st nodeMap p = nodeAt st' nodeMap p) →
  sumX st nodeMap s ps = sumX st' nodeMap s ps.
Proof.
  revert s. induction ps as [|p ps IH]; intros s Hp; simpl; [done|].
  rewrite <- (Hp p) by by left.
  destruct (nodeAt st nodeMap p); [|apply IH|done]; try apply IH;
    intros q Hq; apply Hp; by right.
Qed.

Lemma sumX_total st nodeMap s ps :
  (∀ p, p ∈ ps → nodeAt st nodeMap p ≠ IsUndefined) →
  ∃ s', sumX st nodeMap s ps = Ok s'.
Proof.
  revert s. induction ps as [|p ps IH]; intros s Hp; simpl; [by eexists|].
  assert (Hrest : ∀ q, q ∈ ps → nodeAt st nodeMap q ≠ IsUndefined).
  { intros q Hq. apply Hp. by right. }
  destruct (nodeAt st nodeMap p) eqn:Hn; [by apply IH | by apply IH |].
  destruct (Hp p); [by left | done].
Qed.

(** The sum the comparator folds is the sum of the [x] of the prereqs. *)
Lemma sumX_foldl st nodeMap ps : ∀ s xs,
  Forall2 (λ p v, ∃ q, nodeAt st nodeMap p = IsNode q ∧ v = xOrZero q) ps xs →
  sumX st nodeMap s ps = Ok (foldl PrimFloat.add s xs).
Proof.
  induction ps as [|p ps IH]; intros s xs Hxs.
  - apply Forall2_nil_inv_l in Hxs as ->. done.
  - apply Forall2_cons_inv_l in Hxs as (v & xs' & (q & Hq & ->) & Hxs & ->).
    simpl. rewrite Hq. by apply IH.
Qed.

Section layout_keys.
Variable nodeMap : gmap string nat.

Lemma layered_sortable st : layered nodeMap st → sortable nodeMap st.
Proof.
  intros Hlay n k [r Hr]%list_elem_of_lookup Hl.
  destruct (Hlay r n Hr) as (ln & Hln & Hps).
  assert (ln = S k) as -> by congruence.
  destruct Hps as (ps & Hpre & _ & Hres); [lia|].
  exists ps. split; [done|]. intros p Hp.
  destruct (Hres p Hp) as (rq & q & lq & ? & ? & _). by exists rq, q.
Qed.

Lemma sortable_shape st st' :
  sortable nodeMap st → shape st = shape st' → sortable nodeMap st'.
Proof.
  intros Hs Hsh n' k [r Hr]%list_elem_of_lookup Hl.
  destruct (lookup_shape st' st r n' (eq_sym Hsh) Hr) as (n & Hn & Hun).
  apply unplaced_fields in Hun as (_ & Hpre & Hlay).
  destruct (Hs n k) as (ps & Hps & Hres);
    [by eapply list_elem_of_lookup_2 | congruence |].
  exists ps. split; [congruence|]. intros p Hp.
  destruct (Hres p Hp) as (rq & q & Hrq & Hq).
  destruct (lookup_shape st st' rq q Hsh Hq) as (q' & Hq' & _). by exists rq, q'.
Qed.

(** A node of a positive layer of a sortable store has a key. *)
Lemma barycenter_total st n k :
  sortable nodeMap st → n ∈ st → layer n = Some (LNum (S k)) →
  ∃ key, barycenter st nodeMap n = Ok key.
Proof.
  intros Hs Hn Hl. destruct (Hs n k Hn Hl) as (ps & Hpre & Hres).
  unfold barycenter. rewrite Hpre.
  destruct (sumX_total st nodeMap 0%float ps) as [s' ->]; [|by eexists].
  intros p Hp. destruct (Hres p Hp) as (rq & q & Hrq & Hq).
  assert (Hnode : nodeAt st nodeMap p = IsNode q); [|by rewrite Hnode].
  apply nodeAt_IsNode. by exists rq.
Qed.

(** In a layered store the key of a node of a positive layer is the mean
    [x] of its prereqs. *)
Lemma keyOf_barycenter st r n L :
  layered nodeMap st → st !! r = Some n → layer n = Some (LNum L) → 0 < L →
  ∃ k, barycenter st nodeMap n = Ok k ∧ keyOf st nodeMap r = Some k.
Proof.
  intros Hlay Hn HL Hpos.
  destruct (Hlay r n Hn) as (ln & Hln & Hps).
  assert (ln = L) as -> by congruence.
  destruct (Hps Hpos) as (ps & Hpre & Hne & Hres).
  assert (Hxs : ∃ xs, Forall2 (λ p v, ∃ q, nodeAt st nodeMap p = IsNode q
                                        ∧ v = xOrZero q) ps xs).
  { clear Hne Hpre. induction ps as [|p ps IH]; [by exists []|].
    destruct IH as [xs Hxs]; [intros q Hq; apply Hres; by right|].
    destruct (Hres p) as (rq & q & lq & Hrq & Hq & _); [by left|].
    exists (xOrZero q :: xs). constructor; [|done]. exists q. split; [|done].
    apply nodeAt_IsNode. by exists rq. }
  destruct Hxs as [xs Hxs].
  assert (Hlen : length xs = length ps) by (symmetry; by eapply Forall2_length).
  exists (meanX xs). split.
  - unfold barycenter. rewrite Hpre. rewrite (sumX_foldl st nodeMap ps _ xs Hxs).
    simpl. unfold meanX, lengthOrOne. rewrite decide_False; [by rewrite Hlen|].
    by destruct ps.
  - unfold keyOf. rewrite Hn. simpl. unfold prereqs_of. rewrite Hpre. simpl.
    assert (Hm : mapM (λ p, match nodeAt st nodeMap p with
                            | IsNode q => Some (xOrZero q)
                            | _ => None
                            end) ps = Some xs).
    { apply mapM_Some. eapply Forall2_impl; [exact Hxs|]. simpl.
      intros p v (q & -> & ->). done. }
    by rewrite Hm.
Qed.

Lemma barycenter_agree st st' r n n' L :
  layered nodeMap st → agree_below L st st' →
  st !! r = Some n → st' !! r = Some n' → layer n = Some (LNum L) → 0 < L →
  barycenter st' nodeMap n' = barycenter st nodeMap n.
Proof.
  intros Hlay [Hsh Hag] Hn Hn' HL Hpos.
  destruct (Hlay r n Hn) as (ln & Hln & Hps).
  assert (ln = L) as -> by congruence.
  destruct (Hps Hpos) as (ps & Hpre & _ & Hres).
  destruct (lookup_shape st st' r n Hsh Hn) as (m & Hm & Hun).
  assert (m = n') as -> by congruence.
  apply unplaced_fields in Hun as (_ & Hpre' & _).
  unfold barycenter. rewrite Hpre', Hpre.
  rewrite (sumX_ext st' st nodeMap 0%float ps); [done|].
  intros p Hp. destruct (Hres p Hp) as (rq & q & lq & Hrq & Hq & Hlq & Hlt).
  assert (Hq' : st' !! rq = Some q) by by eapply Hag.
  transitivity (IsNode q); [|symmetry]; apply nodeAt_IsNode; by exists rq.
Qed.

Lemma layered_shape st st' :
  layered nodeMap st → shape st = shape st' → layered nodeMap st'.
Proof.
  intros Hlay Hsh r n' Hn'.
  destruct (lookup_shape st' st r n' (eq_sym Hsh) Hn') as (n & Hn & Hun).
  apply unplaced_fields in Hun as (_ & Hpre & Hl).
  destruct (Hlay r n Hn) as (ln & Hln & Hps).
  exists ln. split; [congruence|]. intros Hpos.
  destruct (Hps Hpos) as (ps & Hpsn & Hne & Hres).
  exists ps. split; [congruence|]. split; [done|]. intros p Hp.
  destruct (Hres p Hp) as (rq & q & lq & Hrq & Hq & Hlq & Hlt).
  destruct (lookup_shape st st' rq q Hsh Hq) as (q' & Hq' & Hun').
  apply unplaced_fields in Hun' as (_ & _ & Hl').
  exists rq, q', lq. split; [done|]. split; [done|]. split; [congruence | done].
Qed.

(** The key of a node of layer [L] does not change with the nodes of the
    layers from [L] on. *)
Lemma keyOf_agree st st' r n L :
  layered nodeMap st → agree_below L st st' →
  st !! r = Some n → layer n = Some (LNum L) → 0 < L →
  keyOf st' nodeMap r = keyOf st nodeMap r.
Proof.
  intros Hlay Hag Hn HL Hpos.
  destruct (lookup_shape st st' r n (proj1 Hag) Hn) as (n' & Hn' & Hun).
  apply unplaced_fields in Hun as (_ & _ & Hl').
  destruct (keyOf_barycenter st r n L Hlay Hn HL Hpos) as (k & Hk & ->).
  destruct (keyOf_barycenter st' r n' L) as (k' & Hk' & ->);
    [by eapply layered_shape; [|exact (proj1 Hag)] | done | congruence | done |].
  rewrite (barycenter_agree st st' r n n' L) in Hk' by done. congruence.
Qed.

Lemma keysOf_total st group :
  sortable nodeMap st →
  (∀ r, r ∈ group → ∃ n k, st !! r = Some n ∧ layer n = Some (LNum (S k))) →
  ∃ ks, keysOf st nodeMap group = Ok ks
        ∧ snd <$> ks = group
        ∧ ∀ k r, (k, r) ∈ ks →
            ∃ n, st !! r = Some n ∧ barycenter st nodeMap n = Ok k.
Proof.
  intros Hs. induction group as [|r group IH]; intros Hgrp; simpl.
  - exists []. split; [done|]. split; [done|]. intros k r Hk.
    by apply elem_of_nil in Hk.
  - destruct (Hgrp r) as (n & l & Hn & HL); [by left|]. rewrite Hn.
    destruct (barycenter_total st n l Hs) as [k Hk];
      [by eapply list_elem_of_lookup_2 | done |].
    rewrite Hk.
    destruct IH as (ks & -> & Hsnd & Hks).
    { intros r' Hr'. apply Hgrp. by right. }
    simpl. exists ((k, r) :: ks). split; [done|]. split; [by rewrite <- Hsnd|].
    intros k' r' [Heq|Hin]%elem_of_cons.
    + injection Heq as -> ->. by exists n.
    + by apply Hks.
Qed.

Lemma keysOf_agree st st' group L :
  layered nodeMap st → agree_below L st st' → 0 < L →
  (∀ r, r ∈ group → ∃ n, st !! r = Some n ∧ layer n = Some (LNum L)) →
  keysOf st' nodeMap group = keysOf st nodeMap group.
Proof.
  intros Hlay Hag Hpos. induction group as [|r group IH]; intros Hgrp; simpl; [done|].
  destruct (Hgrp r) as (n & Hn & HL); [by left|]. rewrite Hn.
  destruct (lookup_shape st st' r n (proj1 Hag) Hn) as (n' & Hn' & _).
  rewrite Hn'.
  rewrite (barycenter_agree st st' r n n' L) by done.
  rewrite IH; [done|]. intros r' Hr'. apply Hgrp. by right.
Qed.

Lemma group_positive st L r :
  0 < L → r ∈ groupFrom 0 st L →
  ∃ n k, st !! r = Some n ∧ layer n = Some (LNum (S k)).
Proof.
  intros Hpos (n & Hn & HL)%elem_of_group. exists n, (L - 1).
  split; [done|]. by replace (S (L - 1)) with L by lia.
Qed.

(** The sort of a group of a positive layer returns a rearrangement of the
    group. *)
Lemma sortGroup_total st L :
  sortable nodeMap st → 0 < L →
  ∃ order,
    sortGroup st nodeMap (groupFrom 0 st L) = Ok order
    ∧ order ≡ₚ groupFrom 0 st L.
Proof.
  intros Hs Hpos. unfold sortGroup. case_decide; [by eexists|].
  destruct (keysOf_total st (groupFrom 0 st L) Hs) as (ks & -> & Hsnd & _).
  { intros r Hr. by apply (group_positive st L). }
  simpl. eexists. split; [done|]. by rewrite sortByKey_Permutation, Hsnd.
Qed.

(** In a layered store every node of a group of a positive layer has its
    key, and under a consistent comparator the sort leaves the group ordered
    by key. *)
Lemma sortGroup_spec st L order :
  layered nodeMap st → 0 < L →
  sortGroup st nodeMap (groupFrom 0 st L) = Ok order →
  ∃ ks, mapM (keyOf st nodeMap) (groupFrom 0 st L) = Some ks
        ∧ (consistent_comparator ks → ordered_by_key st nodeMap order).
Proof.
  intros Hlay Hpos Hsort.
  destruct (keysOf_total st (groupFrom 0 st L) (layered_sortable st Hlay))
    as (kr & Hkr & Hsnd & Hall).
  { intros r Hr. by apply (group_positive st L). }
  assert (Hkey : ∀ k r, (k, r) ∈ kr → keyOf st nodeMap r = Some k).
  { intros k r Hin. destruct (Hall k r Hin) as (n & Hn & Hb).
    assert (Hr : r ∈ groupFrom 0 st L).
    { rewrite <- Hsnd. apply list_elem_of_fmap. by exists (k, r). }
    apply elem_of_group in Hr as (n' & Hn' & HL).
    assert (n' = n) as -> by congruence.
    destruct (keyOf_barycenter st r n L Hlay Hn HL Hpos) as (k' & Hk' & ->).
    congruence. }
  exists (fst <$> kr). split.
  { apply mapM_Some. rewrite <- Hsnd. apply Forall2_fmap.
    apply Forall_Forall2_diag, Forall_forall. intros [k r] Hin. by apply Hkey. }
  intros Hcons. unfold sortGroup in Hsort. case_decide as Hlen.
  - injection Hsort as <-. intros a b ra rb Hab Ha Hb.
    apply lookup_lt_Some in Hb. lia.
  - rewrite Hkr in Hsort. simpl in Hsort. injection Hsort as <-.
    assert (Hsorted : StronglySorted keyOrder (sortByKey kr)).
    { apply sortByKey_sorted; [done|]. rewrite Hsnd. apply groupFrom_increasing. }
    intros a b ra rb Hab Ha Hb.
    rewrite list_lookup_fmap in Ha, Hb.
    destruct (sortByKey kr !! a) as [[ka ra']|] eqn:Hka; [|done].
    destruct (sortByKey kr !! b) as [[kb rb']|] eqn:Hkb; [|done].
    simpl in Ha, Hb. injection Ha as ->. injection Hb as ->.
    exists ka, kb. split; [|split].
    + apply Hkey. rewrite <- (sortByKey_Permutation kr).
      by eapply list_elem_of_lookup_2.
    + apply Hkey. rewrite <- (sortByKey_Permutation kr).
      by eapply list_elem_of_lookup_2.
    + by eapply (StronglySorted_lookup keyOrder _ a b).
Qed.

Lemma sortGroup_agree st st' L :
  layered nodeMap st → agree_below L st st' → 0 < L →
  sortGroup st' nodeMap (groupFrom 0 st L)
  = sortGroup st nodeMap (groupFrom 0 st L).
Proof.
  intros Hlay Hag Hpos. unfold sortGroup. case_decide; [done|].
  rewrite (keysOf_agree st st' _ L); [done | done | done | done |].
  intros r Hr. by apply elem_of_group.
Qed.

End layout_keys.

(** ** Layout: the loop over layers *)

Lemma mapM_ext_in {A B} (f g : A → option B) (l : list A) :
  (∀ a, a ∈ l → f a = g a) → mapM f l = mapM g l.
Proof.
  intros Hfg. apply option_eq. intros k. rewrite !mapM_Some.
  split; intros H; apply Forall2_same_length_lookup;
    (split; [by eapply Forall2_length|]); intros i a b Ha Hb;
    destruct (Forall2_lookup_l _ _ _ _ _ H Ha) as (b' & Hb' & Hab);
    assert (b' = b) as -> by congruence;
    [rewrite <- Hfg | rewrite Hfg]; try done; by eapply list_elem_of_lookup_2.
Qed.

Section layout_loop.
Variables (W H : Z) (d : dims) (nodeMap : gmap string nat) (maxL : nat).

(** One iteration places the group of its layer, in input order on layer 0
    and as the sort leaves it on the layers below. *)
Lemma renderLayer_total st L :
  sortable nodeMap st →
  ∃ order,
    order ≡ₚ groupFrom 0 st L
    ∧ (L = 0 → order = groupFrom 0 st L)
    ∧ (if decide (0 < L) then sortGroup st nodeMap (groupFrom 0 st L)
       else Ok (groupFrom 0 st L)) = Ok order
    ∧ renderLayer W H d nodeMap maxL st L
      = Ok (placeFrom 0 (startXOf W d (length order))
              (nodeWidth d + nodeGap d)%float (yOf H d maxL L) order st).
Proof.
  intros Hs. unfold renderLayer. case_decide as Hpos.
  - destruct (sortGroup_total nodeMap st L Hs Hpos) as (order & Hsort & Hperm).
    exists order. rewrite Hsort. simpl.
    split; [done|]. split; [lia|]. done.
  - exists (groupFrom 0 st L). simpl.
    split; [done|]. split; [done|]. done.
Qed.

(** An iteration writes only to the nodes of its layer. *)
Lemma renderLayer_frame st L st1 :
  sortable nodeMap st → renderLayer W H d nodeMap maxL st L = Ok st1 →
  shape st1 = shape st
  ∧ ∀ r n, st !! r = Some n → layer n ≠ Some (LNum L) → st1 !! r = Some n.
Proof.
  intros Hs Hrun.
  destruct (renderLayer_total st L Hs) as (order & Hperm & _ & _ & Hstep).
  rewrite Hstep in Hrun. injection Hrun as <-.
  split; [apply placeFrom_shape|]. intros r n Hn Hl.
  rewrite placeFrom_lookup_notin; [done|].
  rewrite Hperm. intros (m & Hm & HL)%elem_of_group. congruence.
Qed.

(** Two stores that agree below layer [L] agree below [L + 1] after the
    iteration for [L]. *)
Lemma renderLayer_agree st st' L st1 :
  layered nodeMap st → agree_below L st st' →
  renderLayer W H d nodeMap maxL st L = Ok st1 →
  ∃ st1', renderLayer W H d nodeMap maxL st' L = Ok st1'
          ∧ agree_below (S L) st1 st1'.
Proof.
  intros Hlay Hag Hrun.
  destruct (renderLayer_total st L (layered_sortable nodeMap st Hlay))
    as (order & Hperm & _ & Hord & Hstep).
  rewrite Hstep in Hrun. injection Hrun as <-.
  assert (Hgrp : groupFrom 0 st' L = groupFrom 0 st L).
  { rewrite <- (groupFrom_shape 0 st'), <- (proj1 Hag). apply groupFrom_shape. }
  assert (Hord' : (if decide (0 < L) then sortGroup st' nodeMap (groupFrom 0 st' L)
                   else Ok (groupFrom 0 st' L)) = Ok order).
  { rewrite Hgrp. case_decide; [|done]. by rewrite (sortGroup_agree nodeMap st st' L). }
  eexists. split.
  { unfold renderLayer. rewrite Hord'. simpl. reflexivity. }
  destruct Hag as [Hsh Hag]. split.
  { by rewrite !placeFrom_shape. }
  intros r n l Hn Hl Hlt.
  assert (Hnd : NoDup order).
  { rewrite Hperm. apply groupFrom_NoDup. }
  destruct (decide (r ∈ order)) as [Hr|Hr].
  - pose proof Hr as Hr'. rewrite Hperm in Hr'.
    apply elem_of_group in Hr' as (n0 & Hn0 & HL0).
    apply list_elem_of_lookup in Hr as [j Hj].
    destruct (lookup_shape st st' r n0 Hsh Hn0) as (n0' & Hn0' & Hun).
    rewrite (placeFrom_lookup_in _ _ _ _ _ _ j r n0) in Hn by done.
    rewrite (placeFrom_lookup_in _ _ _ _ _ _ j r n0') by done.
    rewrite <- Hn. f_equal. by apply set_xy_unplaced.
  - rewrite placeFrom_lookup_notin in Hn by done.
    rewrite placeFrom_lookup_notin by done.
    apply (Hag r n l); [done | done |].
    destruct (decide (l = L)) as [->|]; [|lia].
    destruct Hr. rewrite Hperm. apply elem_of_group. by exists n.
Qed.

Lemma renderLayers_app Ls1 Ls2 st :
  renderLayers W H d nodeMap maxL (Ls1 ++ Ls2) st
  = renderLayers W H d nodeMap maxL Ls1 st
      ≫= renderLayers W H d nodeMap maxL Ls2.
Proof.
  revert st. induction Ls1 as [|L Ls1 IH]; intros st; simpl; [done|].
  destruct (renderLayer W H d nodeMap maxL st L) as [st1|e]; simpl; [apply IH | done].
Qed.

(** The loop returns, and writes only to the nodes of the layers it
    visits. *)
Lemma renderLayers_frame Ls st :
  sortable nodeMap st →
  ∃ out, renderLayers W H d nodeMap maxL Ls st = Ok out
    ∧ shape out = shape st
    ∧ ∀ r n l, st !! r = Some n → layer n = Some (LNum l) → l ∉ Ls →
        out !! r = Some n.
Proof.
  revert st. induction Ls as [|L Ls IH]; intros st Hs; simpl.
  - exists st. done.
  - destruct (renderLayer_total st L Hs) as (order & _ & _ & _ & Hstep).
    destruct (renderLayer_frame st L _ Hs Hstep) as [Hsh1 Hfr1].
    rewrite Hstep. simpl.
    destruct (IH _ (sortable_shape nodeMap _ _ Hs (eq_sym Hsh1)))
      as (out & Hrun & Hsh & Hfr).
    exists out. split; [done|]. split; [congruence|].
    intros r n l Hn Hl Hnot. apply not_elem_of_cons in Hnot as [Hne Hnot].
    apply (Hfr r n l); [|done|done]. apply Hfr1; [done|]. congruence.
Qed.

Lemma renderLayers_agree len :
  ∀ L0 st st' out,
    layered nodeMap st → agree_below L0 st st' →
    renderLayers W H d nodeMap maxL (seq L0 len) st = Ok out →
    ∃ out', renderLayers W H d nodeMap maxL (seq L0 len) st' = Ok out'
            ∧ agree_below (L0 + len) out out'.
Proof.
  induction len as [|len IH]; intros L0 st st' out Hlay Hag Hrun; simpl in *.
  - injection Hrun as <-. exists st'. rewrite Nat.add_0_r. done.
  - apply result_bind_Ok in Hrun as (st1 & Hstep & Hrun).
    destruct (renderLayer_agree st st' L0 st1 Hlay Hag Hstep) as (st1' & -> & Hag1).
    simpl.
    destruct (renderLayer_frame st L0 st1 (layered_sortable nodeMap st Hlay) Hstep)
      as [Hsh1 _].
    destruct (IH (S L0) st1 st1' out
                (layered_shape nodeMap _ _ Hlay (eq_sym Hsh1)) Hag1 Hrun)
      as (out' & -> & Hout).
    exists out'. split; [done|]. by replace (L0 + S len) with (S L0 + len) by lia.
Qed.

End layout_loop.

(** Stores of the same graph that agree on every layer are equal. *)
Lemma agree_below_all L st st' :
  agree_below L st st' →
  (∀ n, n ∈ st → ∃ l, layer n = Some (LNum l) ∧ l < L) →
  st = st'.
Proof.
  intros [Hsh Hag] Hall. apply list_eq. intros r.
  destruct (st !! r) as [n|] eqn:Hn.
  - destruct (Hall n) as (l & Hl & Hlt); [by eapply list_elem_of_lookup_2|].
    symmetry. by eapply Hag.
  - symmetry. apply lookup_ge_None. apply lookup_ge_None in Hn.
    assert (Hlen : length (shape st) = length (shape st')) by by rewrite Hsh.
    unfold shape in Hlen. rewrite !length_fmap in Hlen. lia.
Qed.

Lemma layered_maxLayer nodeMap st :
  layered nodeMap st → st ≠ [] → ∃ m, maxLayer st = Some m.
Proof.
  intros Hlay Hne. destruct st as [|a st]; [done|]. unfold maxLayer.
  destruct (mapM layerNum (a :: st)) as [ls|] eqn:Hls; [by eexists|].
  exfalso. apply eq_None_not_Some in Hls. apply Hls.
  apply mapM_is_Some. apply Forall_forall. intros n Hn.
  apply list_elem_of_lookup in Hn as [r Hr].
  destruct (Hlay r n Hr) as (ln & Hln & _). exists ln. by apply layerNum_Some.
Qed.

(** A layout pass on a sortable store returns and keeps the graph. *)
Lemma render_returns W H d nodeMap st :
  sortable nodeMap st →
  ∃ out, render W H d nodeMap st = Ok out ∧ shape out = shape st.
Proof.
  intros Hs. unfold render. destruct (maxLayer st) as [m|]; [|by exists st].
  destruct (renderLayers_frame W H d nodeMap m (seq 0 (S m)) st Hs)
    as (out & Hrun & Hsh & _).
  by exists out.
Qed.

(** The positions a layout pass writes do not depend on the positions the
    nodes held before it. *)
Lemma render_shape_determined W H d nodeMap st st' out :
  layered nodeMap st → shape st = shape st' →
  render W H d nodeMap st = Ok out → render W H d nodeMap st' = Ok out.
Proof.
  intros Hlay Hsh Hrun. unfold render in *.
  rewrite <- (maxLayer_shape st'), <- Hsh, maxLayer_shape.
  destruct (maxLayer st) as [m|] eqn:Hm.
  - destruct (renderLayers_agree W H d nodeMap m (S m) 0 st st' out)
      as (out' & Hrun' & Hag); [done | | done |].
    { split; [done|]. intros r n l _ _ Hl. lia. }
    rewrite Hrun'. f_equal. symmetry. apply (agree_below_all (S m)); [done|].
    destruct (renderLayers_frame W H d nodeMap m (seq 0 (S m)) st
                (layered_sortable nodeMap st Hlay))
      as (out0 & Hrun0 & Hsh0 & _).
    assert (out0 = out) as -> by congruence.
    intros n Hn.
    destruct (maxLayer_bound out m n) as (l & Hl & Hle); [|done|].
    { by rewrite <- maxLayer_shape, Hsh0, maxLayer_shape. }
    exists l. split; [done | lia].
  - injection Hrun as <-.
    destruct st as [|a st].
    + destruct st'; [done | discriminate Hsh].
    + destruct (layered_maxLayer nodeMap (a :: st) Hlay) as [m Hm']; [done|].
      congruence.
Qed.

Lemma centredX_startX W d count k :
  (startXOf W d count + num_of_nat k * (nodeWidth d + nodeGap d))%float
  = centredX W d count k.
Proof. reflexivity. Qed.

(** After a layout pass every layer holds its group in placement order,
    each node at the position of its rank. *)
Lemma render_layer_positions W H d nodeMap st out m L :
  layered nodeMap st → render W H d nodeMap st = Ok out →
  maxLayer st = Some m → L ≤ m →
  shape out = shape st
  ∧ ∃ order,
      order ≡ₚ groupFrom 0 out L
      ∧ (L = 0 → order = groupFrom 0 out L)
      ∧ (0 < L →
         ∃ ks, mapM (keyOf out nodeMap) (groupFrom 0 out L) = Some ks
               ∧ (consistent_comparator ks → ordered_by_key out nodeMap order))
      ∧ ∀ k r, order !! k = Some r →
          ∃ n0, out !! r
                = Some (set_xy (centredX W d (length order) k) (yOf H d m L) n0).
Proof.
  intros Hlay Hrun Hm HL. unfold render in Hrun. rewrite Hm in Hrun.
  replace (S m) with (L + S (m - L)) in Hrun by lia.
  rewrite seq_app, renderLayers_app in Hrun. simpl in Hrun.
  destruct (renderLayers_frame W H d nodeMap m (seq 0 L) st
              (layered_sortable nodeMap st Hlay))
    as (stL & HrunL & HshL & HfrL).
  rewrite HrunL in Hrun. simpl in Hrun.
  assert (HlayL : layered nodeMap stL).
  { by eapply layered_shape; [|symmetry]. }
  pose proof (layered_sortable nodeMap stL HlayL) as HsL.
  destruct (renderLayer_total W H d nodeMap m stL L HsL)
    as (order & Hperm & Hzero & Hsort & Hstep).
  destruct (renderLayer_frame W H d nodeMap m stL L _ HsL Hstep) as [Hsh1 Hfr1].
  rewrite Hstep in Hrun. simpl in Hrun.
  set (st1 := placeFrom 0 (startXOf W d (length order))
                (nodeWidth d + nodeGap d)%float (yOf H d m L) order stL) in *.
  assert (Hlay1 : layered nodeMap st1).
  { by eapply layered_shape; [|symmetry]. }
  destruct (renderLayers_frame W H d nodeMap m (seq (S L) (m - L)) st1
              (layered_sortable nodeMap st1 Hlay1))
    as (out' & Hrun' & Hsh' & Hfr').
  assert (out' = out) as -> by congruence.
  assert (Hsh : shape out = shape stL) by congruence.
  assert (Hgrp : groupFrom 0 out L = groupFrom 0 stL L).
  { rewrite <- (groupFrom_shape 0 out), Hsh. apply groupFrom_shape. }
  assert (Hnd : NoDup order).
  { rewrite Hperm. apply groupFrom_NoDup. }
  assert (Hpos : ∀ k r, order !! k = Some r →
            ∃ n0, stL !! r = Some n0 ∧ layer n0 = Some (LNum L)
              ∧ out !! r = Some (set_xy (centredX W d (length order) k)
                                    (yOf H d m L) n0)).
  { intros k r Hk.
    assert (Hr : r ∈ groupFrom 0 stL L).
    { rewrite <- Hperm. by eapply list_elem_of_lookup_2. }
    apply elem_of_group in Hr as (n0 & Hn0 & HL0).
    exists n0. split; [done|]. split; [done|].
    apply (Hfr' r _ L).
    - unfold st1. rewrite (placeFrom_lookup_in _ _ _ _ _ _ k r n0) by done.
      simpl. by rewrite centredX_startX.
    - done.
    - rewrite elem_of_seq. lia. }
  assert (Hag : agree_below L stL out).
  { split; [done|]. intros r n l Hn Hl Hlt.
    apply (Hfr' r n l); [|done|rewrite elem_of_seq; lia].
    apply Hfr1; [done|]. intros Heq. rewrite Hl in Heq. injection Heq as ->. lia. }
  assert (Hkeys : ∀ r, r ∈ groupFrom 0 stL L → 0 < L →
            keyOf out nodeMap r = keyOf stL nodeMap r).
  { intros r (n0 & Hn0 & HL0)%elem_of_group Hlt.
    by apply (keyOf_agree nodeMap stL out r n0 L). }
  split; [congruence|].
  exists order. split; [by rewrite Hgrp|]. split; [by rewrite Hgrp|]. split.
  - intros Hlt. rewrite decide_True in Hsort by done.
    destruct (sortGroup_spec nodeMap stL L order HlayL Hlt Hsort) as (ks & Hks & Hord).
    exists ks. split.
    + rewrite Hgrp, <- Hks. apply mapM_ext_in. intros r Hr. by apply Hkeys.
    + intros Hcons a b ra rb Hab Ha Hb.
      destruct (Hord Hcons a b ra rb Hab Ha Hb) as (ka & kb & Hka & Hkb & Hkord).
      exists ka, kb. split; [|split; [|done]].
      * rewrite Hkeys; [done| |done]. rewrite <- Hperm.
        by eapply list_elem_of_lookup_2.
      * rewrite Hkeys; [done| |done]. rewrite <- Hperm.
        by eapply list_elem_of_lookup_2.
  - intros k r Hk. destruct (Hpos k r Hk) as (n0 & _ & _ & Hout). by exists n0.
Qed.

(** ** Layers and the layout *)

Lemma later_same_graph st st' : later st st' → same_graph st st'.
Proof.
  intros Hl. eapply Forall2_impl; [exact Hl|]. simpl.
  intros n n' (? & ? & ? & _). done.
Qed.

Lemma same_graph_shape nodes st st' :
  same_graph nodes st → shape st' = shape st → same_graph nodes st'.
Proof.
  intros Hsg Hsh. apply Forall2_same_length_lookup. split.
  - assert (Hlen : length (shape st') = length (shape st)) by by rewrite Hsh.
    unfold shape in Hlen. rewrite !length_fmap in Hlen.
    apply Forall2_length in Hsg. lia.
  - intros r n n' Hn Hn'.
    destruct (Forall2_lookup_l _ _ _ _ _ Hsg Hn) as (m & Hm & Hid & Hpre & Hty).
    destruct (lookup_shape st st' r m (eq_sym Hsh) Hm) as (m' & Hm' & Hun).
    assert (m' = n') as -> by congruence.
    injection Hun as -> _ -> -> _. done.
Qed.

Lemma same_graph_elem_of_r nodes st n' :
  same_graph nodes st → n' ∈ st →
  ∃ n, n ∈ nodes ∧ id n' = id n ∧ prereqs n' = prereqs n.
Proof.
  intros Hsg [r Hr]%list_elem_of_lookup.
  destruct (Forall2_lookup_r _ _ _ _ _ Hsg Hr) as (n & Hn & ? & ? & _).
  exists n. split; [by eapply list_elem_of_lookup_2 | done].
Qed.

(** In a store that holds a graph without dangling prereqs every prereqs
    entry is a key of the index that refers to a node of the store with that
    id. *)
Lemma same_graph_resolved nodes st n p :
  no_dangling nodes → same_graph nodes st →
  n ∈ st → p ∈ prereqs_of n →
  ∃ r q, buildNodeMap nodes !! p = Some r ∧ st !! r = Some q ∧ id q = p.
Proof.
  intros Hdang Hsg Hn Hp.
  destruct (same_graph_elem_of_r nodes st n Hsg Hn) as (n0 & Hn0 & _ & Hpre).
  destruct (Hdang n0 p Hn0) as (m & Hm & Hid).
  { unfold prereqs_of in *. by rewrite <- Hpre. }
  destruct (buildNodeMap nodes !! p) as [r|] eqn:Hr.
  - destruct (buildNodeMap_indexed nodes p r Hr) as (q0 & Hq0 & Hid0).
    destruct (Forall2_lookup_l _ _ _ _ _ Hsg Hq0) as (q & Hq & Hidq & _).
    exists r, q. split; [done|]. split; [done | congruence].
  - exfalso. by eapply (proj1 (buildNodeMap_None nodes p)).
Qed.

Lemma same_graph_resolves nodes st n p :
  no_dangling nodes → same_graph nodes st →
  n ∈ st → p ∈ prereqs_of n →
  ∃ q, nodeAt st (buildNodeMap nodes) p = IsNode q ∧ id q = p ∧ q ∈ st.
Proof.
  intros Hdang Hsg Hn Hp.
  destruct (same_graph_resolved nodes st n p Hdang Hsg Hn Hp)
    as (r & q & Hr & Hq & Hid).
  exists q. split; [apply nodeAt_IsNode; by exists r|]. split; [done|].
  by eapply list_elem_of_lookup_2.
Qed.

(** A store in which every node carries a prereqs list is sortable as soon
    as its prereqs resolve. *)
Lemma sortable_present nodes st :
  no_dangling nodes → same_graph nodes st →
  (∀ n, n ∈ nodes → is_Some (prereqs n)) →
  sortable (buildNodeMap nodes) st.
Proof.
  intros Hdang Hsg Hall n k Hn _.
  destruct (same_graph_elem_of_r nodes st n Hsg Hn) as (n0 & Hn0 & _ & Hpre).
  destruct (Hall n0 Hn0) as [ps Hps]. exists ps. split; [congruence|].
  intros p Hp.
  destruct (same_graph_resolved nodes st n p Hdang Hsg Hn) as (r & q & ? & ? & _).
  { unfold prereqs_of. rewrite Hpre, Hps. done. }
  by exists r, q.
Qed.

(** Layer assignment on a well-formed acyclic graph leaves a sortable
    store: a node with a positive number as layer has prereqs. *)
Lemma computeLayers_sortable nodes fuel out :
  well_formed nodes → acyclic nodes → length nodes < fuel →
  computeLayers fuel nodes (buildNodeMap nodes) = Ok out →
  sortable (buildNodeMap nodes) out.
Proof.
  intros Hwf Hacyc Hfuel Hrun.
  destruct (computeLayers_entries nodes fuel Hwf Hacyc Hfuel)
    as (out' & look & Hrun' & Hl & _ & Hlook & Hinh & Heqn).
  assert (out' = out) as -> by congruence.
  intros n k Hn Hlay.
  assert (Hplain : inherited (id n) = false).
  { destruct (inherited (id n)) eqn:Hi; [|done].
    pose proof (Hinh _ Hi) as H1. rewrite (Hlook n Hn), Hlay in H1. done. }
  destruct (Heqn n _ Hn Hlay Hplain) as [[_ [=]]|(Hne & _)].
  unfold prereqs_of in Hne. destruct (prereqs n) as [ps|] eqn:Hps; [|done].
  exists ps. split; [done|]. intros p Hp.
  destruct (same_graph_resolved nodes out n p (proj2 Hwf)
              (later_same_graph _ _ Hl) Hn) as (r & q & ? & ? & _).
  { unfold prereqs_of. by rewrite Hps. }
  by exists r, q.
Qed.

(** On a well-formed acyclic graph with plain ids layer assignment leaves a
    layered store. *)
Lemma computeLayers_plain_layered nodes fuel out :
  well_formed nodes → acyclic nodes → plain_ids nodes → length nodes < fuel →
  computeLayers fuel nodes (buildNodeMap nodes) = Ok out →
  layered (buildNodeMap nodes) out.
Proof.
  intros Hwf Hacyc Hplain Hfuel Hrun.
  destruct (computeLayers_plain nodes fuel Hwf Hacyc Hplain Hfuel)
    as (out' & Hrun2 & Hl & _ & Heqn).
  assert (out' = out) as -> by congruence.
  assert (Hex : exact_index (buildNodeMap nodes) out).
  { eapply exact_later; [done | apply buildNodeMap_exact, Hwf]. }
  intros r n Hr.
  destruct (Heqn n) as (v & Hv & Hcase); [by eapply list_elem_of_lookup_2|].
  exists v. split; [done|]. intros Hpos.
  destruct Hcase as [[_ ->]|(Hne & ls & Hls & ->)]; [lia|].
  unfold prereqs_of in Hne, Hls.
  destruct (prereqs n) as [ps|] eqn:Hps; [|done]. simpl in Hne, Hls.
  exists ps. split; [done|]. split; [done|]. intros p Hp.
  apply list_elem_of_lookup in Hp as [k Hk].
  destruct (Forall2_lookup_l _ _ _ _ _ Hls Hk) as (lp & Hlk & q & Hq & Hid & Hlq).
  apply list_elem_of_lookup in Hq as [rq Hrq].
  exists rq, q, lp. split; [rewrite <- Hid; by apply Hex|]. split; [done|].
  split; [done|].
  assert (lp ≤ max_list ls); [|lia].
  apply max_list_elem_of_le. by eapply list_elem_of_lookup_2.
Qed.

(** When layer assignment on a well-formed acyclic graph has written
    numbers only, the ids are plain and the store is layered. *)
Lemma computeLayers_layered nodes fuel out m :
  well_formed nodes → acyclic nodes → length nodes < fuel →
  computeLayers fuel nodes (buildNodeMap nodes) = Ok out →
  maxLayer out = Some m →
  plain_ids nodes ∧ layered (buildNodeMap nodes) out.
Proof.
  intros Hwf Hacyc Hfuel Hrun Hm.
  destruct (computeLayers_entries nodes fuel Hwf Hacyc Hfuel)
    as (out' & look & Hrun' & Hl & _ & Hlook & Hinh & _).
  assert (out' = out) as -> by congruence.
  assert (Hids : ∀ n, n ∈ nodes → inherited (id n) = false).
  { intros n [r Hr]%list_elem_of_lookup.
    destruct (later_lookup nodes out r n Hl Hr) as (n' & Hn' & Hid & _).
    assert (Hin : n' ∈ out) by by eapply list_elem_of_lookup_2.
    destruct (maxLayer_bound out m n' Hm Hin) as (l & Hlay & _).
    destruct (inherited (id n)) eqn:Hi; [|done].
    pose proof (Hinh _ Hi) as H1. rewrite <- Hid, (Hlook n' Hin), Hlay in H1. done. }
  assert (Hplain : plain_ids nodes).
  { intros n Hn. split; [by apply Hids|]. intros p Hp.
    destruct (proj2 Hwf n p Hn Hp) as (q & Hq & <-). by apply Hids. }
  split; [done|]. by eapply computeLayers_plain_layered.
Qed.

(** *** Facts of binary64 *)

Lemma float_mul_nan_l z : (nan * z)%float = nan.
Proof.
  apply Prim2SF_inj. rewrite mul_spec.
  change (Prim2SF nan) with S754_nan.
  destruct (Prim2SF z); reflexivity.
Qed.

Lemma float_add_nan_r z : (z + nan)%float = nan.
Proof.
  apply Prim2SF_inj. rewrite add_spec.
  change (Prim2SF nan) with S754_nan.
  destruct (Prim2SF z) as [| | |[]]; reflexivity.
Qed.

(** The [y] of the only layer when the deepest layer is 0: the quotient
    0/0 is NaN, and so is every sum and product it enters. *)
Lemma yOf_zero H d : yOf H d 0 0 = nan.
Proof.
  unfold yOf.
  change (num_of_nat 0 / num_of_nat 0)%float with nan.
  by rewrite float_mul_nan_l, float_add_nan_r.
Qed.

(** ** Drawing the edges *)

Lemma edgeStyle_by_target d (c : gset string) from to :
  (id to ∈ c → id from ∈ c) →
  (isUnlocked c to = true → id from ∈ c) →
  ev_style (drawEdge d c (Some from) to)
  = edgeStyle (has c (id to)) (nodeLocked c to) (type to).
Proof.
  intros Hdone Hunl. unfold drawEdge, nodeLocked, has. simpl.
  destruct (decide (id to ∈ c)) as [Hto|Hto].
  - rewrite (bool_decide_eq_true_2 _ Hto), (bool_decide_eq_true_2 _ (Hdone Hto)).
    done.
  - rewrite (bool_decide_eq_false_2 _ Hto), andb_false_r. simpl.
    destruct (isUnlocked c to) eqn:Hu.
    + rewrite (bool_decide_eq_true_2 _ (Hunl eq_refl)). done.
    + by rewrite orb_true_r.
Qed.

(** The edges drawn for a graph without dangling prereqs: none fails, each
    prereq entry gives one from the node that carries its id, and under the
    completion invariant each carries the state of the node it points
    to. *)
Lemma edgesFrom_spec nodes st d c todo :
  no_dangling nodes → same_graph nodes st →
  (∀ n, n ∈ todo → n ∈ st) →
  ∃ evs,
    edgesFrom d c st (buildNodeMap nodes) todo = Ok evs
    ∧ (∀ n p, n ∈ todo → p ∈ prereqs_of n →
         ∃ ev q, ev ∈ evs ∧ ev_to ev = n ∧ ev_from ev = Some q ∧ id q = p)
    ∧ Forall (λ ev, ev_to ev ∈ todo
                    ∧ (∃ q, ev_from ev = Some q ∧ q ∈ st
                            ∧ id q ∈ prereqs_of (ev_to ev))
                    ∧ (completion_inv st c →
                       ev_style ev
                       = edgeStyle (has c (id (ev_to ev)))
                           (nodeLocked c (ev_to ev)) (type (ev_to ev))))
        evs.
Proof.
  intros Hdang Hsg. induction todo as [|n todo IH]; intros Hsub; simpl.
  - exists []. split; [done|]. split; [|constructor].
    intros n p Hn. by apply elem_of_nil in Hn.
  - destruct IH as (evs' & -> & Hall' & Hst').
    { intros m Hm. apply Hsub. by right. }
    assert (Hn : n ∈ st) by (apply Hsub; by left).
    assert (Hone : ∀ ps, (∀ p, p ∈ ps → p ∈ prereqs_of n) →
              ∃ evs, edgesOf d c st (buildNodeMap nodes) n ps = Ok evs
                ∧ (∀ p, p ∈ ps → ∃ ev q, ev ∈ evs ∧ ev_to ev = n
                                         ∧ ev_from ev = Some q ∧ id q = p)
                ∧ Forall (λ ev, ev_to ev = n
                                ∧ (∃ q, ev_from ev = Some q ∧ q ∈ st
                                        ∧ id q ∈ prereqs_of n)
                                ∧ (completion_inv st c →
                                   ev_style ev
                                   = edgeStyle (has c (id n)) (nodeLocked c n)
                                       (type n))) evs).
    { induction ps as [|p ps IHps]; intros Hps; simpl.
      - exists []. split; [done|]. split; [|constructor].
        intros p Hp. by apply elem_of_nil in Hp.
      - destruct (same_graph_resolves nodes st n p Hdang Hsg Hn)
          as (q & -> & Hid & Hq); [apply Hps; by left|].
        destruct IHps as (evs & -> & Hcov & Hsty).
        { intros p' Hp'. apply Hps. by right. }
        simpl. eexists. split; [done|]. split.
        + intros p' [->|Hp']%elem_of_cons.
          * eexists _, q. split; [by left|]. done.
          * destruct (Hcov p' Hp') as (ev & q' & Hev & ?). exists ev, q'.
            split; [by right | done].
        + constructor; [|done].
          assert (Hpn : p ∈ prereqs_of n) by (apply Hps; by left).
          split; [done|]. split; [exists q; by rewrite Hid|].
          intros Hinv.
          change (ev_to (drawEdge d c (Some q) n)) with n.
          apply edgeStyle_by_target; rewrite Hid.
          * intros Hto. exact (Hinv n Hn Hto p Hpn).
          * intros Hu. by apply (proj1 (isUnlocked_spec c n) Hu). }
    assert (Hevs : ∃ evs,
              match prereqs n with
              | Some ps => edgesOf d c st (buildNodeMap nodes) n ps
              | None => Ok []
              end = Ok evs
              ∧ (∀ p, p ∈ prereqs_of n → ∃ ev q, ev ∈ evs ∧ ev_to ev = n
                                                 ∧ ev_from ev = Some q ∧ id q = p)
              ∧ Forall (λ ev, ev_to ev = n
                              ∧ (∃ q, ev_from ev = Some q ∧ q ∈ st
                                      ∧ id q ∈ prereqs_of n)
                              ∧ (completion_inv st c →
                                 ev_style ev
                                 = edgeStyle (has c (id n)) (nodeLocked c n)
                                     (type n))) evs).
    { unfold prereqs_of in *. destruct (prereqs n) as [ps|]; simpl.
      - by apply Hone.
      - exists []. split; [done|]. split; [|constructor].
        intros p Hp. by apply elem_of_nil in Hp. }
    destruct Hevs as (evs & -> & Hcov & Hsty). simpl.
    exists (evs ++ evs'). split; [done|]. split.
    + intros m p [->|Hm]%elem_of_cons Hp.
      * destruct (Hcov p Hp) as (ev & q & Hev & ?). exists ev, q.
        split; [apply elem_of_app; by left | done].
      * destruct (Hall' m p Hm Hp) as (ev & q & Hev & ?). exists ev, q.
        split; [apply elem_of_app; by right | done].
    + apply Forall_app. split.
      * eapply Forall_impl; [exact Hsty|]. simpl.
        intros ev (-> & ? & ?). split; [by left | done].
      * eapply Forall_impl; [exact Hst'|]. simpl.
        intros ev (? & ? & ?). split; [by right | done].
Qed.

(** ** The constructor *)

(** Once the layers are assigned and the store is sortable, the
    constructor returns an engine: the first layout pass has run, the edges
    are drawn, and the completion set is empty. *)
Lemma construct_returns nodes fuel W H cfg nodes1 :
  no_dangling nodes →
  computeLayers fuel nodes (buildNodeMap nodes) = Ok nodes1 →
  same_graph nodes nodes1 → sortable (buildNodeMap nodes) nodes1 →
  ∃ e,
    construct fuel W H cfg (Some nodes) = Ok e
    ∧ render W H (dimsOf cfg) (buildNodeMap nodes) nodes1 = Ok (this_nodes e)
    ∧ this_nodeMap e = buildNodeMap nodes
    ∧ this_dims e = dimsOf cfg
    ∧ this_completed e = ∅
    ∧ shape (this_nodes e) = shape nodes1.
Proof.
  intros Hdang Hrun Hsg Hs.
  destruct (render_returns W H (dimsOf cfg) (buildNodeMap nodes) nodes1 Hs)
    as (nodes2 & Hrender & Hsh).
  destruct (edgesFrom_spec nodes nodes2 (dimsOf cfg) ∅ nodes2 Hdang)
    as (evs & Hevs & _); [by eapply same_graph_shape | done |].
  exists (Engine nodes2 (buildNodeMap nodes) (dimsOf cfg) ∅).
  split; [|done]. unfold construct. simpl. rewrite Hrun. simpl.
  rewrite Hrender. simpl. unfold renderEdges. simpl. by rewrite Hevs.
Qed.

(** On a well-formed acyclic graph the constructor returns an engine; when
    the layers are numbers the ids are plain and the store is layered. *)
Lemma construct_Ok nodes fuel W H cfg :
  well_formed nodes → acyclic nodes → length nodes < fuel →
  ∃ e nodes1,
    construct fuel W H cfg (Some nodes) = Ok e
    ∧ computeLayers fuel nodes (buildNodeMap nodes) = Ok nodes1
    ∧ render W H (dimsOf cfg) (buildNodeMap nodes) nodes1 = Ok (this_nodes e)
    ∧ this_nodeMap e = buildNodeMap nodes
    ∧ this_dims e = dimsOf cfg
    ∧ this_completed e = ∅
    ∧ (∀ m, maxLayer nodes1 = Some m →
         plain_ids nodes ∧ layered (buildNodeMap nodes) nodes1)
    ∧ shape (this_nodes e) = shape nodes1
    ∧ same_graph nodes nodes1.
Proof.
  intros Hwf Hacyc Hfuel.
  destruct (computeLayers_returns nodes fuel (proj2 Hwf) Hacyc Hfuel)
    as (nodes1 & cacheF & _ & Hrun & _ & Hl & _).
  pose proof (later_same_graph _ _ Hl) as Hsg.
  destruct (construct_returns nodes fuel W H cfg nodes1 (proj2 Hwf) Hrun Hsg)
    as (e & Hc & Hrender & Hmap & Hdims & Hcomp & Hsh).
  { by eapply computeLayers_sortable. }
  exists e, nodes1. do 6 (split; [done|]). split; [|done].
  intros m Hm. by eapply computeLayers_layered.
Qed.

(** With unique plain ids and no cycle, a dangling prereq makes layer
    assignment raise [TypeError]. *)
Lemma computeLayers_dangling nodes fuel :
  unique_ids nodes → acyclic nodes → plain_ids nodes → dangling nodes →
  length nodes < fuel →
  computeLayers fuel nodes (buildNodeMap nodes) = Err TypeError.
Proof.
  intros Huniq Hacyc Hplain (n & p & Hn & Hp & Hnone) Hfuel. unfold computeLayers.
  destruct (assignLayers fuel (buildNodeMap nodes) 0 nodes nodes ∅)
    as [[out cacheF]|[]] eqn:Hrun; [|done|].
  - exfalso.
    destruct (assignLayers_Ok fuel (buildNodeMap nodes) nodes 0 nodes ∅ out cacheF)
      as (_ & Hcons & Hl & Hpos);
      [done | apply buildNodeMap_indexed | apply cache_consistent_empty
      | by intros k m Hk; exists m | done |].
    pose proof Hn as [r Hr]%list_elem_of_lookup.
    destruct (Hpos r n Hr) as [_ Hin].
    destruct Hin as (v & Hout & Hv); [apply lookup_lt_Some in Hr; lia|].
    destruct (Hplain n Hn) as [Hid Hps].
    rewrite (cacheGet_plain cacheF _ Hid) in Hv.
    destruct (Hcons _ _ Hv) as [_ Hok]. unfold entry_ok in Hok.
    assert (Hat : nodeAt out (buildNodeMap nodes) (id n) = IsNode (set_layer n v)).
    { apply (nodeAt_exact out (buildNodeMap nodes) (set_layer n v)).
      - eapply exact_later; [done | by apply buildNodeMap_exact].
      - by eapply list_elem_of_lookup_2. }
    rewrite Hat in Hok.
    change (prereqs_of (set_layer n v)) with (prereqs_of n) in Hok.
    destruct Hok as [[Hnil _]|(_ & ls & Hls & _)].
    + change (prereqs_of (set_layer n v)) with (prereqs_of n) in Hnil.
      rewrite Hnil in Hp. by apply elem_of_nil in Hp.
    + change (prereqs_of (set_layer n v)) with (prereqs_of n) in Hls.
      apply list_elem_of_lookup in Hp as [k Hk].
      destruct (Forall2_lookup_l _ _ _ _ _ Hls Hk) as (lp & _ & Hlp).
      assert (Hpin : inherited p = false).
      { apply Hps. by eapply list_elem_of_lookup_2. }
      rewrite (cacheGet_plain cacheF _ Hpin) in Hlp.
      destruct (Hcons _ _ Hlp) as [_ Hokp]. unfold entry_ok in Hokp.
      rewrite nodeAt_unindexed in Hokp.
      * unfold objectProto in Hokp. by rewrite Hpin in Hokp.
      * by apply buildNodeMap_None.
      * by apply plain_no_proto.
  - exfalso. revert Hrun. apply assignLayers_not_Err.
    intros st' c m Hl Hm.
    apply (computeLayer_no_diverge st' (buildNodeMap nodes)) with (anc := []).
    + eapply indexed_later; [done | apply buildNodeMap_indexed].
    + by eapply acyclic_later.
    + constructor.
    + intros a Ha. by apply elem_of_nil in Ha.
    + apply Forall2_length in Hl. simpl. lia.
Qed.

(** ** Claims on construction *)

(** C4, as the code has it.  The constructor validates nothing and has no
    error of its own for a malformed graph.  For a sequence with an acyclic
    prereqs relation in which every prereq names a node of the sequence,
    construction succeeds and the completion set starts empty, when the ids
    are unique and also when ids are shared and every node carries a prereqs
    list.  For a sequence with unique ids, no id and no prereq a property
    name of [Object.prototype], in which some prereq names no node,
    construction fails with the [TypeError] of a property read on
    [undefined] during layer assignment, and no engine is returned. *)
Theorem construct_outcomes nodes fuel W H cfg :
  acyclic nodes → length nodes < fuel →
  (no_dangling nodes →
   unique_ids nodes ∨ (∀ n, n ∈ nodes → is_Some (prereqs n)) →
     ∃ e, construct fuel W H cfg (Some nodes) = Ok e
          ∧ this_completed e = ∅
          ∧ this_nodeMap e = buildNodeMap nodes
          ∧ Forall2 (λ n n', id n' = id n ∧ prereqs n' = prereqs n
                             ∧ type n' = type n ∧ is_Some (layer n'))
              nodes (this_nodes e))
  ∧ (unique_ids nodes → plain_ids nodes → dangling nodes →
     construct fuel W H cfg (Some nodes) = Err TypeError).
Proof.
  intros Hacyc Hfuel. split.
  - intros Hdang Hcase.
    destruct (computeLayers_returns nodes fuel Hdang Hacyc Hfuel)
      as (nodes1 & cacheF & _ & Hrun & _ & Hl & Hall).
    pose proof (later_same_graph _ _ Hl) as Hsg.
    assert (Hs : sortable (buildNodeMap nodes) nodes1).
    { destruct Hcase as [Huniq|Hpre].
      - by apply (computeLayers_sortable nodes fuel nodes1 (conj Huniq Hdang)).
      - by apply sortable_present. }
    destruct (construct_returns nodes fuel W H cfg nodes1 Hdang Hrun Hsg Hs)
      as (e & Hc & _ & Hmap & _ & Hcomp & Hsh).
    exists e. split; [done|]. split; [done|]. split; [done|].
    apply Forall2_same_length_lookup. split.
    + assert (Hlen : length (shape (this_nodes e)) = length (shape nodes1))
        by by rewrite Hsh.
      unfold shape in Hlen. rewrite !length_fmap in Hlen.
      apply Forall2_length in Hall. lia.
    + intros r n n' Hn Hn'.
      destruct (Forall2_lookup_l _ _ _ _ _ Hall Hn) as (n1 & Hn1 & v & -> & _).
      destruct (lookup_shape _ _ r _ (eq_sym Hsh) Hn1) as (n2 & Hn2 & Hun).
      assert (n2 = n') as -> by congruence.
      injection Hun as -> _ -> -> ->. simpl. split; [done|]. split; [done|].
      split; [done | by eexists].
  - intros Huniq Hplain Hd. unfold construct. simpl.
    by rewrite (computeLayers_dangling nodes fuel Huniq Hacyc Hplain Hd Hfuel).
Qed.

Lemma construct_outcomes_witness :
  (no_dangling scenario →
   unique_ids scenario ∨ (∀ n, n ∈ scenario → is_Some (prereqs n)) →
     ∃ e, construct 4 1000 600 noConfig (Some scenario) = Ok e
          ∧ this_completed e = ∅
          ∧ this_nodeMap e = buildNodeMap scenario
          ∧ Forall2 (λ n n', id n' = id n ∧ prereqs n' = prereqs n
                             ∧ type n' = type n ∧ is_Some (layer n'))
              scenario (this_nodes e))
  ∧ (unique_ids scenario → plain_ids scenario → dangling scenario →
     construct 4 1000 600 noConfig (Some scenario) = Err TypeError).
Proof.
  apply (construct_outcomes scenario 4 1000 600 noConfig).
  - apply (ranked_b_acyclic scenario_rank). vm_compute. reflexivity.
  - simpl. lia.
Defined.

(** C4 as stated fails on two nodes that share the id "a": the ids are not
    unique and the constructor returns an engine; and on a prereq that names
    no node the failure is the [TypeError] of the lookup. *)
Lemma construct_accepts_duplicate_ids :
  ¬ unique_ids twins
  ∧ (∃ e, construct 3 1000 600 noConfig (Some twins) = Ok e)
  ∧ construct 3 1000 600 noConfig (Some orphan) = Err TypeError.
Proof.
  split; [|split].
  - unfold unique_ids, twins. simpl. intros Hnd.
    apply NoDup_cons in Hnd as [Hnot _]. apply Hnot. by left.
  - destruct (construct 3 1000 600 noConfig (Some twins)) as [e|err] eqn:He.
    + by exists e.
    + vm_compute in He. discriminate He.
  - vm_compute. reflexivity.
Qed.

(** ** Claims on progress and layout *)

Lemma Qc_of_nat_ne_0 m : 0 < m → Qc_of_nat m ≠ 0%Qc.
Proof.
  intros Hm Heq. unfold Qc_of_nat in Heq. rewrite <- Z2Qc_inj_0 in Heq.
  apply Z2Qc_inj in Heq. lia.
Qed.

(** C6, on the code.  With both progress elements present the computation
    shows K and N and sets the width to K/N·100 percent when N > 0.  When no
    node is required the quotient is 0/0: nothing guards the division and the
    width is NaN percent. *)
Theorem updateProgress_ratio :
  updateProgress true true singleRoot ∅ = Some (0, 0, NaN)
  ∧ ∀ nodes c,
      let N := length (filter (λ n, type n = required) nodes) in
      let K := length (filter (λ n, id n ∈ c)
                         (filter (λ n, type n = required) nodes)) in
      updateProgress true true nodes c
      = Some (K, N,
              if decide (N = 0) then NaN
              else Fin (Qc_of_nat K / Qc_of_nat N * Qc_of_Z 100)%Qc).
Proof.
  split; [vm_compute; reflexivity|].
  intros nodes c N K. unfold updateProgress. simpl. fold N. fold K.
  do 2 f_equal. unfold js_div. destruct (decide (N = 0)) as [HN|HN].
  - assert (HK : K = 0).
    { assert (K ≤ N) by apply length_filter. lia. }
    rewrite HN, HK. rewrite !decide_True by apply Z2Qc_inj_0. done.
  - rewrite decide_False by (apply Qc_of_nat_ne_0; lia). done.
Qed.

(** The [y] a layout pass writes: the value of the node's layer. *)
Lemma render_y W H d nodeMap st out m n :
  layered nodeMap st → render W H d nodeMap st = Ok out →
  maxLayer st = Some m → n ∈ out →
  ∃ L, layer n = Some (LNum L) ∧ L ≤ m ∧ y n = Some (yOf H d m L).
Proof.
  intros Hlay Hrun Hm Hn.
  destruct (render_returns W H d nodeMap st (layered_sortable nodeMap st Hlay))
    as (out' & Hrun' & Hsh).
  assert (out' = out) as -> by congruence.
  assert (Hm' : maxLayer out = Some m).
  { by rewrite <- maxLayer_shape, Hsh, maxLayer_shape. }
  destruct (maxLayer_bound out m n Hm' Hn) as (L & HL & Hle).
  exists L. split; [done|]. split; [done|].
  destruct (render_layer_positions W H d nodeMap st out m L Hlay Hrun Hm Hle)
    as (_ & order & Hperm & _ & _ & Hpos).
  apply list_elem_of_lookup in Hn as [r Hr].
  assert (Hin : r ∈ order).
  { rewrite Hperm. apply elem_of_group. by exists n. }
  apply list_elem_of_lookup in Hin as [k Hk].
  destruct (Hpos k r Hk) as (n0 & Hout). rewrite Hr in Hout.
  injection Hout as ->. done.
Qed.

(** C7, on the code.  The single prereq-less node is laid out with y = NaN:
    the division by maxLayer = 0 is not guarded.  In general, on a
    well-formed acyclic graph, every node of the constructed engine has
    y = NaN when the deepest layer is 0, and
    y = layerPadding + layer/maxLayer · (H − 2·layerPadding), evaluated in
    binary64 as the code writes it, when it is positive. *)
Theorem render_y_by_layer :
  (λ r, match r with Ok e => Some (y <$> this_nodes e) | Err _ => None end)
    (construct 2 1000 600 noConfig (Some singleRoot)) = Some [Some nan]
  ∧ ∀ nodes fuel W H cfg e,
      well_formed nodes → acyclic nodes → length nodes < fuel →
      construct fuel W H cfg (Some nodes) = Ok e →
      ∀ n m, n ∈ this_nodes e → maxLayer (this_nodes e) = Some m →
        ∃ L, layer n = Some (LNum L) ∧ L ≤ m
          ∧ (m = 0 → y n = Some nan)
          ∧ (0 < m →
             y n = Some (layerPadding (this_dims e)
                         + num_of_nat L / num_of_nat m
                           * (num_of_Z H - layerPadding (this_dims e) * 2))%float).
Proof.
  split; [vm_compute; reflexivity|].
  intros nodes fuel W H cfg e Hwf Hacyc Hfuel Hc n m Hn Hm.
  destruct (construct_Ok nodes fuel W H cfg Hwf Hacyc Hfuel)
    as (e' & nodes1 & Hc' & Hrun & Hrender & _ & Hdims & _ & Hnum & Hsh & _).
  assert (e' = e) as -> by congruence.
  assert (Hm1 : maxLayer nodes1 = Some m).
  { by rewrite <- maxLayer_shape, <- Hsh, maxLayer_shape. }
  destruct (Hnum m Hm1) as [_ Hlay].
  destruct (render_y W H (dimsOf cfg) _ nodes1 _ m n Hlay Hrender Hm1 Hn)
    as (L & HL & Hle & Hy).
  exists L. split; [done|]. split; [done|]. rewrite Hdims. split.
  - intros ->. assert (L = 0) as -> by lia. by rewrite Hy, yOf_zero.
  - intros Hpos. by rewrite Hy.
Qed.

(** A layout pass on a layered store leaves it laid out. *)
Lemma render_laid_out W H d nodeMap st out :
  layered nodeMap st → render W H d nodeMap st = Ok out →
  laid_out W d nodeMap out.
Proof.
  intros Hst Hrun m L Hm HL.
  destruct (render_returns W H d nodeMap st (layered_sortable nodeMap st Hst))
    as (out' & Hrun' & Hsh').
  assert (out' = out) as -> by congruence.
  assert (Hm' : maxLayer st = Some m).
  { by rewrite <- maxLayer_shape, <- Hsh', maxLayer_shape. }
  destruct (render_layer_positions W H d nodeMap st out m L Hst Hrun Hm' HL)
    as (_ & order & Hperm & Hzero & Hkey & Hpos).
  exists order. split; [done|]. split; [done|]. split; [done|].
  intros k r Hk. destruct (Hpos k r Hk) as (n0 & Hout).
  eexists. split; [exact Hout | done].
Qed.

(** C8, on the code.  Two roots, one of them with the id "toString", are a
    well-formed acyclic graph; the constructor returns an engine in which
    no node has a position, the root "a" of layer 0 included.  On the
    graph of three roots p, q, r and the dependents v of r and u of p and q,
    listed in this order, u is placed before v: the mean x of p and q is
    below the x of r, and their sum is above it; the comparator is
    consistent on the two means.  In
    general, on a well-formed acyclic graph whose ids are no property names
    of [Object.prototype], the constructor returns an engine whose nodes
    are laid out, and so does every later layout pass on that engine: the
    nodes of layer 0 stand in input order; the nodes of a layer L > 0
    stand ordered by the mean x of their prereqs, equal means in input
    order, whenever the comparator is consistent on the means of the layer;
    and in a layer of count nodes the node at position k has
    x = (W − count·nodeWidth − (count−1)·nodeGap)/2 + nodeWidth/2
        + k·(nodeWidth + nodeGap), evaluated in binary64. *)
Theorem layout_order_and_centering :
  (well_formed protoPair ∧ acyclic protoPair
   ∧ (λ r, match r with
           | Ok e => Some ((λ n, (id n, layer n, x n)) <$> this_nodes e)
           | Err _ => None
           end) (construct 3 1000 600 noConfig (Some protoPair))
     = Some [ ("a", Some (LNum 0), None);
              ("toString", Some (LInherited "toString"), None) ])
  ∧ ((λ r, match r with
           | Ok e => Some ((λ n, (id n, x n)) <$> this_nodes e)
           | Err _ => None
           end) (construct 6 1000 600 noConfig (Some crossed))
     = Some [ ("p", Some 334%float); ("q", Some 500%float);
              ("r", Some 666%float);
              ("v", Some 583%float); ("u", Some 417%float) ]
     ∧ (λ r, match r with
             | Ok e => mapM (keyOf (this_nodes e) (this_nodeMap e))
                         (groupFrom 0 (this_nodes e) 1)
             | Err _ => None
             end) (construct 6 1000 600 noConfig (Some crossed))
       = Some [ 666%float; 417%float ]
     ∧ consistent_comparator [ 666%float; 417%float ])
  ∧ ∀ nodes fuel W H cfg,
      well_formed nodes → acyclic nodes → plain_ids nodes →
      length nodes < fuel →
      ∃ e, construct fuel W H cfg (Some nodes) = Ok e
        ∧ (nodes ≠ [] → ∃ m, maxLayer (this_nodes e) = Some m)
        ∧ laid_out W (this_dims e) (this_nodeMap e) (this_nodes e)
        ∧ ∀ W' H',
            ∃ out, render W' H' (this_dims e) (this_nodeMap e) (this_nodes e)
                   = Ok out
              ∧ laid_out W' (this_dims e) (this_nodeMap e) out.
Proof.
  split; [|split].
  - split; [apply (well_formed_b_true protoPair); vm_compute; reflexivity|].
    split; [|vm_compute; reflexivity].
    apply (ranked_b_acyclic (λ _, 0)). vm_compute. reflexivity.
  - split; [vm_compute; reflexivity|]. split; [vm_compute; reflexivity|].
    apply consistent_comparator_b_true. vm_compute. reflexivity.
  - intros nodes fuel W H cfg Hwf Hacyc Hplain Hfuel.
    destruct (construct_Ok nodes fuel W H cfg Hwf Hacyc Hfuel)
      as (e & nodes1 & Hc & Hrun & Hrender & Hmap & Hdims & _ & _ & Hsh & Hsg).
    pose proof (computeLayers_plain_layered nodes fuel nodes1
                  Hwf Hacyc Hplain Hfuel Hrun) as Hlay.
    assert (Hlay2 : layered (buildNodeMap nodes) (this_nodes e)).
    { by eapply layered_shape; [|symmetry]. }
    exists e. split; [done|]. rewrite Hmap, Hdims. split; [|split].
    + intros Hne. apply (layered_maxLayer (buildNodeMap nodes)); [done|].
      intros Hnil. apply Forall2_length in Hsg.
      assert (Hlen : length (shape (this_nodes e)) = length (shape nodes1))
        by by rewrite Hsh.
      unfold shape in Hlen. rewrite !length_fmap, Hnil in Hlen. simpl in Hlen.
      destruct nodes; [done | simpl in Hsg; lia].
    + by apply (render_laid_out W H _ _ nodes1).
    + intros W' H'.
      destruct (render_returns W' H' (dimsOf cfg) _ _
                  (layered_sortable _ _ Hlay2)) as (out & Hrun' & _).
      exists out. split; [done|].
      by apply (render_laid_out W' H' _ _ (this_nodes e)).
Qed.

Lemma layout_order_and_centering_witness :
  ∃ e, construct 6 1000 600 noConfig (Some crossed) = Ok e
    ∧ (crossed ≠ [] → ∃ m, maxLayer (this_nodes e) = Some m)
    ∧ laid_out 1000 (this_dims e) (this_nodeMap e) (this_nodes e)
    ∧ ∀ W' H',
        ∃ out, render W' H' (this_dims e) (this_nodeMap e) (this_nodes e)
               = Ok out
          ∧ laid_out W' (this_dims e) (this_nodeMap e) out.
Proof.
  apply (proj2 (proj2 layout_order_and_centering) crossed 6 1000%Z 600%Z noConfig).
  - apply (well_formed_b_true crossed). vm_compute. reflexivity.
  - apply (ranked_b_acyclic crossed_rank). vm_compute. reflexivity.
  - apply (plain_ids_b_true crossed). vm_compute. reflexivity.
  - simpl. lia.
Defined.

(** C9.  On a well-formed acyclic graph two consecutive layout passes for
    the same viewport and configuration leave every node with the same x
    and y: the pass the constructor runs and a pass after it agree, and so
    do any two passes in a row on the engine. *)
Theorem render_twice_same_positions nodes fuel W H cfg :
  well_formed nodes → acyclic nodes → length nodes < fuel →
  ∃ e, construct fuel W H cfg (Some nodes) = Ok e
    ∧ render W H (this_dims e) (this_nodeMap e) (this_nodes e)
      = Ok (this_nodes e)
    ∧ ∀ W' H',
        ∃ out, render W' H' (this_dims e) (this_nodeMap e) (this_nodes e)
               = Ok out
          ∧ render W' H' (this_dims e) (this_nodeMap e) out = Ok out.
Proof.
  intros Hwf Hacyc Hfuel.
  destruct (construct_Ok nodes fuel W H cfg Hwf Hacyc Hfuel)
    as (e & nodes1 & Hc & _ & Hrender & Hmap & Hdims & _ & Hnum & Hsh & _).
  exists e. split; [done|]. rewrite Hmap, Hdims.
  destruct (maxLayer nodes1) as [m|] eqn:Hm.
  - destruct (Hnum m eq_refl) as [_ Hlay]. split.
    + by apply (render_shape_determined W H _ _ nodes1 (this_nodes e)).
    + intros W' H'.
      assert (Hlay2 : layered (buildNodeMap nodes) (this_nodes e)).
      { by eapply layered_shape; [|symmetry]. }
      destruct (render_returns W' H' (dimsOf cfg) _ _
                  (layered_sortable _ _ Hlay2)) as (out & Hrun & Hsh').
      exists out. split; [done|].
      by apply (render_shape_determined W' H' _ _ (this_nodes e) out).
  - assert (Hnone : ∀ V U, render V U (dimsOf cfg) (buildNodeMap nodes)
                             (this_nodes e) = Ok (this_nodes e)).
    { intros V U. unfold render.
      by rewrite <- maxLayer_shape, Hsh, maxLayer_shape, Hm. }
    split; [done|]. intros W' H'. by exists (this_nodes e).
Qed.

Lemma render_twice_same_positions_witness :
  ∃ e, construct 6 1000 600 noConfig (Some crossed) = Ok e
    ∧ render 1000 600 (this_dims e) (this_nodeMap e) (this_nodes e)
      = Ok (this_nodes e)
    ∧ ∀ W' H',
        ∃ out, render W' H' (this_dims e) (this_nodeMap e) (this_nodes e)
               = Ok out
          ∧ render W' H' (this_dims e) (this_nodeMap e) out = Ok out.
Proof.
  apply (render_twice_same_positions crossed 6 1000 600 noConfig).
  - apply (well_formed_b_true crossed). vm_compute. reflexivity.
  - apply (ranked_b_acyclic crossed_rank). vm_compute. reflexivity.
  - simpl. lia.
Defined.

(** * Further properties of the code *)

(** ** The id index and the layers *)

(** X1. The index built by the constructor, read as the code reads it:
    the key [i] gives a node exactly when some node of the input carries the
    id [i], and then it gives the last such node.  A key that no node
    carries gives, when no node has the id "__proto__", what
    [Object.prototype] holds: an inherited value that is no node for one of
    its property names, and [undefined] for any other key. *)
Theorem buildNodeMap_last_wins nodes i :
  (∀ n, nodeAt nodes (buildNodeMap nodes) i = IsNode n ↔
        ∃ k, nodes !! k = Some n ∧ id n = i
             ∧ ∀ k' n', k < k' → nodes !! k' = Some n' → id n' ≠ i)
  ∧ ((∀ n, n ∈ nodes → id n ≠ i) → (∀ n, n ∈ nodes → id n ≠ "__proto__") →
     nodeAt nodes (buildNodeMap nodes) i
     = if inherited i then NotANode else IsUndefined).
Proof.
  split.
  - intros n. rewrite nodeAt_IsNode. unfold buildNodeMap. split.
    + intros (r & Hr & Hn).
      apply indexNodes_lookup in Hr as [(k & m & Hk & Hid & -> & Hlast)|[Hm _]];
        [|done].
      simpl in Hn. rewrite Hk in Hn. injection Hn as <-. by exists k.
    + intros (k & Hk & Hid & Hlast). exists (0 + k). split; [|done].
      apply indexNodes_lookup. left. by exists k, n.
  - intros Hnone Hproto. rewrite nodeAt_unindexed; [done | |].
    + by apply buildNodeMap_None.
    + by apply buildNodeMap_None.
Qed.

(** Layers that obey the layer equation are longest-chain depths. *)
Lemma layers_longest_chain nodes out :
  unique_ids nodes → later nodes out →
  (∀ n', n' ∈ out →
     ∃ v, layer n' = Some (LNum v)
       ∧ ((prereqs_of n' = [] ∧ v = 0)
          ∨ (prereqs_of n' ≠ []
             ∧ ∃ ls, Forall2 (λ p lp, ∃ q, q ∈ out ∧ id q = p
                                        ∧ layer q = Some (LNum lp))
                       (prereqs_of n') ls
                     ∧ v = S (max_list ls)))) →
  ∀ n' v, n' ∈ out → layer n' = Some (LNum v) →
    chain_to nodes (id n') v ∧ ∀ k, chain_to nodes (id n') k → k ≤ v.
Proof.
  intros Huniq Hl Heqn.
  pose proof (later_unique _ _ Hl Huniq) as Huniq'.
  assert (Hupper : ∀ i k, chain_to nodes i k →
            ∀ n' v, n' ∈ out → id n' = i → layer n' = Some (LNum v) → k ≤ v).
  { intros i k Hch.
    induction Hch as [i|n p k Hn Hp _ IH]; intros n' v Hn' Hid Hv; [lia|].
    destruct (later_elem_of_r nodes out n' Hl Hn') as (n0 & Hn0 & Hid0 & Hpre0).
    assert (n0 = n) as -> by (apply (unique_id_eq nodes); congruence).
    assert (Hps : prereqs_of n' = prereqs_of n)
      by (unfold prereqs_of; by rewrite Hpre0).
    destruct (Heqn n' Hn') as (v' & Hv' & Hcase).
    assert (v' = v) as -> by congruence.
    destruct Hcase as [[Hnil _]|(_ & ls & Hls & ->)].
    - rewrite Hps in Hnil. rewrite Hnil in Hp. by apply elem_of_nil in Hp.
    - rewrite Hps in Hls. apply list_elem_of_lookup in Hp as [j Hj].
      destruct (Forall2_lookup_l _ _ _ _ _ Hls Hj)
        as (lp & Hlj & q & Hq & Hidq & Hlq).
      specialize (IH q lp Hq Hidq Hlq).
      assert (lp ≤ max_list ls); [|lia].
      apply max_list_elem_of_le. by eapply list_elem_of_lookup_2. }
  intros n' v Hn' Hv. split; [|intros k Hk; by eapply Hupper].
  revert n' Hn' Hv. induction (lt_wf v) as [v _ IH]. intros n' Hn' Hv.
  destruct (Heqn n' Hn') as (v' & Hv' & Hcase).
  assert (v' = v) as -> by congruence.
  destruct Hcase as [[_ ->]|(Hne & ls & Hls & ->)]; [constructor|].
  assert (Hmax : max_list ls ∈ ls).
  { apply max_list_elem_of. intros ->. apply Forall2_length in Hls.
    by destruct (prereqs_of n'). }
  apply list_elem_of_lookup in Hmax as [j Hj].
  destruct (Forall2_lookup_r _ _ _ _ _ Hls Hj) as (p & Hpj & q & Hq & Hidq & Hlq).
  destruct (later_elem_of_r nodes out n' Hl Hn') as (n0 & Hn0 & Hid0 & Hpre0).
  rewrite Hid0. eapply chain_step; [done | |].
  - unfold prereqs_of in *. rewrite <- Hpre0. by eapply list_elem_of_lookup_2.
  - rewrite <- Hidq. apply (IH (max_list ls)); [lia | done | done].
Qed.

(** X2. On a well-formed acyclic graph whose ids are no property names of
    [Object.prototype] the layer that [computeLayers] writes on a node is
    the longest-path depth of the node: there is a chain of that many
    prereq edges ending at the node, and no longer one. *)
Theorem computeLayers_longest_path nodes fuel :
  well_formed nodes → acyclic nodes → plain_ids nodes → length nodes < fuel →
  ∃ out,
    computeLayers fuel nodes (buildNodeMap nodes) = Ok out
    ∧ ∀ n', n' ∈ out →
        ∃ v, layer n' = Some (LNum v)
             ∧ chain_to nodes (id n') v
             ∧ ∀ k, chain_to nodes (id n') k → k ≤ v.
Proof.
  intros Hwf Hacyc Hplain Hfuel.
  destruct (computeLayers_plain nodes fuel Hwf Hacyc Hplain Hfuel)
    as (out & Hrun & Hl & _ & Heqn).
  exists out. split; [done|]. intros n' Hn'.
  destruct (Heqn n' Hn') as (v & Hv & _). exists v. split; [done|].
  by apply (layers_longest_chain nodes out (proj1 Hwf) Hl Heqn).
Qed.

Lemma computeLayers_longest_path_witness :
  ∃ out,
    computeLayers 5 diamond (buildNodeMap diamond) = Ok out
    ∧ ∀ n', n' ∈ out →
        ∃ v, layer n' = Some (LNum v)
             ∧ chain_to diamond (id n') v
             ∧ ∀ k, chain_to diamond (id n') k → k ≤ v.
Proof.
  apply (computeLayers_longest_path diamond 5).
  - apply well_formed_b_true. vm_compute. reflexivity.
  - apply (ranked_b_acyclic diamond_rank). vm_compute. reflexivity.
  - apply plain_ids_b_true. vm_compute. reflexivity.
  - simpl. lia.
Defined.

(** ** Toggling *)

(** X3. A click changes the completion set exactly when the node is drawn
    with the pointer cursor: on a node drawn [not-allowed] the toggle
    returns the set unchanged, and otherwise it returns a set in which the
    membership of the node's id is flipped. *)
Theorem toggle_changes_iff_pointer nodes d c n fuel :
  size c < fuel →
  ∃ c', toggle fuel nodes c n = Some c'
        ∧ (nv_cursor (drawNode d c n) = NotAllowed → c' = c)
        ∧ (nv_cursor (drawNode d c n) = Pointer →
           (id n ∈ c' ↔ id n ∉ c) ∧ c' ≠ c).
Proof.
  intros Hsz. unfold drawNode, toggle. simpl.
  destruct (has c (id n)) eqn:Hdone; unfold has in Hdone.
  - apply bool_decide_eq_true in Hdone. rewrite andb_false_r. simpl.
    destruct (cascadeRemove_spec nodes fuel (id n) c Hsz) as (c1 & -> & Hc1).
    simpl. eexists. split; [done|]. split; [done|]. intros _.
    assert (Hnot : id n ∉ c1 ∖ {[id n]}) by set_solver.
    split; [tauto|]. intros Heq. rewrite Heq in Hnot. done.
  - apply bool_decide_eq_false in Hdone.
    destruct (isUnlocked c n); simpl.
    + eexists. split; [done|]. split; [done|]. intros _.
      split; [set_solver|]. intros Heq. apply Hdone. rewrite <- Heq. set_solver.
    + exists c. split; [done|]. split; [done|]. done.
Qed.

Lemma toggle_changes_iff_pointer_witness :
  ∃ c', toggle 2 scenario {["a"]} nodeB' = Some c'
        ∧ (nv_cursor (drawNode (dimsOf noConfig) {["a"]} nodeB') = NotAllowed →
           c' = {["a"]})
        ∧ (nv_cursor (drawNode (dimsOf noConfig) {["a"]} nodeB') = Pointer →
           (id nodeB' ∈ c' ↔ id nodeB' ∉ ({["a"]} : gset string))
           ∧ c' ≠ {["a"]}).
Proof.
  apply (toggle_changes_iff_pointer scenario (dimsOf noConfig) {["a"]} nodeB' 2).
  vm_compute. lia.
Defined.

Lemma dependent_Permutation nodes nodes' p i :
  nodes ≡ₚ nodes' → dependent nodes p i → dependent nodes' p i.
Proof.
  intros Hp (n & Hn & Hid & Hpre). exists n. split; [by rewrite <- Hp | done].
Qed.

Lemma downstream_in_Permutation nodes nodes' c r i :
  nodes ≡ₚ nodes' → downstream_in nodes c r i → downstream_in nodes' c r i.
Proof.
  intros Hp. induction 1 as [r i Hd Hi|r i j Hd Hi _ IH].
  - apply downstream_in_step; [by eapply dependent_Permutation | done].
  - eapply downstream_in_next; [by eapply dependent_Permutation | done | done].
Qed.

(** X4. The set a toggle returns does not depend on the order in which the
    nodes are listed: the cascade visits [this.nodes] in input order, but any
    rearrangement of the input gives the same completion set. *)
Theorem toggle_order_independent nodes nodes' c n fuel :
  nodes ≡ₚ nodes' → size c < fuel →
  ∃ c', toggle fuel nodes c n = Some c' ∧ toggle fuel nodes' c n = Some c'.
Proof.
  intros Hp Hsz.
  destruct (decide (id n ∈ c)) as [Hdone|Hdone].
  - destruct (toggle_done nodes c n fuel Hdone Hsz) as (c1 & Hrun1 & Hc1).
    destruct (toggle_done nodes' c n fuel Hdone Hsz) as (c2 & Hrun2 & Hc2).
    exists c1. split; [done|]. rewrite Hrun2. f_equal. apply set_eq. intros j.
    rewrite Hc1, Hc2. split; intros (Hj & Hne & Hnd); (split; [done|]);
      (split; [done|]); intros Hd; apply Hnd.
    + by eapply downstream_in_Permutation.
    + by eapply downstream_in_Permutation; [symmetry|].
  - unfold toggle, has. rewrite (bool_decide_eq_false_2 _ Hdone).
    destruct (isUnlocked c n); simpl; by eexists.
Qed.

Lemma toggle_order_independent_witness :
  ∃ c', toggle 4 chainABC {["A"; "B"; "C"]} nodeA = Some c'
        ∧ toggle 4 (reverse chainABC) {["A"; "B"; "C"]} nodeA = Some c'.
Proof.
  apply (toggle_order_independent chainABC (reverse chainABC)).
  - symmetry. apply reverse_Permutation.
  - vm_compute. lia.
Defined.

Lemma reachable_ids nodes c :
  reachable nodes c → ∀ i, i ∈ c → ∃ n, n ∈ nodes ∧ id n = i.
Proof.
  induction 1 as [|c n fuel c' _ IH Hn Htog|c _ _]; intros i Hi.
  - by apply not_elem_of_empty in Hi.
  - unfold toggle in Htog.
    destruct (negb (isUnlocked c n) && negb (has c (id n))).
    { injection Htog as <-. by apply IH. }
    destruct (has c (id n)).
    + destruct (cascadeRemove fuel nodes (id n) c) as [c1|] eqn:Hrun; [|done].
      simpl in Htog. injection Htog as <-.
      destruct (cascadeRemove_any_post _ _ _ _ _ Hrun) as (Hsub & _).
      apply IH. set_solver.
    + injection Htog as <-.
      apply elem_of_union in Hi as [->%elem_of_singleton|Hi]; [by exists n|].
      by apply IH.
  - by apply not_elem_of_empty in Hi.
Qed.

(** X5. In a graph with unique ids, every completion set the engine can
    reach holds only ids of nodes and is closed under prereqs taken
    transitively: with a node it holds every node upstream of it. *)
Theorem reachable_upward_closed nodes c :
  unique_ids nodes → reachable nodes c →
  (∀ i, i ∈ c → ∃ n, n ∈ nodes ∧ id n = i)
  ∧ (∀ p i, downstream nodes p i → i ∈ c → p ∈ c).
Proof.
  intros Huniq Hreach. split; [by apply reachable_ids|].
  pose proof (reachable_inv nodes c Huniq Hreach) as Hinv.
  intros p i Hd. induction Hd as [i (n & Hn & <- & Hp)|i j _ IH (n & Hn & <- & Hp)];
    intros Hi.
  - by eapply Hinv.
  - apply IH. by eapply Hinv.
Qed.

Lemma reachable_upward_closed_witness :
  (∀ i, i ∈ ({["A"]} : gset string) → ∃ n, n ∈ chainABC ∧ id n = i)
  ∧ (∀ p i, downstream chainABC p i → i ∈ ({["A"]} : gset string) →
            p ∈ ({["A"]} : gset string)).
Proof.
  apply (reachable_upward_closed chainABC {["A"]}).
  - apply chainABC_well_formed.
  - apply (reachable_toggle chainABC ∅ nodeA 0); [constructor | by left|].
    vm_compute. reflexivity.
Defined.

(** ** Progress *)

Lemma completed_filter_fresh (l : list node) (c : gset string) i :
  i ∉ id <$> l →
  filter (λ m, id m ∈ {[i]} ∪ c) l = filter (λ m, id m ∈ c) l.
Proof.
  induction l as [|a l IH]; intros Hi; [done|].
  apply not_elem_of_cons in Hi as [Hne Hi]. rewrite !filter_cons, IH by done.
  destruct (decide (id a ∈ c)) as [Ha|Ha].
  - rewrite decide_True by set_solver. done.
  - rewrite decide_False by set_solver. done.
Qed.

Lemma elem_of_fmap_filter_id (l : list node) (P : node → Prop)
    `{∀ m, Decision (P m)} i :
  i ∈ id <$> filter P l → i ∈ id <$> l.
Proof.
  intros (m & -> & Hm)%list_elem_of_fmap. apply list_elem_of_fmap.
  exists m. split; [done|]. by apply list_elem_of_filter in Hm as [_ ?].
Qed.

Lemma completed_count_add (l : list node) (c : gset string) n :
  NoDup (id <$> l) → n ∈ l → id n ∉ c →
  length (filter (λ m, id m ∈ {[id n]} ∪ c)
            (filter (λ m, type m = required) l))
  = (if decide (type n = required) then 1 else 0)
    + length (filter (λ m, id m ∈ c) (filter (λ m, type m = required) l)).
Proof.
  induction l as [|a l IH]; intros Hnd Hn Hc; [by apply elem_of_nil in Hn|].
  simpl in Hnd. apply NoDup_cons in Hnd as [Ha Hnd].
  apply elem_of_cons in Hn as [->|Hn].
  - rewrite filter_cons. destruct (decide (type a = required)) as [Hreq|Hreq].
    + rewrite !filter_cons.
      rewrite decide_True by set_solver. rewrite decide_False by done.
      simpl. f_equal. f_equal. apply completed_filter_fresh.
      intros Hin. apply Ha. by eapply elem_of_fmap_filter_id.
    + simpl. f_equal. apply completed_filter_fresh.
      intros Hin. apply Ha. by eapply elem_of_fmap_filter_id.
  - assert (Hne : id a ≠ id n).
    { intros Heq. apply Ha. rewrite Heq. apply list_elem_of_fmap. by exists n. }
    rewrite filter_cons. destruct (decide (type a = required)) as [Hreq|Hreq].
    + rewrite !filter_cons. destruct (decide (id a ∈ c)) as [Hac|Hac].
      * rewrite decide_True by set_solver. simpl. rewrite IH by done. lia.
      * rewrite decide_False by set_solver. by apply IH.
    + by apply IH.
Qed.

(** X6. In a graph with unique ids, completing a node that was not
    completed raises the count of completed required nodes that
    [updateProgress] shows by exactly one when the node is required and
    leaves it as it was otherwise; the total of required nodes stays. *)
Theorem updateProgress_counts_one nodes c n :
  unique_ids nodes → n ∈ nodes → id n ∉ c →
  ∃ K N w w',
    updateProgress true true nodes c = Some (K, N, w)
    ∧ updateProgress true true nodes ({[id n]} ∪ c)
      = Some (if decide (type n = required) then S K else K, N, w').
Proof.
  intros Huniq Hn Hc. unfold updateProgress. simpl.
  rewrite (completed_count_add nodes c n Huniq Hn Hc).
  destruct (decide (type n = required)); simpl;
    eexists _, _, _, _; (split; reflexivity).
Qed.

Lemma updateProgress_counts_one_witness :
  ∃ K N w w',
    updateProgress true true scenario {["a"]} = Some (K, N, w)
    ∧ updateProgress true true scenario ({[id nodeB']} ∪ {["a"]})
      = Some (if decide (type nodeB' = required) then S K else K, N, w').
Proof.
  apply (updateProgress_counts_one scenario {["a"]} nodeB').
  - apply (well_formed_b_true scenario). vm_compute. reflexivity.
  - unfold scenario, nodeB'. set_solver.
  - vm_compute. intros H. discriminate H.
Defined.

Lemma filter_length_all {A} (P : A → Prop) `{∀ a, Decision (P a)} (l : list A) :
  length (filter P l) = length l ↔ Forall P l.
Proof.
  induction l as [|a l IH]; [by split; [constructor|]|].
  rewrite filter_cons. destruct (decide (P a)) as [Ha|Ha]; simpl.
  - split.
    + intros Hlen. constructor; [done|]. apply IH. lia.
    + intros [_ Hall]%Forall_cons. f_equal. by apply IH.
  - split.
    + intros Hlen. pose proof (length_filter P l). lia.
    + intros [? _]%Forall_cons. done.
Qed.

Lemma Qc_of_nat_inj a b : Qc_of_nat a = Qc_of_nat b → a = b.
Proof. unfold Qc_of_nat. intros H%Z2Qc_inj. lia. Qed.

Lemma Qc_hundred_ne_0 : Qc_of_Z 100 ≠ 0%Qc.
Proof. intros H. rewrite <- Z2Qc_inj_0 in H. by apply Z2Qc_inj in H. Qed.

(** X7. When the graph has a required node, the width [updateProgress]
    sets is 100 percent exactly when every required node is completed. *)
Theorem updateProgress_full_iff nodes c n0 :
  n0 ∈ nodes → type n0 = required →
  ∃ K N w,
    updateProgress true true nodes c = Some (K, N, w)
    ∧ (w = Fin (Qc_of_Z 100) ↔
       ∀ n, n ∈ nodes → type n = required → id n ∈ c).
Proof.
  intros Hn0 Hreq. unfold updateProgress. simpl.
  set (req := filter (λ n, type n = required) nodes).
  set (K := length (filter (λ n, id n ∈ c) req)).
  set (N := length req).
  eexists K, N, _. split; [reflexivity|].
  assert (HN : 0 < N).
  { assert (Hin : n0 ∈ req) by by apply list_elem_of_filter.
    unfold N. destruct req; [by apply elem_of_nil in Hin | simpl; lia]. }
  assert (Hall : K = N ↔ ∀ n, n ∈ nodes → type n = required → id n ∈ c).
  { unfold K, N. rewrite filter_length_all, Forall_forall. split.
    - intros H n Hn Ht. apply H. by apply list_elem_of_filter.
    - intros H n [Ht Hn]%list_elem_of_filter. by apply H. }
  rewrite <- Hall. unfold js_div.
  pose proof (Qc_of_nat_ne_0 N HN) as HN0.
  rewrite decide_False by done. simpl. split.
  - intros Hw.
    assert (Hq : (Qc_of_nat K / Qc_of_nat N * Qc_of_Z 100)%Qc = Qc_of_Z 100)
      by congruence.
    apply Qc_of_nat_inj.
    transitivity (Qc_of_nat K / Qc_of_nat N * Qc_of_Z 100
                  * Qc_of_nat N / Qc_of_Z 100)%Qc.
    + field. split; first [apply Qc_hundred_ne_0 | done].
    + rewrite Hq. field. apply Qc_hundred_ne_0.
  - intros ->. f_equal. field. done.
Qed.

Lemma updateProgress_full_iff_witness :
  ∃ K N w,
    updateProgress true true scenario {["a"; "b"]} = Some (K, N, w)
    ∧ (w = Fin (Qc_of_Z 100) ↔
       ∀ n, n ∈ scenario → type n = required →
            id n ∈ ({["a"; "b"]} : gset string)).
Proof.
  apply (updateProgress_full_iff scenario {["a"; "b"]} (mk "a" required (Some []))).
  - unfold scenario. set_solver.
  - reflexivity.
Defined.

(** ** The constructed engine and its drawing *)

(** A second layout pass for the same viewport on the store of a
    well-formed acyclic graph returns the store of the first. *)
Lemma render_settled nodes fuel d nodes1 out :
  well_formed nodes → acyclic nodes → length nodes < fuel →
  computeLayers fuel nodes (buildNodeMap nodes) = Ok nodes1 →
  shape out = shape nodes1 →
  ∀ W' H' out',
    render W' H' d (buildNodeMap nodes) out = Ok out' →
    render W' H' d (buildNodeMap nodes) out' = Ok out'.
Proof.
  intros Hwf Hacyc Hfuel Hrun Hsh W' H' out' Hrender.
  destruct (maxLayer nodes1) as [m|] eqn:Hm.
  - destruct (computeLayers_layered nodes fuel nodes1 m Hwf Hacyc Hfuel Hrun Hm)
      as [_ Hlay].
    assert (Hlay2 : layered (buildNodeMap nodes) out).
    { by eapply layered_shape; [|symmetry]. }
    destruct (render_returns W' H' d _ _ (layered_sortable _ _ Hlay2))
      as (out2 & Hrun2 & Hsh2).
    assert (out2 = out') as -> by congruence.
    by apply (render_shape_determined W' H' _ _ out out').
  - assert (Hnone : maxLayer out = None).
    { by rewrite <- maxLayer_shape, Hsh, maxLayer_shape. }
    unfold render in *. rewrite Hnone in Hrender. injection Hrender as <-.
    by rewrite Hnone.
Qed.

(** The engine the constructor returns on a well-formed acyclic graph:
    its store holds the graph and is what a layout pass for the same
    viewport returns. *)
Lemma construct_engine nodes fuel W H cfg :
  well_formed nodes → acyclic nodes → length nodes < fuel →
  ∃ e, construct fuel W H cfg (Some nodes) = Ok e
    ∧ this_nodeMap e = buildNodeMap nodes
    ∧ this_dims e = dimsOf cfg
    ∧ this_completed e = ∅
    ∧ same_graph nodes (this_nodes e)
    ∧ render W H (dimsOf cfg) (buildNodeMap nodes) (this_nodes e)
      = Ok (this_nodes e).
Proof.
  intros Hwf Hacyc Hfuel.
  destruct (construct_Ok nodes fuel W H cfg Hwf Hacyc Hfuel)
    as (e & nodes1 & Hc & Hrun & Hrender & Hmap & Hdims & Hcomp & _ & Hsh & Hsg).
  exists e. do 4 (split; [done|]). split.
  - by apply (same_graph_shape nodes nodes1).
  - by apply (render_settled nodes fuel (dimsOf cfg) nodes1 nodes1
                Hwf Hacyc Hfuel Hrun eq_refl W H).
Qed.

(** X8. In the engine built from a well-formed acyclic graph, whatever the
    completion set, [renderEdges] raises nothing and draws one edge for every
    prereq entry, from the node that carries the id; when the set satisfies
    the completion invariant every edge is drawn in the state of the node it
    points to: done when that node is completed, dimmed when it is locked,
    and otherwise by its type. *)
Theorem renderEdges_style_by_target nodes fuel W H cfg :
  well_formed nodes → acyclic nodes → length nodes < fuel →
  ∃ e, construct fuel W H cfg (Some nodes) = Ok e
    ∧ ∀ c, ∃ evs,
        renderEdges (Engine (this_nodes e) (this_nodeMap e) (this_dims e) c)
        = Ok evs
        ∧ (∀ n p, n ∈ this_nodes e → p ∈ prereqs_of n →
             ∃ ev q, ev ∈ evs ∧ ev_to ev = n
                     ∧ ev_from ev = Some q ∧ id q = p)
        ∧ (completion_inv (this_nodes e) c →
           ∀ ev, ev ∈ evs →
             ev_style ev
             = edgeStyle (has c (id (ev_to ev))) (nodeLocked c (ev_to ev))
                 (type (ev_to ev))).
Proof.
  intros Hwf Hacyc Hfuel.
  destruct (construct_engine nodes fuel W H cfg Hwf Hacyc Hfuel)
    as (e & Hc & Hmap & Hdims & _ & Hsg & _).
  exists e. split; [done|]. intros c. unfold renderEdges. simpl. rewrite Hmap.
  destruct (edgesFrom_spec nodes (this_nodes e) (this_dims e) c (this_nodes e)
              (proj2 Hwf) Hsg) as (evs & Hrun & Hcov & Hsty); [done|].
  exists evs. split; [done|]. split; [done|].
  intros Hinv ev Hev. rewrite Forall_forall in Hsty.
  destruct (Hsty ev Hev) as (_ & _ & Hs). by apply Hs.
Qed.

Lemma renderEdges_style_by_target_witness :
  ∃ e, construct 5 1000 600 noConfig (Some diamond) = Ok e
    ∧ ∀ c, ∃ evs,
        renderEdges (Engine (this_nodes e) (this_nodeMap e) (this_dims e) c)
        = Ok evs
        ∧ (∀ n p, n ∈ this_nodes e → p ∈ prereqs_of n →
             ∃ ev q, ev ∈ evs ∧ ev_to ev = n
                     ∧ ev_from ev = Some q ∧ id q = p)
        ∧ (completion_inv (this_nodes e) c →
           ∀ ev, ev ∈ evs →
             ev_style ev
             = edgeStyle (has c (id (ev_to ev))) (nodeLocked c (ev_to ev))
                 (type (ev_to ev))).
Proof.
  apply (renderEdges_style_by_target diamond 5 1000 600 noConfig).
  - apply well_formed_b_true. vm_compute. reflexivity.
  - apply (ranked_b_acyclic diamond_rank). vm_compute. reflexivity.
  - simpl. lia.
Defined.

(** X9. What [renderNodes] adds to a node agrees with the attribute set it
    chose for it: the check mark goes with the done colours, the lock and the
    [not-allowed] cursor with the locked colours, the glow with the goal
    colours and the side-quest badge with the optional colours. *)
Theorem drawNode_decorations_match_style d c n :
  let v := drawNode d c n in
  (nv_icon v = Some CheckIcon ↔ nv_style v = nodeStyle true false required)
  ∧ (nv_icon v = Some LockIcon ↔ nv_style v = nodeStyle false true required)
  ∧ (nv_cursor v = NotAllowed ↔ nv_style v = nodeStyle false true required)
  ∧ (nv_glow v = true ↔ nv_style v = nodeStyle false false goal)
  ∧ (nv_badge v = true ↔ nv_style v = nodeStyle false false optional).
Proof.
  unfold drawNode. simpl.
  destruct (has c (id n)), (isUnlocked c n), (type n); simpl;
    repeat split; intros Heq; first [done | discriminate Heq].
Qed.

(** ** Toggle, reset and the layout *)

Lemma engine_eta e :
  Engine (this_nodes e) (this_nodeMap e) (this_dims e) (this_completed e) = e.
Proof. by destruct e. Qed.

(** A layout pass that changes nothing, followed by edges that draw, leaves
    the view as it is. *)
Lemma viewRender_settled W H v :
  render W H (this_dims (v_engine v)) (this_nodeMap (v_engine v))
    (this_nodes (v_engine v)) = Ok (this_nodes (v_engine v)) →
  (∃ evs, renderEdges (v_engine v) = Ok evs) →
  viewRender W H v = Ok v.
Proof.
  intros Hrender [evs Hedges]. unfold viewRender. rewrite Hrender. simpl.
  rewrite engine_eta, Hedges. simpl. by destruct v.
Qed.

(** X10. On the engine built from a well-formed acyclic graph, with the
    viewport unchanged, a toggle and a reset return and leave every node where
    it is (same layer, same x and y): only the completion set changes, to
    what [toggle] computes, and to the empty set on reset. *)
Theorem viewToggle_keeps_layout nodes fuel W H cfg :
  well_formed nodes → acyclic nodes → length nodes < fuel →
  ∃ e, construct fuel W H cfg (Some nodes) = Ok e
    ∧ ∀ c pt pf prog n fuel', size c < fuel' →
        let v := View (Engine (this_nodes e) (this_nodeMap e) (this_dims e) c)
                   pt pf prog in
        (∃ v', viewToggle fuel' W H v n = Ok v'
               ∧ this_nodes (v_engine v') = this_nodes e
               ∧ toggle fuel' (this_nodes e) c n
                 = Some (this_completed (v_engine v')))
        ∧ (∃ v', viewReset W H v = Ok v'
                 ∧ this_nodes (v_engine v') = this_nodes e
                 ∧ this_completed (v_engine v') = ∅).
Proof.
  intros Hwf Hacyc Hfuel.
  destruct (construct_engine nodes fuel W H cfg Hwf Hacyc Hfuel)
    as (e & Hc & Hmap & Hdims & _ & Hsg & Hrender).
  exists e. split; [done|]. intros c pt pf prog n fuel' Hsz v.
  assert (Hsettled : ∀ c' p,
            viewRender W H
              (View (Engine (this_nodes e) (this_nodeMap e) (this_dims e) c')
                 pt pf p)
            = Ok (View (Engine (this_nodes e) (this_nodeMap e) (this_dims e) c')
                    pt pf p)).
  { intros c' p. apply viewRender_settled; simpl.
    - by rewrite Hmap, Hdims.
    - unfold renderEdges. simpl. rewrite Hmap.
      destruct (edgesFrom_spec nodes (this_nodes e) (this_dims e) c'
                  (this_nodes e) (proj2 Hwf) Hsg) as (evs & Hrun & _); [done|].
      by exists evs. }
  assert (Hup : ∀ c', ∃ p,
            viewUpdateProgress (withCompleted v c')
            = View (Engine (this_nodes e) (this_nodeMap e) (this_dims e) c')
                pt pf p).
  { intros c'. unfold viewUpdateProgress, withCompleted. simpl.
    destruct (updateProgress pt pf (this_nodes e) c'); by eexists. }
  split.
  - unfold viewToggle, toggle. simpl.
    destruct (negb (isUnlocked c n) && negb (has c (id n))).
    { exists v. done. }
    destruct (has c (id n)).
    + destruct (cascadeRemove_spec (this_nodes e) fuel' (id n) c Hsz)
        as (c1 & -> & _). simpl.
      destruct (Hup (c1 ∖ {[id n]})) as [p ->]. rewrite Hsettled.
      eexists. split; [done|]. done.
    + simpl. destruct (Hup ({[id n]} ∪ c)) as [p ->]. rewrite Hsettled.
      eexists. split; [done|]. done.
  - unfold viewReset. destruct (Hup ∅) as [p ->]. rewrite Hsettled.
    eexists. split; [done|]. done.
Qed.

Lemma viewToggle_keeps_layout_witness :
  ∃ e, construct 4 1000 600 noConfig (Some scenario) = Ok e
    ∧ ∀ c pt pf prog n fuel', size c < fuel' →
        let v := View (Engine (this_nodes e) (this_nodeMap e) (this_dims e) c)
                   pt pf prog in
        (∃ v', viewToggle fuel' 1000 600 v n = Ok v'
               ∧ this_nodes (v_engine v') = this_nodes e
               ∧ toggle fuel' (this_nodes e) c n
                 = Some (this_completed (v_engine v')))
        ∧ (∃ v', viewReset 1000 600 v = Ok v'
                 ∧ this_nodes (v_engine v') = this_nodes e
                 ∧ this_completed (v_engine v') = ∅).
Proof.
  apply (viewToggle_keeps_layout scenario 4 1000 600 noConfig).
  - apply (well_formed_b_true scenario). vm_compute. reflexivity.
  - apply (ranked_b_acyclic scenario_rank). vm_compute. reflexivity.
  - simpl. lia.
Defined.

(** ** The tooltip and the layout options *)

(** X14. While the pointer is inside a window at least 439 pixels wide and
    165 pixels high, the tooltip box of 210 by 160 pixels that the mousemove
    handler places stays inside the window. *)
Theorem tooltipPosition_in_window cx cy iw ih :
  (0 ≤ cx ≤ iw)%Z → (0 ≤ cy ≤ ih)%Z → (439 ≤ iw)%Z → (165 ≤ ih)%Z →
  let '(px, py) := tooltipPosition cx cy iw ih in
  (0 ≤ px)%Z ∧ (px + 210 ≤ iw)%Z ∧ (0 ≤ py)%Z ∧ (py + 160 ≤ ih)%Z.
Proof.
  intros Hx Hy Hw Hh. unfold tooltipPosition. simpl.
  repeat case_decide; lia.
Qed.

Lemma tooltipPosition_in_window_witness :
  let '(px, py) := tooltipPosition 1000 5 1024 768 in
  (0 ≤ px)%Z ∧ (px + 210 ≤ 1024)%Z ∧ (0 ≤ py)%Z ∧ (py + 160 ≤ 768)%Z.
Proof.
  apply (tooltipPosition_in_window 1000 5 1024 768); lia.
Defined.


(** ** Layers and the completion state *)

Lemma same_graph_ids nodes st : same_graph nodes st → id <$> st = id <$> nodes.
Proof.
  induction 1 as [|n n' nodes st (Hid & _) _ IH]; [done|].
  rewrite !fmap_cons. by f_equal.
Qed.

(** The graph facts of an engine constructed from a graph with plain ids:
    unique ids, roots on layer 0, and every node that lists the id of
    another node among its prereqs on a greater layer than that node. *)
Lemma construct_layers nodes fuel W H cfg :
  well_formed nodes → acyclic nodes → plain_ids nodes → length nodes < fuel →
  ∃ e, construct fuel W H cfg (Some nodes) = Ok e
    ∧ this_dims e = dimsOf cfg
    ∧ this_completed e = ∅
    ∧ same_graph nodes (this_nodes e)
    ∧ unique_ids (this_nodes e)
    ∧ (∀ n, n ∈ this_nodes e → ∃ l, layer n = Some (LNum l))
    ∧ (∀ n, n ∈ this_nodes e → prereqs_of n = [] → layer n = Some (LNum 0))
    ∧ (∀ ni nq, ni ∈ this_nodes e → nq ∈ this_nodes e →
         id nq ∈ prereqs_of ni →
         ∃ lq li, layer nq = Some (LNum lq) ∧ layer ni = Some (LNum li)
                  ∧ lq < li).
Proof.
  intros Hwf Hacyc Hplain Hfuel.
  destruct (construct_Ok nodes fuel W H cfg Hwf Hacyc Hfuel)
    as (e & nodes1 & Hc & Hrun & _ & _ & Hdims & Hcomp & _ & Hsh & Hsg1).
  destruct (computeLayers_plain nodes fuel Hwf Hacyc Hplain Hfuel)
    as (out & Hrun' & Hl & _ & Heqn).
  assert (out = nodes1) as -> by congruence.
  pose proof (later_unique _ _ Hl (proj1 Hwf)) as Huniq1.
  assert (Hsg : same_graph nodes (this_nodes e))
    by by apply (same_graph_shape nodes nodes1).
  assert (Hnd : unique_ids (this_nodes e)).
  { unfold unique_ids. rewrite (same_graph_ids nodes _ Hsg). apply Hwf. }
  assert (Hback : ∀ n, n ∈ this_nodes e →
            ∃ n1, n1 ∈ nodes1 ∧ id n1 = id n ∧ prereqs n1 = prereqs n
                  ∧ layer n1 = layer n).
  { intros n [r Hr]%list_elem_of_lookup.
    destruct (lookup_shape _ _ r n Hsh Hr) as (n1 & Hn1 & Hun).
    apply unplaced_fields in Hun as (? & ? & ?).
    exists n1. split; [by eapply list_elem_of_lookup_2 | done]. }
  exists e. do 5 (split; [done|]). split; [|split].
  - intros n Hn. destruct (Hback n Hn) as (n1 & Hn1 & _ & _ & Hlay).
    destruct (Heqn n1 Hn1) as (v & Hv & _). exists v. congruence.
  - intros n Hn Hnil. destruct (Hback n Hn) as (n1 & Hn1 & _ & Hpre & Hlay).
    destruct (Heqn n1 Hn1) as (v & Hv & [[_ ->]|[Hne _]]); [congruence|].
    destruct Hne. unfold prereqs_of in *. by rewrite Hpre.
  - intros ni nq Hni Hnq Hp.
    destruct (Hback ni Hni) as (n1 & Hn1 & _ & Hpre & Hlay).
    destruct (Hback nq Hnq) as (q1 & Hq1 & Hidq & _ & Hlayq).
    assert (Hp1 : id q1 ∈ prereqs_of n1).
    { unfold prereqs_of in *. by rewrite Hpre, Hidq. }
    destruct (Heqn n1 Hn1) as (v & Hv & [[Hnil _]|(_ & ls & Hls & ->)]).
    { rewrite Hnil in Hp1. by apply elem_of_nil in Hp1. }
    apply list_elem_of_lookup in Hp1 as [j Hj].
    destruct (Forall2_lookup_l _ _ _ _ _ Hls Hj) as (lp & Hlj & q & Hq & Hid & Hlq).
    assert (q = q1) as -> by by apply (unique_id_eq nodes1).
    exists lp, (S (max_list ls)). split; [congruence|]. split; [congruence|].
    assert (lp ≤ max_list ls); [|lia].
    apply max_list_elem_of_le. by eapply list_elem_of_lookup_2.
Qed.

(** X16. In the engine the constructor returns for a well-formed acyclic
    graph whose ids are no property names of [Object.prototype] the
    completion set is empty and the nodes drawn with the pointer cursor are
    exactly the nodes of layer 0: the top row is where a user can start. *)
Theorem construct_top_row_clickable nodes fuel W H cfg :
  well_formed nodes → acyclic nodes → plain_ids nodes → length nodes < fuel →
  ∃ e, construct fuel W H cfg (Some nodes) = Ok e
    ∧ this_completed e = ∅
    ∧ ∀ n, n ∈ this_nodes e →
        (nv_cursor (drawNode (this_dims e) (this_completed e) n) = Pointer
         ↔ layer n = Some (LNum 0)).
Proof.
  intros Hwf Hacyc Hplain Hfuel.
  destruct (construct_layers nodes fuel W H cfg Hwf Hacyc Hplain Hfuel)
    as (e & Hc & _ & Hcomp & Hsg & _ & _ & Hroot & Hlower).
  exists e. split; [done|]. split; [done|]. intros n Hn. rewrite Hcomp.
  unfold drawNode, has. simpl.
  rewrite bool_decide_eq_false_2 by apply not_elem_of_empty. simpl.
  destruct (isUnlocked ∅ n) eqn:Hu; simpl.
  - split; [|done]. intros _. apply Hroot; [done|].
    destruct (prereqs_of n) as [|p ps] eqn:Hps; [done|].
    pose proof (proj1 (isUnlocked_spec ∅ n) Hu p) as Hp.
    rewrite Hps in Hp. destruct (not_elem_of_empty (C := gset string) p).
    apply Hp. by left.
  - split; [done|]. intros Hl. exfalso.
    assert (Hnot : isUnlocked ∅ n = true); [|congruence].
    apply isUnlocked_spec. intros p Hp. exfalso.
    destruct (same_graph_resolves nodes (this_nodes e) n p (proj2 Hwf) Hsg Hn Hp)
      as (q & _ & <- & Hq).
    destruct (Hlower n q Hn Hq Hp) as (lq & li & _ & Hli & Hlt).
    rewrite Hl in Hli. injection Hli as <-. lia.
Qed.

Lemma construct_top_row_clickable_witness :
  ∃ e, construct 4 1000 600 noConfig (Some scenario) = Ok e
    ∧ this_completed e = ∅
    ∧ ∀ n, n ∈ this_nodes e →
        (nv_cursor (drawNode (this_dims e) (this_completed e) n) = Pointer
         ↔ layer n = Some (LNum 0)).
Proof.
  apply (construct_top_row_clickable scenario 4 1000 600 noConfig).
  - apply (well_formed_b_true scenario). vm_compute. reflexivity.
  - apply (ranked_b_acyclic scenario_rank). vm_compute. reflexivity.
  - apply (plain_ids_b_true scenario). vm_compute. reflexivity.
  - simpl. lia.
Defined.

(** X17. In the engine built from a well-formed acyclic graph whose ids are
    no property names of [Object.prototype], revoking a completed node
    reaches only deeper layers: every other node that the toggle removes
    from the completion set lies on a greater layer than the node
    toggled. *)
Theorem toggle_revokes_deeper_layers nodes fuel W H cfg :
  well_formed nodes → acyclic nodes → plain_ids nodes → length nodes < fuel →
  ∃ e, construct fuel W H cfg (Some nodes) = Ok e
    ∧ ∀ c n fuel', n ∈ this_nodes e → id n ∈ c → size c < fuel' →
        ∃ c', toggle fuel' (this_nodes e) c n = Some c'
          ∧ ∀ m, m ∈ this_nodes e → id m ∈ c → id m ∉ c' →
              m = n ∨ ∃ lm ln, layer m = Some (LNum lm)
                               ∧ layer n = Some (LNum ln) ∧ ln < lm.
Proof.
  intros Hwf Hacyc Hplain Hfuel.
  destruct (construct_layers nodes fuel W H cfg Hwf Hacyc Hplain Hfuel)
    as (e & Hc & _ & _ & Hsg & Hnd & _ & _ & Hlower).
  exists e. split; [done|]. intros c n fuel' Hn Hdone Hsz.
  set (st := this_nodes e) in *.
  assert (Hdeep : ∀ i j, downstream st i j →
            ∀ ni nj, ni ∈ st → nj ∈ st → id ni = i → id nj = j →
              ∃ li lj, layer ni = Some (LNum li) ∧ layer nj = Some (LNum lj)
                       ∧ li < lj).
  { intros i j Hd.
    induction Hd as [j (a & Ha & <- & Hp)|k j _ IH (a & Ha & <- & Hp)];
      intros ni nj Hni Hnj Hi Hj.
    - assert (a = nj) as -> by by apply (unique_id_eq st).
      rewrite <- Hi in Hp. exact (Hlower nj ni Hnj Hni Hp).
    - assert (a = nj) as -> by by apply (unique_id_eq st).
      destruct (same_graph_resolves nodes st nj k (proj2 Hwf) Hsg Hnj Hp)
        as (q & _ & Hidq & Hq).
      destruct (IH ni q Hni Hq Hi Hidq) as (li & lq & Hli & Hlq & Hlt).
      rewrite <- Hidq in Hp.
      destruct (Hlower nj q Hnj Hq Hp) as (lq' & lj & Hlq' & Hlj & Hlt').
      exists li, lj. split; [done|]. split; [done|].
      assert (lq' = lq) by congruence. lia. }
  unfold toggle, has. rewrite (bool_decide_eq_true_2 _ Hdone), andb_false_r.
  destruct (cascadeRemove_post st fuel' (id n) c Hsz) as (c1 & -> & Hsub & Hsound & _).
  simpl. eexists. split; [done|]. intros m Hm Hmc Hnot.
  destruct (decide (id m = id n)) as [Heq|Hne].
  { left. by apply (unique_id_eq st). }
  right.
  assert (Hm1 : id m ∉ c1) by set_solver.
  pose proof (downstream_in_downstream st c _ _ (Hsound _ Hmc Hm1)) as Hd.
  destruct (Hdeep _ _ Hd n m Hn Hm eq_refl eq_refl) as (ln & lm & Hln & Hlm & Hlt).
  by exists lm, ln.
Qed.

Lemma toggle_revokes_deeper_layers_witness :
  ∃ e, construct 4 1000 600 noConfig (Some scenario) = Ok e
    ∧ ∀ c n fuel', n ∈ this_nodes e → id n ∈ c → size c < fuel' →
        ∃ c', toggle fuel' (this_nodes e) c n = Some c'
          ∧ ∀ m, m ∈ this_nodes e → id m ∈ c → id m ∉ c' →
              m = n ∨ ∃ lm ln, layer m = Some (LNum lm)
                               ∧ layer n = Some (LNum ln) ∧ ln < lm.
Proof.
  apply (toggle_revokes_deeper_layers scenario 4 1000 600 noConfig).
  - apply (well_formed_b_true scenario). vm_compute. reflexivity.
  - apply (ranked_b_acyclic scenario_rank). vm_compute. reflexivity.
  - apply (plain_ids_b_true scenario). vm_compute. reflexivity.
  - simpl. lia.
Defined.
